(** * texere/pkg/rope: rope, change algebra, position mapping, history

    A shallow embedding of the Go package [rope] of coreseekdev/texere and
    the properties its specification states about it.

    Conventions of the embedding.
    - A Go [int] is a [Z].  Every integer below is a length of, or a position
      in, an in-memory text, so 64-bit wrap-around is out of reach; the 32-
      and 64-bit hashes do wrap and the wrap is written out.  The length
      counter of the ChangeSet builder starts from an [int] the caller
      chooses: for it the wrap is written out as well ([build_int64]).
    - A Go [string] that holds valid UTF-8 is the sequence of its Unicode
      scalar values ([gostring := list rune]); [[]rune(s)] is then the
      identity, [len([]rune(s))] is [len_runes], and the bytes of the string
      are recovered by [utf8_bytes].
    - Pointers are never nil: the [r == nil] guards of the source are the
      branch not taken.
    - A method that mutates its receiver returns the new receiver. *)

From Stdlib Require Import ZArith List Lia Bool String Ascii.
Import ListNotations.
Open Scope Z_scope.

(* ------------------------------------------------------------------ *)
(** ** Text: runes, UTF-8 bytes, UTF-16 code units *)

Module text.

Definition rune := Z.
Definition gostring := list rune.

(** [len([]rune(s))] *)
Definition len_runes (s : gostring) : Z := Z.of_nat (List.length s).

(** A string literal of ASCII characters, as runes. *)
Definition lit (s : string) : gostring :=
  map (fun a => Z.of_N (N_of_ascii a)) (list_ascii_of_string s).

(** Go's [utf8.EncodeRune]: surrogates and values outside Unicode are
    written as U+FFFD. *)
Definition utf8_rune (r : rune) : list Z :=
  if r <? 0 then [239; 191; 189]
  else if r <=? 127 then [r]
  else if r <=? 2047 then
    [Z.lor 192 (Z.shiftr r 6); Z.lor 128 (Z.land r 63)]
  else if (55296 <=? r) && (r <=? 57343) then [239; 191; 189]
  else if r <=? 65535 then
    [Z.lor 224 (Z.shiftr r 12);
     Z.lor 128 (Z.land (Z.shiftr r 6) 63);
     Z.lor 128 (Z.land r 63)]
  else if r <=? 1114111 then
    [Z.lor 240 (Z.shiftr r 18);
     Z.lor 128 (Z.land (Z.shiftr r 12) 63);
     Z.lor 128 (Z.land (Z.shiftr r 6) 63);
     Z.lor 128 (Z.land r 63)]
  else [239; 191; 189].

Definition utf8_bytes (s : gostring) : list Z := flat_map utf8_rune s.

(** UTF-16 code units of one scalar, as [StringDocument.Length] and
    [Rope.LenUTF16] count them. *)
Definition utf16_units (r : rune) : Z := if r >=? 65536 then 2 else 1.

Definition len_utf16 (s : gostring) : Z :=
  fold_left (fun count r => count + utf16_units r) s 0.

(** [s[:n]] and [s[n:]] on the rune slice. *)
Definition take (n : Z) (s : gostring) : gostring := firstn (Z.to_nat n) s.
Definition drop (n : Z) (s : gostring) : gostring := skipn (Z.to_nat n) s.

(** [s[a:b]] on the rune slice, for [0 <= a <= b <= len]. *)
Definition sub (s : gostring) (a b : Z) : gostring := take (b - a) (drop a s).

Definition NEWLINE : rune := 10.

End text.
Import text.

(* ------------------------------------------------------------------ *)
(** ** errors.go: typed errors, and the three ways a call can end *)

Module errors.

Inductive RopeError : Type :=
| ErrOutOfBounds (operation : string) (position min max : Z)
| ErrInvalidRange (operation : string) (start end_ validMax : Z)
| ErrIteratorState (operation reason : string)
| ErrInvalidInput (parameter reason : string).

(** [ErrLengthMismatch]: "returned when document length doesn't match
    expected length". *)
Definition ErrLengthMismatch : RopeError :=
  ErrInvalidInput "length" "document length mismatch".

(** A call returns a value, returns a typed error to its caller, or
    panics (aborts the goroutine). *)
Inductive result (A : Type) : Type :=
| Ok (a : A)
| Err (e : RopeError)
| Panic (msg : string).
Arguments Ok {A} a.
Arguments Err {A} e.
Arguments Panic {A} msg.

Definition bind {A B} (x : result A) (f : A -> result B) : result B :=
  match x with
  | Ok a => f a
  | Err e => Err e
  | Panic m => Panic m
  end.

(** The single-result forms of [Insert], [Delete] and [Slice] that
    changeset.go calls ("Before (panics on errors): r = r.Insert(5, ...)
    // Would panic if out of bounds") abort where the two-result forms
    return their error. *)
Definition must {A} (x : result A) : result A :=
  match x with
  | Err _ => Panic "out of bounds"
  | other => other
  end.

Definition is_ok {A} (x : result A) : bool :=
  match x with Ok _ => true | _ => false end.

Definition is_panic {A} (x : result A) : bool :=
  match x with Panic _ => true | _ => false end.

Definition is_typed_error {A} (x : result A) : bool :=
  match x with Err _ => true | _ => false end.

Definition errSliceOutOfBounds (start end_ max : Z) : option RopeError :=
  if start >? end_ then Some (ErrInvalidRange "Slice" start end_ max)
  else if end_ >? max then Some (ErrInvalidRange "Slice" start end_ max)
  else if start <? 0 then Some (ErrInvalidRange "Slice" start end_ max)
  else None.

Definition errCharOutOfBounds (pos max : Z) : option RopeError :=
  if (pos <? 0) || (pos >=? max)
  then Some (ErrOutOfBounds "CharAt" pos 0 max) else None.

Definition errInsertOutOfBounds (pos max : Z) : option RopeError :=
  if (pos <? 0) || (pos >? max)
  then Some (ErrOutOfBounds "Insert" pos 0 (max + 1)) else None.

Definition errDeleteOutOfBounds (start end_ max : Z) : option RopeError :=
  if (start <? 0) || (end_ >? max) || (start >? end_)
  then Some (ErrInvalidRange "Delete" start end_ max) else None.

Definition errSplitOutOfBounds (pos max : Z) : option RopeError :=
  if (pos <? 0) || (pos >? max)
  then Some (ErrOutOfBounds "Split" pos 0 (max + 1)) else None.

End errors.
Import errors.

Declare Scope result_scope.
Notation "x <- c1 ;; c2" := (bind c1 (fun x => c2))
  (at level 61, c1 at next level, right associativity) : result_scope.
Open Scope result_scope.

(* ------------------------------------------------------------------ *)
(** ** The rope tree *)

Module rope.

(** Modelled from the spec: the node type of rope.go, "a tagged variant
    {Leaf(bytes), Branch{left, right, summary}}".  The summaries an
    [InternalNode] caches (chars and bytes of its left subtree) are the
    values [Length] and [Size] compute. *)
Inductive RopeNode : Type :=
| LeafNode (text : gostring)
| InternalNode (left right : RopeNode).

Definition Rope := RopeNode.

Fixpoint String (r : Rope) : gostring :=
  match r with
  | LeafNode t => t
  | InternalNode l rr => String l ++ String rr
  end.

(** Chars (runes) in the rope. *)
Definition Length (r : Rope) : Z := len_runes (String r).

(** Modelled from the spec: [Rope.Chunks]. "Chunk iterator -- yields
    immutable string views of each traversed leaf in order". *)
Fixpoint Chunks (r : Rope) : list gostring :=
  match r with
  | LeafNode t => [t]
  | InternalNode l rr => Chunks l ++ Chunks rr
  end.

(** Modelled from the spec: [Rope.IterBytes]. "Byte iterator -- yields
    bytes", the bytes of the leaves "in leaf order". *)
Fixpoint IterBytes (r : Rope) : list Z :=
  match r with
  | LeafNode t => utf8_bytes t
  | InternalNode l rr => IterBytes l ++ IterBytes rr
  end.

Definition Size (r : Rope) : Z := Z.of_nat (List.length (IterBytes r)).

(** text_utf16.go: one unit for a scalar up to U+FFFF, two above. *)
Definition LenUTF16 (r : Rope) : Z := len_utf16 (String r).

Definition New (t : gostring) : Rope := LeafNode t.
Definition Empty : Rope := LeafNode [].

(** rope_concat.go *)
Definition AppendRope (r other : Rope) : Rope :=
  if Length other =? 0 then r
  else if Length r =? 0 then other
  else InternalNode r other.

(** Modelled from the spec: [Rope.Split] (rope.go is not among the sources).
    "split(pos) -> (Rope, Rope) -- structural, no leaf copy": descend by the
    char weight of the left subtree and cut the leaf that holds [pos]. *)
Fixpoint splitNode (n : RopeNode) (pos : Z) : RopeNode * RopeNode :=
  match n with
  | LeafNode t =>
      (LeafNode (take pos t), LeafNode (drop pos t))
  | InternalNode l r =>
      if pos <=? Length l
      then let '(a, b) := splitNode l pos in (a, InternalNode b r)
      else let '(a, b) := splitNode r (pos - Length l) in (InternalNode l a, b)
  end.

Definition Split (r : Rope) (pos : Z) : result (Rope * Rope) :=
  match errSplitOutOfBounds pos (Length r) with
  | Some e => Err e
  | None => Ok (splitNode r pos)
  end.

(** Modelled from the spec: [Rope.Slice]. "slice(a, b) -> String -- fails
    with OutOfBounds if a < 0 or b > length_chars or a > b; otherwise
    returns the substring"; the error value is [errSliceOutOfBounds]'s. *)
Definition Slice (r : Rope) (start end_ : Z) : result gostring :=
  match errSliceOutOfBounds start end_ (Length r) with
  | Some e => Err e
  | None => Ok (sub (String r) start end_)
  end.

(** Modelled from the spec: [Rope.CharAt]. "char_at(i) -- fail on
    out-of-range"; the error value is [errCharOutOfBounds]'s. *)
Definition CharAt (r : Rope) (pos : Z) : result rune :=
  match errCharOutOfBounds pos (Length r) with
  | Some e => Err e
  | None => Ok (nth (Z.to_nat pos) (String r) 0)
  end.

(** Modelled from the spec: [Rope.Insert]. "insert(pos, text) -> Rope --
    splits at pos, concatenates left + leaf(text) + right; pos in
    [0, length_chars]"; the error value is [errInsertOutOfBounds]'s. *)
Definition Insert (r : Rope) (pos : Z) (t : gostring) : result Rope :=
  match errInsertOutOfBounds pos (Length r) with
  | Some e => Err e
  | None =>
      let '(l, rr) := splitNode r pos in
      Ok (AppendRope (AppendRope l (New t)) rr)
  end.

(** Modelled from the spec: [Rope.Delete]. "delete(a, b) -> Rope -- removes
    the scalars in [a, b); equivalent to concat(slice_rope(0,a),
    slice_rope(b,length))"; the error value is [errDeleteOutOfBounds]'s. *)
Definition Delete (r : Rope) (start end_ : Z) : result Rope :=
  match errDeleteOutOfBounds start end_ (Length r) with
  | Some e => Err e
  | None =>
      let '(l, _) := splitNode r start in
      let '(_, rr) := splitNode r end_ in
      Ok (AppendRope l rr)
  end.

(** Modelled from the spec: [Rope.Equals]. "equals(other) -- true iff
    textual content equal". *)
Definition Equals (r other : Rope) : bool :=
  if list_eq_dec Z.eq_dec (String r) (String other) then true else false.

(** The text of the rope a call returned, when it returned one. *)
Definition text_of (x : result Rope) : result gostring :=
  r <- x ;; Ok (String r).

End rope.
Import rope.

(* ------------------------------------------------------------------ *)
(** ** hash.go: FNV-1a over the byte stream *)

Module hash.

Definition offset32 : Z := 2166136261.
Definition prime32 : Z := 16777619.
Definition offset64 : Z := 14695981039346656037.
Definition prime64 : Z := 1099511628211.

(** [hasher.Write([]byte{b})] on [fnv.New32a()]: xor, then multiply,
    in 32 bits. *)
Definition write32 (h b : Z) : Z := (Z.lxor h b * prime32) mod 2 ^ 32.
Definition write64 (h b : Z) : Z := (Z.lxor h b * prime64) mod 2 ^ 64.

Definition HashCode32 (r : Rope) : Z := fold_left write32 (IterBytes r) offset32.
Definition HashCode64 (r : Rope) : Z := fold_left write64 (IterBytes r) offset64.
Definition HashCode (r : Rope) : Z := HashCode32 r.

End hash.
Import hash.

(* ------------------------------------------------------------------ *)
(** ** changeset.go: operations, the builder, fuse, Apply, Invert *)

Module changeset.

Inductive OpType : Type := OpRetain | OpDelete | OpInsert.

Definition OpType_eqb (a b : OpType) : bool :=
  match a, b with
  | OpRetain, OpRetain | OpDelete, OpDelete | OpInsert, OpInsert => true
  | _, _ => false
  end.

(** [Length] is read for Retain and Delete, [Text] for Insert. *)
Record Operation : Type := mkOp {
  opType : OpType;
  Length : Z;
  Text : gostring
}.

Record ChangeSet : Type := mkChangeSet {
  operations : list Operation;
  lenBefore : Z;
  lenAfter : Z
}.

Definition NewChangeSet (lenBefore : Z) : ChangeSet :=
  mkChangeSet [] lenBefore lenBefore.

Definition Retain (cs : ChangeSet) (n : Z) : ChangeSet :=
  mkChangeSet (operations cs ++ [mkOp OpRetain n []])
              (lenBefore cs) (lenAfter cs).

Definition Delete (cs : ChangeSet) (n : Z) : ChangeSet :=
  mkChangeSet (operations cs ++ [mkOp OpDelete n []])
              (lenBefore cs) (lenAfter cs - n).

Definition Insert (cs : ChangeSet) (t : gostring) : ChangeSet :=
  mkChangeSet (operations cs ++ [mkOp OpInsert 0 t])
              (lenBefore cs) (lenAfter cs + len_runes t).

Definition LenBefore (cs : ChangeSet) : Z := lenBefore cs.
Definition LenAfter (cs : ChangeSet) : Z := lenAfter cs.

Definition IsEmpty (cs : ChangeSet) : bool :=
  match operations cs with [] => true | _ => false end.

(** The body of the [switch] in [fuse]: [prev] absorbs [op]. *)
Definition merge (prev op : Operation) : Operation :=
  match opType op with
  | OpRetain => mkOp (opType prev) (Length prev + Length op) (Text prev)
  | OpDelete => mkOp (opType prev) (Length prev + Length op) (Text prev)
  | OpInsert => mkOp (opType prev) (Length prev) (Text prev ++ Text op)
  end.

(** One iteration of the loop of [fuse].  The slice [fused] is kept
    newest first, so its head is [fused[len(fused)-1]]. *)
Definition fuse_step (fused : list Operation) (op : Operation)
  : list Operation :=
  match fused with
  | prev :: before =>
      if OpType_eqb (opType prev) (opType op)
      then merge prev op :: before
      else op :: fused
  | [] => [op]
  end.

Definition fuse_ops (ops : list Operation) : list Operation :=
  if (List.length ops <=? 1)%nat then ops
  else rev (fold_left fuse_step ops []).

Definition fuse (cs : ChangeSet) : ChangeSet :=
  mkChangeSet (fuse_ops (operations cs)) (lenBefore cs) (lenAfter cs).

(** The loop of [Apply]: [result] is the rope so far, [pos] the cursor in it. *)
Fixpoint applyOps (ops : list Operation) (result : Rope) (pos : Z)
  : errors.result Rope :=
  match ops with
  | [] => Ok result
  | op :: rest =>
      match opType op with
      | OpRetain => applyOps rest result (pos + Length op)
      | OpDelete =>
          r' <- must (rope.Delete result pos (pos + Length op)) ;;
          applyOps rest r' pos
      | OpInsert =>
          r' <- must (rope.Insert result pos (Text op)) ;;
          applyOps rest r' (pos + len_runes (Text op))
      end
  end.

(** [Apply] fuses its receiver in place before it walks the operations:
    the first component is the receiver after the call. *)
Definition Apply (cs : ChangeSet) (r : Rope) : ChangeSet * result Rope :=
  if IsEmpty cs then (cs, Ok r)
  else let cs' := fuse cs in (cs', applyOps (operations cs') r 0).

(** The loop of [Invert]: [pos] is the cursor in the original rope. *)
Fixpoint invertOps (ops : list Operation) (original : Rope)
    (inverted : ChangeSet) (pos : Z) : result ChangeSet :=
  match ops with
  | [] => Ok inverted
  | op :: rest =>
      match opType op with
      | OpRetain =>
          invertOps rest original (Retain inverted (Length op))
                    (pos + Length op)
      | OpDelete =>
          deletedText <- must (rope.Slice original pos (pos + Length op)) ;;
          invertOps rest original (Insert inverted deletedText)
                    (pos + Length op)
      | OpInsert =>
          invertOps rest original
                    (Delete inverted (len_runes (Text op))) pos
      end
  end.

Definition Invert (cs : ChangeSet) (original : Rope) : result ChangeSet :=
  inverted <- invertOps (operations cs) original
                        (NewChangeSet (lenAfter cs)) 0 ;;
  Ok (fuse inverted).

End changeset.

(* ------------------------------------------------------------------ *)
(** ** composition.go: Compose, MapPosition, Transform *)

Module composition.
Import changeset.

(** [Assoc] (transaction_advanced.go) *)
Inductive Assoc : Type :=
| AssocBefore | AssocAfter | AssocBeforeWord | AssocAfterWord
| AssocBeforeSticky | AssocAfterSticky.

Record changesetComposer : Type := mkComposer {
  result_ : ChangeSet;
  posInFirst : Z;
  posInSecond : Z;
  posInResult : Z
}.

(** [buildPositionMap]: the map is filled key by key; later writes to a
    key win, so the association list is read newest first. *)
Definition posMapT := list (Z * Z).

Definition range (n : Z) : list Z := map Z.of_nat (seq 0 (Z.to_nat n)).

Fixpoint buildPositionMapLoop (ops : list Operation) (posMap : posMapT)
    (pos newPos : Z) : posMapT :=
  match ops with
  | [] => posMap
  | op :: rest =>
      match opType op with
      | OpRetain =>
          buildPositionMapLoop rest
            (rev (map (fun i => (pos + i, newPos + i)) (range (Length op)))
               ++ posMap)
            (pos + Length op) (newPos + Length op)
      | OpDelete =>
          buildPositionMapLoop rest
            (rev (map (fun i => (pos + i, newPos)) (range (Length op)))
               ++ posMap)
            (pos + Length op) newPos
      | OpInsert =>
          buildPositionMapLoop rest posMap pos (newPos + len_runes (Text op))
      end
  end.

Definition buildPositionMap (cs : ChangeSet) : posMapT :=
  buildPositionMapLoop (operations cs) [] 0 0.

(** [shouldProcessFirst], called with [secondIdx < len(secondOps)]. *)
Definition shouldProcessFirst (c : changesetComposer) (firstOp : Operation)
    (posMap : posMapT) : bool :=
  match opType firstOp with
  | OpRetain | OpDelete => posInFirst c <? posInSecond c
  | OpInsert => posInFirst c <=? posInSecond c
  end.

Definition processFirstOp (c : changesetComposer) (op : Operation)
  : changesetComposer :=
  match opType op with
  | OpRetain =>
      mkComposer (Retain (result_ c) (Length op))
                 (posInFirst c + Length op) (posInSecond c + Length op)
                 (posInResult c + Length op)
  | OpDelete =>
      mkComposer (Delete (result_ c) (Length op))
                 (posInFirst c + Length op) (posInSecond c) (posInResult c)
  | OpInsert =>
      mkComposer (Insert (result_ c) (Text op))
                 (posInFirst c) (posInSecond c)
                 (posInResult c + len_runes (Text op))
  end.

Definition processSecondOp (c : changesetComposer) (op : Operation)
    (posMap : posMapT) : changesetComposer :=
  match opType op with
  | OpRetain =>
      mkComposer (Retain (result_ c) (Length op))
                 (posInFirst c + Length op) (posInSecond c + Length op)
                 (posInResult c + Length op)
  | OpDelete =>
      mkComposer (Delete (result_ c) (Length op))
                 (posInFirst c + Length op) (posInSecond c + Length op)
                 (posInResult c)
  | OpInsert =>
      mkComposer (Insert (result_ c) (Text op))
                 (posInFirst c) (posInSecond c)
                 (posInResult c + len_runes (Text op))
  end.

(** The loop of [compose] over the operations not yet processed
    ([firstOps[i:]] and [secondOps[j:]]): every iteration consumes one
    operation of one of the two lists. *)
Fixpoint composeLoop (firstOps : list Operation) (posMap : posMapT)
  : list Operation -> changesetComposer -> changesetComposer :=
  fix second (secondOps : list Operation) (c : changesetComposer)
    {struct secondOps} : changesetComposer :=
    match firstOps, secondOps with
    | [], [] => c
    | f :: fs, [] => composeLoop fs posMap [] (processFirstOp c f)
    | [], s :: ss => second ss (processSecondOp c s posMap)
    | f :: fs, s :: ss =>
        if shouldProcessFirst c f posMap
        then composeLoop fs posMap secondOps (processFirstOp c f)
        else second ss (processSecondOp c s posMap)
    end.

Definition compose (first second : ChangeSet) : ChangeSet :=
  let posMap := buildPositionMap first in
  let c := composeLoop (operations first) posMap (operations second)
             (mkComposer (NewChangeSet (lenBefore first)) 0 0 0) in
  mkChangeSet (operations (result_ c)) (lenBefore (result_ c))
              (posInResult c).

Definition Compose (cs other : ChangeSet) : ChangeSet :=
  if IsEmpty cs then
    if IsEmpty other then NewChangeSet (lenBefore cs)
    else mkChangeSet (operations other) (lenBefore other) (lenAfter other)
  else if IsEmpty other then
    mkChangeSet (operations cs) (lenBefore cs) (lenAfter cs)
  else compose cs other.

(** [ChangeSet.applyAssociation] *)
Definition applyAssociation (newPos : Z) (assoc : Assoc)
    (opStart opLength targetPos : Z) : Z :=
  match assoc with
  | AssocBefore => newPos
  | AssocAfter => newPos + opLength
  | AssocBeforeSticky | AssocAfterSticky =>
      let offset := targetPos - opStart in
      let offset := if offset >? opLength then opLength else offset in
      newPos + offset
  | _ => newPos
  end.

(** The loop of [MapPosition]; the [break] after the [switch] leaves the
    loop, and the function then returns [newPos]. *)
Fixpoint mapPositionLoop (ops : list Operation) (pos : Z) (assoc : Assoc)
    (currentPos newPos : Z) : Z :=
  match ops with
  | [] => newPos
  | op :: rest =>
      let continue (currentPos newPos : Z) :=
        if currentPos >=? pos then newPos
        else mapPositionLoop rest pos assoc currentPos newPos in
      match opType op with
      | OpRetain =>
          if currentPos + Length op >? pos then
            applyAssociation (newPos + (pos - currentPos)) assoc
                             currentPos (Length op) pos
          else continue (currentPos + Length op) (newPos + Length op)
      | OpDelete =>
          if currentPos + Length op >? pos then
            applyAssociation newPos assoc currentPos (Length op) pos
          else continue (currentPos + Length op) newPos
      | OpInsert =>
          if currentPos >=? pos then
            applyAssociation newPos assoc currentPos
                             (len_runes (Text op)) pos
          else continue currentPos (newPos + len_runes (Text op))
      end
  end.

Definition MapPosition (cs : ChangeSet) (pos : Z) (assoc : Assoc) : Z :=
  if (pos <? 0) || (pos >? lenBefore cs) then pos
  else mapPositionLoop (operations cs) pos assoc 0 0.

Definition MapPositions (cs : ChangeSet) (positions : list Z)
    (associations : list Assoc) : result (list Z) :=
  if negb (List.length positions =? List.length associations)%nat
  then Panic "positions and associations must have same length"
  else Ok (map (fun pa => MapPosition cs (fst pa) (snd pa))
               (combine positions associations)).

Definition Transform (cs other : ChangeSet) : ChangeSet :=
  if IsEmpty cs then other
  else if IsEmpty other then cs
  else Compose cs other.

End composition.

(* ------------------------------------------------------------------ *)
(** ** transaction_advanced.go: the position mapper *)

Module position_mapper.
Import changeset composition.

Record Position : Type := mkPosition {
  Pos : Z;
  PosAssoc : Assoc;
  Offset : Z
}.

(** The word-boundary helper of a mapper that was given a document; its
    two methods are all the mapper uses. *)
Record WordBoundary : Type := mkWordBoundary {
  PrevWordStart : Z -> Z;
  NextWordStart : Z -> Z
}.

Record PositionMapper : Type := mkPositionMapper {
  pm_changeset : ChangeSet;
  positions : list Position;
  wordBoundary : option WordBoundary
}.

Definition NewPositionMapper (cs : ChangeSet) : PositionMapper :=
  mkPositionMapper cs [] None.

Definition AddPosition (pm : PositionMapper) (pos : Z) (assoc : Assoc)
  : PositionMapper :=
  mkPositionMapper (pm_changeset pm)
                   (positions pm ++ [mkPosition pos assoc 0])
                   (wordBoundary pm).

Fixpoint isSortedFrom (prev : Z) (ps : list Position) : bool :=
  match ps with
  | [] => true
  | p :: rest => if Pos p <? prev then false else isSortedFrom (Pos p) rest
  end.

Definition isSorted (pm : PositionMapper) : bool :=
  match positions pm with
  | [] => true
  | p :: rest => isSortedFrom (Pos p) rest
  end.

(** [advanceTo]: walks the operations from the first one; returns the
    cursor [*pos] and the new position. *)
Fixpoint advanceToLoop (ops : list Operation) (target pos newPos : Z)
  : Z * Z :=
  match ops with
  | [] => (pos, newPos)
  | op :: rest =>
      let continue (pos newPos : Z) :=
        if pos >=? target then (pos, newPos)
        else advanceToLoop rest target pos newPos in
      match opType op with
      | OpRetain =>
          if pos + Length op >=? target then
            let advance := target - pos in (pos + advance, newPos + advance)
          else continue (pos + Length op) (newPos + Length op)
      | OpDelete => continue (pos + Length op) newPos
      | OpInsert => continue pos (newPos + len_runes (Text op))
      end
  end.

Definition advanceTo (pm : PositionMapper) (target pos newPos : Z) : Z * Z :=
  advanceToLoop (operations (pm_changeset pm)) target pos newPos.

Definition applyAfterAssociation (oldPos newPos currentPos : Z) : Z := newPos.

Definition applyAssociation (pm : PositionMapper) (position : Position)
    (oldPos newPos currentPos : Z) : Z :=
  match PosAssoc position with
  | AssocBefore => newPos
  | AssocAfter => applyAfterAssociation oldPos newPos currentPos
  | AssocBeforeWord =>
      match wordBoundary pm with
      | Some wb => PrevWordStart wb newPos
      | None => newPos
      end
  | AssocAfterWord =>
      match wordBoundary pm with
      | Some wb => NextWordStart wb newPos
      | None => newPos
      end
  | AssocBeforeSticky | AssocAfterSticky => newPos + Offset position
  end.

(** The inner [for pos < oldPos && pos < lenBefore] of [mapSorted].  The
    cursor need not move in an iteration, so the loop is bounded by
    [fuel]; [None] is a loop still running when the fuel is spent. *)
Fixpoint advanceWhile (fuel : nat) (pm : PositionMapper)
    (oldPos pos newPos : Z) : option (Z * Z) :=
  if (pos <? oldPos) && (pos <? lenBefore (pm_changeset pm)) then
    match fuel with
    | O => None
    | S fuel' =>
        match operations (pm_changeset pm) with
        | [] => Some (pos, newPos)
        | _ :: _ =>
            let '(pos', newPos') := advanceTo pm oldPos pos newPos in
            advanceWhile fuel' pm oldPos pos' newPos'
        end
    end
  else Some (pos, newPos).

Fixpoint mapSortedLoop (fuel : nat) (pm : PositionMapper)
    (ps : list Position) (pos newPos : Z) : option (list Z) :=
  match ps with
  | [] => Some []
  | position :: rest =>
      let oldPos := Pos position in
      match advanceWhile fuel pm oldPos pos newPos with
      | None => None
      | Some (pos', newPos') =>
          match mapSortedLoop fuel pm rest pos' newPos' with
          | None => None
          | Some tl =>
              Some (applyAssociation pm position oldPos newPos' pos' :: tl)
          end
      end
  end.

Definition mapSorted (fuel : nat) (pm : PositionMapper) : option (list Z) :=
  mapSortedLoop fuel pm (positions pm) 0 0.

Fixpoint mapSinglePositionLoop (pm : PositionMapper) (ops : list Operation)
    (position : Position) (pos newPos : Z) : Z :=
  let oldPos := Pos position in
  match ops with
  | [] => newPos
  | op :: rest =>
      let continue (pos newPos : Z) :=
        if pos >=? oldPos then newPos
        else mapSinglePositionLoop pm rest position pos newPos in
      match opType op with
      | OpRetain =>
          if pos + Length op >=? oldPos then
            applyAssociation pm position oldPos (newPos + (oldPos - pos))
                             oldPos
          else continue (pos + Length op) (newPos + Length op)
      | OpDelete =>
          if pos + Length op >=? oldPos then
            applyAssociation pm position oldPos newPos pos
          else continue (pos + Length op) newPos
      | OpInsert =>
          if pos >=? oldPos then
            applyAssociation pm position oldPos newPos pos
          else continue pos (newPos + len_runes (Text op))
      end
  end.

Definition mapSinglePosition (pm : PositionMapper) (position : Position) : Z :=
  mapSinglePositionLoop pm (operations (pm_changeset pm)) position 0 0.

Definition mapUnsorted (pm : PositionMapper) : list Z :=
  map (mapSinglePosition pm) (positions pm).

Definition Map (fuel : nat) (pm : PositionMapper) : option (list Z) :=
  match positions pm with
  | [] => Some []
  | _ :: _ => if isSorted pm then mapSorted fuel pm else Some (mapUnsorted pm)
  end.

(** The package-level convenience function [MapPositions]. *)
Definition MapPositions (fuel : nat) (cs : ChangeSet) (ps : list Z)
    (assoc : Assoc) : option (list Z) :=
  Map fuel (fold_left (fun m p => AddPosition m p assoc) ps
                      (NewPositionMapper cs)).

End position_mapper.

(* ------------------------------------------------------------------ *)
(** ** history.go: the revision tree *)

Module history.
Import changeset.

(** [time.Time] values are instants on an integer clock. *)
Record Transaction : Type := mkTransaction {
  tx_changeset : ChangeSet;
  tx_timestamp : Z
}.

Definition NewTransaction (cs : ChangeSet) (now : Z) : Transaction :=
  mkTransaction cs now.

Definition Transaction_IsEmpty (t : Transaction) : bool :=
  IsEmpty (tx_changeset t).

Definition Transaction_Invert (t : Transaction) (original : Rope) (now : Z)
  : result Transaction :=
  inv <- Invert (tx_changeset t) original ;; Ok (NewTransaction inv now).

Record Revision : Type := mkRevision {
  parent : Z;
  lastChild : Z;
  transaction : Transaction;
  inversion : Transaction;
  timestamp : Z
}.

Record History : Type := mkHistory {
  revisions : list Revision;
  current : Z;
  maxSize : Z
}.

Definition NewHistory : History := mkHistory [] (-1) 1000.

Definition len (revs : list Revision) : Z := Z.of_nat (List.length revs).

(** [h.revisions[i]] panics outside [0, len). *)
Definition index (revs : list Revision) (i : Z) : result Revision :=
  if i <? 0 then Panic "index out of range"
  else match nth_error revs (Z.to_nat i) with
       | Some rev => Ok rev
       | None => Panic "index out of range"
       end.

Fixpoint updateAt (revs : list Revision) (i : nat)
    (f : Revision -> Revision) : list Revision :=
  match revs, i with
  | [], _ => []
  | rev :: rest, O => f rev :: rest
  | rev :: rest, S i' => rev :: updateAt rest i' f
  end.

Definition setLastChild (newIndex : Z) (rev : Revision) : Revision :=
  mkRevision (parent rev) newIndex (transaction rev) (inversion rev)
             (timestamp rev).

(** The index update of the loop of [prune]. *)
Definition rebase (newRoot : Z) (rev : Revision) : Revision :=
  mkRevision
    (if parent rev >=? 0 then parent rev - newRoot else parent rev)
    (if lastChild rev >=? 0 then lastChild rev - newRoot else lastChild rev)
    (transaction rev) (inversion rev) (timestamp rev).

Definition prune (h : History) : History :=
  if maxSize h <=? 0 then h
  else if len (revisions h) <=? maxSize h then h
  else
    let excess := len (revisions h) - maxSize h in
    let newRoot :=
      if excess >=? len (revisions h) then len (revisions h) - 1
      else excess in
    let revs := map (rebase newRoot) (skipn (Z.to_nat newRoot) (revisions h)) in
    let cur := current h - newRoot in
    mkHistory revs (if cur <? -1 then -1 else cur) (maxSize h).

Definition SetMaxSize (h : History) (size : Z) : History :=
  prune (mkHistory (revisions h) (current h) size).

Definition CommitRevision (h : History) (transaction : Transaction)
    (original : Rope) (now : Z) : result History :=
  if Transaction_IsEmpty transaction then Ok h
  else
    inversion <- Transaction_Invert transaction original now ;;
    let revision := mkRevision (current h) (-1) transaction inversion now in
    let revs := revisions h ++ [revision] in
    let newIndex := len revs - 1 in
    let revs :=
      if (current h >=? 0) && (current h <? len revs - 1)
      then updateAt revs (Z.to_nat (current h)) (setLastChild newIndex)
      else revs in
    Ok (prune (mkHistory revs newIndex (maxSize h))).

Definition CanUndo (h : History) : bool := current h >=? 0.

Definition Undo (h : History) : result (History * option Transaction) :=
  if current h <? 0 then Ok (h, None)
  else
    cur <- index (revisions h) (current h) ;;
    Ok (mkHistory (revisions h) (parent cur) (maxSize h),
        Some (inversion cur)).

Definition Redo (h : History) : result (History * option Transaction) :=
  if current h =? -1 then
    match revisions h with
    | [] => Ok (h, None)
    | first :: _ =>
        Ok (mkHistory (revisions h) 0 (maxSize h), Some (transaction first))
    end
  else if current h >=? len (revisions h) then Ok (h, None)
  else
    cur <- index (revisions h) (current h) ;;
    if lastChild cur <? 0 then Ok (h, None)
    else
      next <- index (revisions h) (lastChild cur) ;;
      Ok (mkHistory (revisions h) (lastChild cur) (maxSize h),
          Some (transaction next)).

(** What the spec asks of the parent index of the revision at [i]:
    [-1], or the index of an earlier revision that is still there. *)
Definition parent_ok (i : Z) (rev : Revision) : bool :=
  (parent rev =? -1) || ((0 <=? parent rev) && (parent rev <? i)).

Fixpoint parents_ok_from (i : Z) (revs : list Revision) : bool :=
  match revs with
  | [] => true
  | rev :: rest => parent_ok i rev && parents_ok_from (i + 1) rest
  end.

Definition no_dangling_parent (h : History) : bool :=
  parents_ok_from 0 (revisions h).

End history.

(* ------------------------------------------------------------------ *)
(** ** line_ops.go and string_optimized.go *)

Module line_ops.

Definition count_newlines (s : gostring) : Z :=
  fold_left (fun n c => if c =? NEWLINE then n + 1 else n) s 0.

Definition ends_with_newline (s : gostring) : bool :=
  match rev s with
  | c :: _ => c =? NEWLINE
  | [] => false
  end.

Definition LineCount (r : Rope) : Z :=
  if rope.Length r =? 0 then 0
  else
    let content := rope.String r in
    let count := count_newlines content in
    if negb (ends_with_newline content) then count + 1 else count.

(** The iterator loop of [LineStart]; [i] is the index of the rune at the
    head, and [Position()] after reading it is [i + 1]. *)
Fixpoint lineStartLoop (runes : gostring) (i currentLine lineNum : Z)
  : option Z :=
  match runes with
  | [] => None
  | c :: rest =>
      if c =? NEWLINE then
        if currentLine + 1 =? lineNum then Some (i + 1)
        else lineStartLoop rest (i + 1) (currentLine + 1) lineNum
      else lineStartLoop rest (i + 1) currentLine lineNum
  end.

Definition LineStart (r : Rope) (lineNum : Z) : result Z :=
  if (lineNum <? 0) || (lineNum >=? LineCount r)
  then Panic "line number out of bounds"
  else if lineNum =? 0 then Ok 0
  else match lineStartLoop (rope.String r) 0 0 lineNum with
       | Some p => Ok p
       | None => Ok (rope.Length r)
       end.

(** [for i := start; i < r.Length(); i++], with [n] iterations left. *)
Fixpoint lineEndLoop (n : nat) (r : Rope) (i : Z) : result Z :=
  match n with
  | O => Ok (rope.Length r)
  | S n' =>
      ch <- rope.CharAt r i ;;
      if ch =? NEWLINE then Ok i else lineEndLoop n' r (i + 1)
  end.

Definition LineEnd (r : Rope) (lineNum : Z) : result Z :=
  if (lineNum <? 0) || (lineNum >=? LineCount r)
  then Err (ErrOutOfBounds "LineEnd" lineNum 0 (LineCount r))
  else
    start <- LineStart r lineNum ;;
    lineEndLoop (Z.to_nat (rope.Length r - start)) r start.

Definition Line (r : Rope) (lineNum : Z) : result gostring :=
  let lineCount := LineCount r in
  if (lineNum <? 0) || (lineNum >=? lineCount)
  then Err (ErrOutOfBounds "Line" lineNum 0 lineCount)
  else
    start <- LineStart r lineNum ;;
    end_ <- LineEnd r lineNum ;;
    rope.Slice r start end_.

Record LinesIterator_ : Type := mkLinesIterator {
  it_rope : Rope;
  lineNum : Z;
  totalLines : Z
}.

Definition LinesIterator (r : Rope) : LinesIterator_ :=
  mkLinesIterator r 0 (LineCount r).

(** [Next] returns the iterator after the call and the boolean. *)
Definition Next (it : LinesIterator_) : LinesIterator_ * bool :=
  let it' := mkLinesIterator (it_rope it) (lineNum it + 1) (totalLines it) in
  (it', lineNum it' <? totalLines it').

Definition Current (it : LinesIterator_) : result gostring :=
  if (lineNum it <? 0) || (lineNum it >=? totalLines it)
  then Err (ErrOutOfBounds "LinesIterator.Current" (lineNum it) 0
                           (totalLines it))
  else Line (it_rope it) (lineNum it).

Definition LineNumber (it : LinesIterator_) : Z := lineNum it.

Definition Reset (it : LinesIterator_) : LinesIterator_ :=
  mkLinesIterator (it_rope it) (-1) (totalLines it).

(** [for it.Next() { yield (it.LineNumber(), it.Current()) }]: the lines
    a caller sees, in order.  [fuel] bounds the calls of [Next]; [None]
    is a loop still running when the fuel is spent. *)
Fixpoint drain (fuel : nat) (it : LinesIterator_)
  : option (list (Z * result gostring)) :=
  match fuel with
  | O => None
  | S fuel' =>
      let '(it', more) := Next it in
      if more then
        match drain fuel' it' with
        | Some tl => Some ((LineNumber it', Current it') :: tl)
        | None => None
        end
      else Some []
  end.

(** The loop of [ToSlice], which stops at the first error. *)
Fixpoint collect (yields : list (Z * result gostring))
  : result (list gostring) :=
  match yields with
  | [] => Ok []
  | (_, y) :: rest => line <- y ;; tl <- collect rest ;; Ok (line :: tl)
  end.

Definition ToSlice (fuel : nat) (it : LinesIterator_)
  : option (result (list gostring)) :=
  option_map collect (drain fuel (Reset it)).

(** The iterator loop of [LineAtChar]:
    [for i := 0; i <= pos && it.Next(); i++]. *)
Fixpoint lineAtCharLoop (runes : gostring) (i pos lineNum : Z) : Z :=
  match runes with
  | [] => lineNum
  | c :: rest =>
      if i <=? pos then
        lineAtCharLoop rest (i + 1) pos
                       (if c =? NEWLINE then lineNum + 1 else lineNum)
      else lineNum
  end.

Definition LineAtChar (r : Rope) (pos : Z) : result Z :=
  if (pos <? 0) || (pos >? rope.Length r)
  then Panic "character position out of bounds"
  else if pos =? 0 then Ok 0
  else Ok (lineAtCharLoop (rope.String r) 0 pos 0).

(** The chunk loop of [SliceOptimized]; [b] is the builder. *)
Fixpoint sliceChunks (chunks : list gostring)
    (charsToSkip charsToCollect : Z) (b : gostring) : gostring :=
  match chunks with
  | [] => b
  | chunk :: rest =>
      if charsToCollect >? 0 then
        let chunkRunes := chunk in
        if (charsToSkip >? 0) && (len_runes chunkRunes <=? charsToSkip) then
          sliceChunks rest (charsToSkip - len_runes chunkRunes)
                      charsToCollect b
        else
          let chunk' :=
            if charsToSkip >? 0
            then drop charsToSkip chunkRunes else chunk in
          let charsToSkip' := if charsToSkip >? 0 then 0 else charsToSkip in
          if len_runes chunkRunes <=? charsToCollect then
            sliceChunks rest charsToSkip'
                        (charsToCollect - len_runes chunkRunes) (b ++ chunk')
          else b ++ take charsToCollect chunkRunes
      else b
  end.

Definition SliceOptimized (r : Rope) (start end_ : Z) : result gostring :=
  if (start <? 0) || (end_ >? rope.Length r) || (start >? end_)
  then Panic "slice bounds out of range"
  else if start =? end_ then Ok []
  else Ok (sliceChunks (rope.Chunks r) start (end_ - start) []).

End line_ops.

(* ------------------------------------------------------------------ *)
(** ** Reference semantics of the change algebra

    What a list of operations means on the text still to be consumed,
    independently of ropes and cursors; the laws of the specification
    are stated against it. *)

Module reference.
Import changeset.

(** The text an operation list produces from [rest], the part of the
    original text at and after the cursor; text the operations do not
    reach is kept. *)
Fixpoint denote (ops : list Operation) (rest : gostring) : gostring :=
  match ops with
  | [] => rest
  | op :: ops' =>
      match opType op with
      | OpRetain => take (Length op) rest ++ denote ops' (drop (Length op) rest)
      | OpDelete => denote ops' (drop (Length op) rest)
      | OpInsert => Text op ++ denote ops' rest
      end
  end.

(** Units of the original text the operations retain or delete. *)
Fixpoint consumed (ops : list Operation) : Z :=
  match ops with
  | [] => 0
  | op :: ops' =>
      match opType op with
      | OpRetain | OpDelete => Length op + consumed ops'
      | OpInsert => consumed ops'
      end
  end.

Definition op_nonneg (op : Operation) : Prop :=
  match opType op with
  | OpRetain | OpDelete => 0 <= Length op
  | OpInsert => True
  end.

(** The data-model invariant of a ChangeSet: counts are not negative and
    the Retain and Delete lengths stay within [len_before].  They add up
    to [len_before] exactly when the trailing Retain is spelled out, and to
    less when it is left implicit, as the package's tests do. *)
Definition wf_changeset (cs : ChangeSet) : Prop :=
  Forall op_nonneg (operations cs) /\ consumed (operations cs) <= lenBefore cs.

(** Inversion in the words of the specification: "Retain(n) -> Retain(n);
    Insert(t) -> Delete(|t|); Delete(n) -> Insert(text_taken_from_rope)". *)
Fixpoint mirror (ops : list Operation) (rest : gostring) : list Operation :=
  match ops with
  | [] => []
  | op :: ops' =>
      match opType op with
      | OpRetain =>
          mkOp OpRetain (Length op) [] :: mirror ops' (drop (Length op) rest)
      | OpDelete =>
          mkOp OpInsert 0 (take (Length op) rest)
            :: mirror ops' (drop (Length op) rest)
      | OpInsert => mkOp OpDelete (len_runes (Text op)) [] :: mirror ops' rest
      end
  end.

(** An operation as the builder methods store it: only the field its
    kind reads is kept. *)
Definition stored (op : Operation) : Operation :=
  match opType op with
  | OpRetain => mkOp OpRetain (Length op) []
  | OpDelete => mkOp OpDelete (Length op) []
  | OpInsert => mkOp OpInsert 0 (Text op)
  end.

(** The Inserts at the head of an operation list, and what follows them. *)
Fixpoint leading_inserts (ops : list Operation) : list Operation :=
  match ops with
  | [] => []
  | op :: rest =>
      match opType op with
      | OpInsert => op :: leading_inserts rest
      | _ => []
      end
  end.

Fixpoint after_leading_inserts (ops : list Operation) : list Operation :=
  match ops with
  | [] => []
  | op :: rest =>
      match opType op with
      | OpInsert => after_leading_inserts rest
      | _ => ops
      end
  end.

(** A sequence of builder calls on a fresh ChangeSet. *)
Inductive call : Type :=
| CallRetain (n : Z)
| CallDelete (n : Z)
| CallInsert (t : gostring).

Definition run_call (cs : ChangeSet) (c : call) : ChangeSet :=
  match c with
  | CallRetain n => Retain cs n
  | CallDelete n => Delete cs n
  | CallInsert t => Insert cs t
  end.

Definition build (lenBefore : Z) (calls : list call) : ChangeSet :=
  fold_left run_call calls (NewChangeSet lenBefore).

Fixpoint deleted (calls : list call) : Z :=
  match calls with
  | [] => 0
  | CallDelete n :: rest => n + deleted rest
  | _ :: rest => deleted rest
  end.

Fixpoint inserted_runes (calls : list call) : Z :=
  match calls with
  | [] => 0
  | CallInsert t :: rest => len_runes t + inserted_runes rest
  | _ :: rest => inserted_runes rest
  end.

Fixpoint inserted_utf16 (calls : list call) : Z :=
  match calls with
  | [] => 0
  | CallInsert t :: rest => len_utf16 t + inserted_utf16 rest
  | _ :: rest => inserted_utf16 rest
  end.

(** A Go [int] on a 64-bit platform: the values it holds, and what an
    addition or subtraction leaves in it. *)
Definition fits_int64 (z : Z) : bool := (- 2 ^ 63 <=? z) && (z <? 2 ^ 63).

Definition wrap_int64 (z : Z) : Z := (z + 2 ^ 63) mod 2 ^ 64 - 2 ^ 63.

(** The builder calls as Go computes them: [cs.lenAfter -= n] and
    [cs.lenAfter += len([]rune(text))] wrap around. *)
Definition wrap_len_after (cs : ChangeSet) : ChangeSet :=
  mkChangeSet (operations cs) (lenBefore cs) (wrap_int64 (lenAfter cs)).

Definition run_call_int64 (cs : ChangeSet) (c : call) : ChangeSet :=
  match c with
  | CallRetain n => Retain cs n
  | CallDelete n => wrap_len_after (Delete cs n)
  | CallInsert t => wrap_len_after (Insert cs t)
  end.

Definition build_int64 (lenBefore : Z) (calls : list call) : ChangeSet :=
  fold_left run_call_int64 calls (NewChangeSet lenBefore).

(** Every count handed to the builder and every [len_after] on the way,
    starting from [la], is a value of a Go [int]. *)
Fixpoint calls_fit_from (la : Z) (calls : list call) : bool :=
  match calls with
  | [] => true
  | CallRetain n :: rest => fits_int64 n && calls_fit_from la rest
  | CallDelete n :: rest =>
      fits_int64 n && fits_int64 (la - n) && calls_fit_from (la - n) rest
  | CallInsert t :: rest =>
      fits_int64 (la + len_runes t) && calls_fit_from (la + len_runes t) rest
  end.

Definition calls_fit (lenBefore : Z) (calls : list call) : bool :=
  fits_int64 lenBefore && calls_fit_from lenBefore calls.

(** The line numbers [from, from+1, ..., to_-1]. *)
Definition line_numbers (from to_ : Z) : list Z :=
  map (fun k => from + Z.of_nat k) (seq 0 (Z.to_nat (to_ - from))).

End reference.

(* ------------------------------------------------------------------ *)
(** ** Scenario seeds: the concrete inputs of the tests and of the
    specification's scenarios *)

Module seeds.
Import changeset composition history.

Definition GRINNING_FACE : rune := 128512.

Definition three_lines : Rope :=
  New (lit "Line 1" ++ [NEWLINE] ++ lit "Line 2" ++ [NEWLINE] ++ lit "Line 3").

(** TestHash_Consistency_Small *)
Definition hello_w_orld : Rope := AppendRope (New (lit "Hello w")) (New (lit "orld")).
Definition hell_o_world : Rope := AppendRope (New (lit "Hell")) (New (lit "o world")).

(** Transform tie-break scenario *)
Definition insert_hello : ChangeSet := Insert (NewChangeSet 0) (lit "Hello").
Definition insert_world : ChangeSet := Insert (NewChangeSet 0) (lit "World").
Definition insert_world_after : ChangeSet := Insert (NewChangeSet 5) (lit "World").

(** TestCompose_InsertInsert *)
Definition doc_ab : Rope := New (lit "ab").
Definition retain1_insert_x : ChangeSet :=
  Insert (Retain (NewChangeSet (rope.Length doc_ab)) 1) (lit "x").
Definition retain2_insert_y : ChangeSet :=
  Insert (Retain (NewChangeSet (lenAfter retain1_insert_x)) 2) (lit "y").

(** TestInvert_Basic *)
Definition hello_world : Rope := New (lit "hello world").
Definition to_gophers : ChangeSet :=
  Insert (Delete (Retain (NewChangeSet (rope.Length hello_world)) 6) 5)
         (lit "gophers").

(** Multi-cursor mapping scenario *)
Definition retain6_insert_X : ChangeSet :=
  Insert (Retain (NewChangeSet (rope.Length three_lines)) 6) (lit "X").

(** An edit whose base length is not the length of the rope it meets. *)
Definition doc_abc : Rope := New (lit "abc").
Definition insert_X_base0 : ChangeSet := Insert (NewChangeSet 0) (lit "X").

(** A history with a branch: commit T1, commit T2, undo, commit T3;
    T2 and T3 are both children of T1's revision. *)
Definition T1 : Transaction := NewTransaction (Insert (NewChangeSet 0) (lit "a")) 1.
Definition T2 : Transaction :=
  NewTransaction (Insert (Retain (NewChangeSet 1) 1) (lit "b")) 2.
Definition T3 : Transaction :=
  NewTransaction (Insert (Retain (NewChangeSet 1) 1) (lit "c")) 3.

Definition branched : result History :=
  h1 <- CommitRevision NewHistory T1 (New []) 1 ;;
  h2 <- CommitRevision h1 T2 (New (lit "a")) 2 ;;
  u <- Undo h2 ;;
  CommitRevision (fst u) T3 (New (lit "a")) 3.

End seeds.

(* ------------------------------------------------------------------ *)
(** ** composition.go, continued: InvertAt, Optimized, Split, Merge *)

Module changeset_ops.
Import changeset.

(** The loop of [InvertAt]: like [Invert]'s, but a Retain only moves the
    cursor. *)
Fixpoint invertAtOps (ops : list Operation) (original : Rope)
    (inverted : ChangeSet) (currentPos : Z) : result ChangeSet :=
  match ops with
  | [] => Ok inverted
  | op :: rest =>
      match opType op with
      | OpRetain =>
          invertAtOps rest original inverted (currentPos + Length op)
      | OpDelete =>
          deletedText <-
            must (rope.Slice original currentPos (currentPos + Length op)) ;;
          invertAtOps rest original (Insert inverted deletedText)
                      (currentPos + Length op)
      | OpInsert =>
          invertAtOps rest original
                      (Delete inverted (len_runes (Text op))) currentPos
      end
  end.

Definition InvertAt (cs : ChangeSet) (original : Rope) (pos : Z)
  : result ChangeSet :=
  inverted <- invertAtOps (operations cs) original
                          (NewChangeSet (lenAfter cs)) pos ;;
  Ok (fuse inverted).

Definition CanApplyAt (cs : ChangeSet) (pos : Z) : bool :=
  (pos >=? 0) && (pos <=? lenBefore cs).

(** [Optimized]: a fresh ChangeSet on [cs.lenBefore] receives a copy of
    the operations and is fused. *)
Definition Optimized (cs : ChangeSet) : ChangeSet :=
  let optimized := NewChangeSet (lenBefore cs) in
  fuse (mkChangeSet (operations cs) (lenBefore optimized) (lenAfter optimized)).

(** The loop of [Split]; the state is the two halves and the cursor. *)
Fixpoint splitLoop (ops : list Operation) (pos : Z)
    (before after : ChangeSet) (currentPos : Z) : ChangeSet * ChangeSet :=
  match ops with
  | [] => (before, after)
  | op :: rest =>
      match opType op with
      | OpRetain =>
          if currentPos + Length op <=? pos then
            splitLoop rest pos (Retain before (Length op)) after
                      (currentPos + Length op)
          else if currentPos >=? pos then
            splitLoop rest pos before (Retain after (Length op)) currentPos
          else
            let beforeLen := pos - currentPos in
            let afterLen := Length op - beforeLen in
            splitLoop rest pos (Retain before beforeLen)
                      (Retain after afterLen) (currentPos + beforeLen)
      | OpDelete =>
          if currentPos + Length op <=? pos then
            splitLoop rest pos (Delete before (Length op)) after
                      (currentPos + Length op)
          else if currentPos >=? pos then
            splitLoop rest pos before (Delete after (Length op)) currentPos
          else
            let beforeLen := pos - currentPos in
            let afterLen := Length op - beforeLen in
            splitLoop rest pos (Delete before beforeLen)
                      (Delete after afterLen) (currentPos + beforeLen)
      | OpInsert =>
          if currentPos <? pos then
            splitLoop rest pos (Insert before (Text op)) after currentPos
          else
            splitLoop rest pos before (Insert after (Text op)) currentPos
      end
  end.

Definition Split (cs : ChangeSet) (pos : Z) : ChangeSet * ChangeSet :=
  if pos <=? 0 then (NewChangeSet (lenBefore cs), cs)
  else if pos >=? lenBefore cs then (cs, NewChangeSet (lenAfter cs))
  else splitLoop (operations cs) pos (NewChangeSet pos)
                 (NewChangeSet (lenBefore cs - pos)) 0.


End changeset_ops.

(* ------------------------------------------------------------------ *)
(** ** Measures of an operation list *)

Module measures.
Import changeset.

(** Units the operations delete, retain and insert (in chars). *)
Fixpoint deleted_of (ops : list Operation) : Z :=
  match ops with
  | [] => 0
  | op :: rest =>
      match opType op with
      | OpDelete => Length op + deleted_of rest
      | _ => deleted_of rest
      end
  end.

Fixpoint retained_of (ops : list Operation) : Z :=
  match ops with
  | [] => 0
  | op :: rest =>
      match opType op with
      | OpRetain => Length op + retained_of rest
      | _ => retained_of rest
      end
  end.

Fixpoint inserted_of (ops : list Operation) : Z :=
  match ops with
  | [] => 0
  | op :: rest =>
      match opType op with
      | OpInsert => len_runes (Text op) + inserted_of rest
      | _ => inserted_of rest
      end
  end.

(** The length bookkeeping of a ChangeSet agrees with its operations. *)
Definition accounted (cs : ChangeSet) : Prop :=
  lenAfter cs
  = lenBefore cs - deleted_of (operations cs) + inserted_of (operations cs).

(** No two neighbours of the list have the same kind. *)
Fixpoint alternating (ops : list Operation) : Prop :=
  match ops with
  | [] => True
  | op :: rest =>
      match rest with
      | [] => True
      | next :: _ => opType op <> opType next /\ alternating rest
      end
  end.

(** What an operation list adds to the cursor in the result. *)
Definition weight (ops : list Operation) : Z := retained_of ops + inserted_of ops.

Definition not_retain (op : Operation) : Prop := opType op <> OpRetain.

End measures.

(* ------------------------------------------------------------------ *)
(** ** history.go, continued: the queries and the path *)

Module history_queries.
Import changeset history.

Definition CanRedo (h : History) : result bool :=
  if current h =? -1 then Ok (len (revisions h) >? 0)
  else if current h >=? len (revisions h) then Ok false
  else
    cur <- index (revisions h) (current h) ;;
    Ok (lastChild cur >=? 0).

Definition CurrentIndex (h : History) : Z := current h.

Definition CurrentRevision (h : History) : option Revision :=
  if (current h <? 0) || (current h >=? len (revisions h)) then None
  else nth_error (revisions h) (Z.to_nat (current h)).

Definition RevisionCount (h : History) : Z := len (revisions h).

Definition GetRevision (h : History) (i : Z) : option Revision :=
  if (i <? 0) || (i >=? len (revisions h)) then None
  else nth_error (revisions h) (Z.to_nat i).

Definition AtRoot (h : History) : bool := current h <? 0.

Definition AtTip (h : History) : result bool :=
  if current h =? -1 then Ok (len (revisions h) =? 0)
  else if current h >=? len (revisions h) then Ok true
  else
    cur <- index (revisions h) (current h) ;;
    Ok (lastChild cur <? 0).

Definition Clear (h : History) : History := mkHistory [] (-1) (maxSize h).

Definition Earlier (h : History) (steps : Z)
  : result (History * option Transaction) :=
  if steps <=? 0 then Ok (h, None) else Undo h.

Definition Later (h : History) (steps : Z)
  : result (History * option Transaction) :=
  if steps <=? 0 then Ok (h, None) else Redo h.

(** The loop of [GetPath]: [for current >= 0 { path = append([]int{current},
    path...); current = h.revisions[current].parent }].  [fuel] bounds the
    iterations; [None] is a loop still running when the fuel is spent. *)
Fixpoint getPathLoop (fuel : nat) (revs : list Revision) (current : Z)
    (path : list Z) : option (result (list Z)) :=
  if current >=? 0 then
    match fuel with
    | O => None
    | S fuel' =>
        match index revs current with
        | Ok rev => getPathLoop fuel' revs (parent rev) (current :: path)
        | Err e => Some (Err e)
        | Panic m => Some (Panic m)
        end
    end
  else Some (Ok path).

Definition GetPath (fuel : nat) (h : History) : option (result (list Z)) :=
  if current h <? 0 then Some (Ok [])
  else getPathLoop fuel (revisions h) (current h) [].

Definition len_path (path : list Z) : Z := Z.of_nat (List.length path).

(** Every last-child index is below the number of revisions. *)
Definition children_in_range (h : History) : Prop :=
  Forall (fun rev => lastChild rev < len (revisions h)) (revisions h).

(** A history whose indices all point where they should: [current] is -1
    or a revision, every parent is -1 or an earlier revision, every last
    child is below the number of revisions. *)
Definition wf_history (h : History) : Prop :=
  -1 <= current h < len (revisions h) /\
  no_dangling_parent h = true /\
  children_in_range h.

(** [path] goes from a root to its last element by parent links, the
    element before the first being [prev]. *)
Fixpoint linked (revs : list Revision) (prev : Z) (path : list Z) : Prop :=
  match path with
  | [] => True
  | i :: rest =>
      0 <= i /\
      (exists rev, nth_error revs (Z.to_nat i) = Some rev /\ parent rev = prev) /\
      linked revs i rest
  end.

(** A history with one revision, at its root: commit [Insert "a"] on the
    empty document, then undo. *)
Definition undone_once : History :=
  match (h1 <- CommitRevision NewHistory
                 (NewTransaction (Insert (NewChangeSet 0) (text.lit "a")) 1)
                 (rope.New []) 1 ;;
         u <- Undo h1 ;; Ok (fst u)) with
  | Ok h => h
  | _ => NewHistory
  end.

(** The history of [seeds.branched]: three revisions with parents -1, 0
    and 0, the last one current. *)
Definition branched_history : History :=
  match seeds.branched with
  | Ok h => h
  | _ => NewHistory
  end.

(** [branched_history] after an Undo: revision 0 is current and its last
    child is revision 2. *)
Definition rewound_history : History :=
  match Undo branched_history with
  | Ok (h, _) => h
  | _ => NewHistory
  end.

(** Deletes the second char of a document of two chars. *)
Definition delete_second : Transaction :=
  NewTransaction (Delete (Retain (NewChangeSet 2) 1) 1) 4.

(** Two revisions in a row under a cap of two: the next commit prunes. *)
Definition capped_history : History :=
  match (h1 <- CommitRevision NewHistory seeds.T1 (rope.New []) 1 ;;
         CommitRevision h1 seeds.T2 (rope.New (text.lit "a")) 2) with
  | Ok h => SetMaxSize h 2
  | _ => NewHistory
  end.

End history_queries.

(* ------------------------------------------------------------------ *)
(** ** transaction_advanced.go: what moves the cursor of the mapper *)

Module mapper_measures.
Import changeset position_mapper.


(** An operation that leaves the cursor where it is. *)
Definition stays (op : Operation) : Prop :=
  opType op = OpInsert \/ Length op = 0.

(** The positions [MapPositions] hands to the mapper. *)
Definition positions_of (ps : list Z) (assoc : composition.Assoc)
  : list Position :=
  map (fun p => mkPosition p assoc 0) ps.

End mapper_measures.

(* ------------------------------------------------------------------ *)
(** ** line_ops.go, continued: columns, line editing, SplitLines *)

Module line_info.
Import rope line_ops.

(** [end, _ := r.LineEnd(lineNum)]: the error is dropped and [end] is
    then 0. *)
Definition lineEndOrZero (r : Rope) (lineNum : Z) : result Z :=
  match LineEnd r lineNum with
  | Ok e => Ok e
  | Err _ => Ok 0
  | Panic m => Panic m
  end.

Definition LineLength (r : Rope) (lineNum : Z) : result Z :=
  start <- LineStart r lineNum ;;
  end_ <- lineEndOrZero r lineNum ;;
  Ok (end_ - start).

Definition LineWithEnding (r : Rope) (lineNum : Z) : result gostring :=
  let lineCount := LineCount r in
  if (lineNum <? 0) || (lineNum >=? lineCount)
  then Err (ErrOutOfBounds "LineWithEnding" lineNum 0 lineCount)
  else
    start <- LineStart r lineNum ;;
    len <- LineLength r lineNum ;;
    Slice r start (start + len).

Definition LineWithEndingLength (r : Rope) (lineNum : Z) : result Z :=
  if (lineNum <? 0) || (lineNum >=? LineCount r)
  then Err (ErrOutOfBounds "LineWithEndingLength" lineNum 0 (LineCount r))
  else
    start <- LineStart r lineNum ;;
    len <- LineLength r lineNum ;;
    let end_ := start + len in
    if end_ <? Length r then
      ch <- CharAt r end_ ;;
      if ch =? NEWLINE then Ok (end_ - start + 1) else Ok (end_ - start)
    else Ok (end_ - start).

Definition AppendLine (r : Rope) (t : gostring) : result Rope :=
  if Length r =? 0 then Insert r 0 t
  else Insert r (Length r) (NEWLINE :: t).

Definition PrependLine (r : Rope) (t : gostring) : result Rope :=
  if Length r =? 0 then Insert r 0 t
  else Insert r 0 (t ++ [NEWLINE]).

Definition ColumnAtChar (r : Rope) (pos : Z) : result Z :=
  if (pos <? 0) || (pos >? Length r)
  then Panic "character position out of bounds"
  else
    line <- LineAtChar r pos ;;
    lineStart <- LineStart r line ;;
    Ok (pos - lineStart).

Definition PositionAtLineCol (r : Rope) (lineNum colNum : Z) : result Z :=
  lineStart <- LineStart r lineNum ;;
  lineEnd <- lineEndOrZero r lineNum ;;
  if (colNum <? 0) || (colNum >? lineEnd - lineStart)
  then Panic "column number out of bounds"
  else Ok (lineStart + colNum).

Definition DeleteLine (r : Rope) (lineNum : Z) : result Rope :=
  if (lineNum <? 0) || (lineNum >=? LineCount r)
  then Err (ErrOutOfBounds "DeleteLine" lineNum 0 (LineCount r))
  else
    start <- LineStart r lineNum ;;
    end_ <- LineEnd r lineNum ;;
    end' <- (if end_ <? Length r then
               ch <- CharAt r end_ ;;
               Ok (if ch =? NEWLINE then end_ + 1 else end_)
             else Ok end_) ;;
    Delete r start end'.

Definition HasTrailingNewline (r : Rope) : result bool :=
  if Length r =? 0 then Ok false
  else
    ch <- CharAt r (Length r - 1) ;;
    Ok (ch =? NEWLINE).

Definition SplitLines (fuel : nat) (r : Rope)
  : option (result (list gostring)) :=
  ToSlice fuel (LinesIterator r).

(** [l] is line [n] of the text [s]: [pre] holds the [n] lines before it
    with their newlines, and [post] is empty or starts with the newline
    that ends [l]. *)
Definition is_line (s : gostring) (n : Z) (pre l post : gostring) : Prop :=
  s = pre ++ l ++ post /\
  count_newlines pre = n /\
  (pre = [] \/ ends_with_newline pre = true) /\
  count_newlines l = 0 /\
  (post = [] \/ exists post', post = NEWLINE :: post') /\
  (l <> [] \/ post <> []).

(** The lines, each followed by a newline. *)
Definition unlines (lines : list gostring) : gostring :=
  List.concat (map (fun l => l ++ [NEWLINE]) lines).

(** The text with a newline added at the end when it is not empty and
    has none there. *)
Definition terminated (s : gostring) : gostring :=
  match s with
  | [] => []
  | _ :: _ => if ends_with_newline s then s else s ++ [NEWLINE]
  end.

End line_info.

(* ------------------------------------------------------------------ *)
(** ** string_optimized.go and rope_split.go *)

Module string_optimized.
Import rope.


(** [Clone] of an immutable rope is the rope. *)
Definition SplitOff (r : Rope) (pos : Z) : result (Rope * Rope) :=
  if pos <=? 0 then Ok (Empty, r)
  else if pos >=? Length r then Ok (r, Empty)
  else Split r pos.


End string_optimized.

(* ------------------------------------------------------------------ *)
(** ** The zero-allocation operations and append_optimized.go *)

Module zero_alloc.

(** The [Rope] struct as these files build it: [&Rope{root, length,
    size}].  [r.Length()] and [r.Size()] read the two cached fields.  The
    [length] and [size] an [InternalNode] caches are those of its left
    subtree; every node built here sets them from [left.Length()] and
    [left.Size()], and [rope.Length] of the left subtree stands for
    [internal.length]. *)
Record Rope : Type := mkRope {
  root : rope.RopeNode;
  length : Z;
  size : Z
}.

(** [len(text)]: the bytes of the string. *)
Definition len_bytes (s : gostring) : Z :=
  Z.of_nat (List.length (utf8_bytes s)).

(** Modelled from the spec: [New(text)], a rope of one leaf. *)
Definition New (t : gostring) : Rope :=
  mkRope (rope.LeafNode t) (len_runes t) (len_bytes t).

(** The cached fields agree with the tree. *)
Definition consistent (r : Rope) : Prop :=
  length r = rope.Length (root r) /\ size r = rope.Size (root r).

Definition AppendOptimized (r : Rope) (t : gostring) : Rope :=
  match t with
  | [] => r
  | _ :: _ =>
      if length r =? 0 then New t
      else
        let textRope := New t in
        mkRope (rope.InternalNode (root r) (root textRope))
               (length r + len_runes t) (size r + len_bytes t)
  end.

Definition PrependOptimized (r : Rope) (t : gostring) : Rope :=
  match t with
  | [] => r
  | _ :: _ =>
      if length r =? 0 then New t
      else
        let textRope := New t in
        mkRope (rope.InternalNode (root textRope) (root r))
               (length r + len_runes t) (size r + len_bytes t)
  end.

Definition AppendZeroAlloc (r : Rope) (t : gostring) : Rope :=
  match t with
  | [] => r
  | _ :: _ =>
      if length r =? 0 then New t
      else
        let textRope := New t in
        let newNode := rope.InternalNode (root r) (root textRope) in
        mkRope newNode (length r + len_runes t) (size r + len_bytes t)
  end.

Definition PrependZeroAlloc (r : Rope) (t : gostring) : Rope :=
  match t with
  | [] => r
  | _ :: _ =>
      if length r =? 0 then New t
      else
        let textRope := New t in
        let newNode := rope.InternalNode (root textRope) (root r) in
        mkRope newNode (length r + len_runes t) (size r + len_bytes t)
  end.

(** In a leaf the loop decodes [pos] runes to find the byte position and
    the three [copy] calls splice the bytes: on the runes,
    [old[:pos] + text + old[pos:]]. *)
Fixpoint insertNodeZeroAlloc (node : rope.RopeNode) (pos : Z)
    (t : gostring) : rope.RopeNode :=
  match node with
  | rope.LeafNode oldText =>
      rope.LeafNode (take pos oldText ++ t ++ drop pos oldText)
  | rope.InternalNode lft rgt =>
      let leftLen := rope.Length lft in
      if pos <=? leftLen then
        rope.InternalNode (insertNodeZeroAlloc lft pos t) rgt
      else
        rope.InternalNode lft (insertNodeZeroAlloc rgt (pos - leftLen) t)
  end.

Definition InsertZeroAlloc (r : Rope) (pos : Z) (t : gostring)
  : result Rope :=
  if (pos <? 0) || (pos >? length r)
  then Panic "insert position out of range"
  else
    match t with
    | [] => Ok r
    | _ :: _ =>
        if pos =? 0 then Ok (PrependZeroAlloc r t)
        else if pos =? length r then Ok (AppendZeroAlloc r t)
        else
          let newRoot := insertNodeZeroAlloc (root r) pos t in
          Ok (mkRope newRoot (length r + len_runes t) (size r + len_bytes t))
    end.

(** A node that may be nil is an [option]; [None] is nil. *)
Fixpoint extractSuffixZeroAlloc (node : rope.RopeNode) (start : Z)
  : option rope.RopeNode :=
  match node with
  | rope.LeafNode oldText =>
      if start =? 0 then Some node
      else if start >=? len_runes oldText then None
      else Some (rope.LeafNode (drop start oldText))
  | rope.InternalNode lft rgt =>
      let leftLen := rope.Length lft in
      if start <? leftLen then
        match extractSuffixZeroAlloc lft start with
        | None => Some rgt
        | Some newLeft => Some (rope.InternalNode newLeft rgt)
        end
      else extractSuffixZeroAlloc rgt (start - leftLen)
  end.

Fixpoint extractPrefixZeroAlloc (node : rope.RopeNode) (end_ : Z)
  : option rope.RopeNode :=
  match node with
  | rope.LeafNode oldText =>
      if end_ >=? len_runes oldText then Some node
      else if end_ =? 0 then None
      else Some (rope.LeafNode (take end_ oldText))
  | rope.InternalNode lft rgt =>
      let leftLen := rope.Length lft in
      if end_ <=? leftLen then extractPrefixZeroAlloc lft end_
      else
        match extractPrefixZeroAlloc rgt (end_ - leftLen) with
        | None => Some lft
        | Some newRight => Some (rope.InternalNode lft newRight)
        end
  end.

Definition deleteMergeZeroAlloc (lft : rope.RopeNode) (leftStart : Z)
    (rgt : rope.RopeNode) (rightEnd : Z) : option rope.RopeNode :=
  let leftPart := extractSuffixZeroAlloc lft leftStart in
  let rightPart := extractPrefixZeroAlloc rgt rightEnd in
  match leftPart with
  | None => rightPart
  | Some lp =>
      if rope.Length lp =? 0 then rightPart
      else
        match rightPart with
        | None => leftPart
        | Some rp =>
            if rope.Length rp =? 0 then leftPart
            else Some (rope.InternalNode lp rp)
        end
  end.

(** In a leaf the first loop decodes [start] runes from the beginning
    and the second [end - start] runes from there; the bytes between the
    two positions are left out. *)
Fixpoint deleteNodeZeroAlloc (node : rope.RopeNode) (start end_ : Z)
  : result (option rope.RopeNode) :=
  match node with
  | rope.LeafNode oldText =>
      let startRune := Z.max 0 start in
      let endRune := startRune + Z.max 0 (end_ - start) in
      Ok (Some (rope.LeafNode (take startRune oldText
                               ++ drop endRune oldText)))
  | rope.InternalNode lft rgt =>
      let leftLen := rope.Length lft in
      if end_ <=? leftLen then
        newLeft <- deleteNodeZeroAlloc lft start end_ ;;
        match newLeft with
        | None => Panic "nil pointer dereference"
        | Some newLeft =>
            if rope.Length newLeft =? 0 then Ok (Some rgt)
            else Ok (Some (rope.InternalNode newLeft rgt))
        end
      else if start >=? leftLen then
        newRight <- deleteNodeZeroAlloc rgt (start - leftLen)
                                        (end_ - leftLen) ;;
        match newRight with
        | None => Panic "nil pointer dereference"
        | Some newRight =>
            if rope.Length newRight =? 0 then Ok (Some lft)
            else Ok (Some (rope.InternalNode lft newRight))
        end
      else Ok (deleteMergeZeroAlloc lft start rgt (end_ - leftLen))
  end.

(** What [DeleteZeroAlloc] returns: the fields of the new [Rope], whose
    root may be nil. *)
Record Deleted : Type := mkDeleted {
  newRoot : option rope.RopeNode;
  newLength : Z;
  newSize : Z
}.

(** [r.Slice(start, end)] is the call of the API that returned a string
    only. *)
Definition DeleteZeroAlloc (r : Rope) (start end_ : Z) : result Deleted :=
  if (start <? 0) || (end_ >? length r) || (start >? end_)
  then Panic "delete range out of bounds"
  else if start =? end_
  then Ok (mkDeleted (Some (root r)) (length r) (size r))
  else
    deletedText <- must (rope.Slice (root r) start end_) ;;
    let deletedLen := len_runes deletedText in
    let deletedSize := len_bytes deletedText in
    newRoot <- deleteNodeZeroAlloc (root r) start end_ ;;
    Ok (mkDeleted newRoot (length r - deletedLen) (size r - deletedSize)).

(** The range stays inside one leaf: at every node on the way it lies in
    the left or in the right subtree. *)
Fixpoint inside_one_leaf (node : rope.RopeNode) (start end_ : Z) : Prop :=
  match node with
  | rope.LeafNode _ => True
  | rope.InternalNode lft rgt =>
      (end_ <= rope.Length lft /\ inside_one_leaf lft start end_) \/
      (rope.Length lft <= start /\
       inside_one_leaf rgt (start - rope.Length lft)
                       (end_ - rope.Length lft))
  end.

End zero_alloc.

(* ================================================================== *)
(** * Properties *)

Import changeset composition reference.

(* ------------------------------------------------------------------ *)
(** ** Slices of rune sequences *)

Section RuneSlices.

Lemma len_runes_nonneg (s : gostring) : 0 <= len_runes s.
Proof. unfold len_runes. lia. Qed.

Lemma len_runes_app (a b : gostring) :
  len_runes (a ++ b) = len_runes a + len_runes b.
Proof. unfold len_runes. rewrite length_app. lia. Qed.

Lemma len_runes_nil_inv (s : gostring) : len_runes s = 0 -> s = [].
Proof. destruct s; [reflexivity | unfold len_runes; simpl; lia]. Qed.

Lemma take_drop (n : Z) (s : gostring) : take n s ++ drop n s = s.
Proof. apply firstn_skipn. Qed.

Lemma take_0 (s : gostring) : take 0 s = [].
Proof. reflexivity. Qed.

Lemma drop_0 (s : gostring) : drop 0 s = s.
Proof. reflexivity. Qed.

Lemma len_take (n : Z) (s : gostring) :
  0 <= n <= len_runes s -> len_runes (take n s) = n.
Proof.
  unfold len_runes, take. intros H. rewrite length_firstn. lia.
Qed.

Lemma len_drop (n : Z) (s : gostring) :
  0 <= n <= len_runes s -> len_runes (drop n s) = len_runes s - n.
Proof.
  unfold len_runes, drop. intros H. rewrite length_skipn. lia.
Qed.

Lemma take_app_exact (n : Z) (a b : gostring) :
  len_runes a = n -> take n (a ++ b) = a.
Proof.
  unfold len_runes, take. intros <-. rewrite Nat2Z.id.
  rewrite firstn_app, Nat.sub_diag, firstn_all. simpl. apply app_nil_r.
Qed.

Lemma drop_app_exact (n : Z) (a b : gostring) :
  len_runes a = n -> drop n (a ++ b) = b.
Proof.
  unfold len_runes, drop. intros <-. rewrite Nat2Z.id.
  rewrite skipn_app, Nat.sub_diag, skipn_all. reflexivity.
Qed.

Lemma take_add (a b : Z) (s : gostring) :
  0 <= a -> 0 <= b -> take (a + b) s = take a s ++ take b (drop a s).
Proof.
  unfold take, drop. intros Ha Hb. rewrite Z2Nat.inj_add by lia.
  generalize (Z.to_nat a) (Z.to_nat b). clear. intros n m. revert s.
  induction n as [|n IH]; intros s; [reflexivity|].
  destruct s as [|c s]; simpl.
  - now rewrite firstn_nil.
  - now rewrite IH.
Qed.

Lemma drop_add (a b : Z) (s : gostring) :
  0 <= a -> 0 <= b -> drop (a + b) s = drop b (drop a s).
Proof.
  unfold drop. intros Ha Hb. rewrite Z2Nat.inj_add by lia.
  rewrite Nat.add_comm. symmetry. apply skipn_skipn.
Qed.

Lemma take_app_le (n : Z) (a b : gostring) :
  n <= len_runes a -> take n (a ++ b) = take n a.
Proof.
  unfold len_runes, take. intros H. rewrite firstn_app.
  replace (Z.to_nat n - List.length a)%nat with 0%nat by lia.
  simpl. apply app_nil_r.
Qed.

Lemma drop_app_le (n : Z) (a b : gostring) :
  n <= len_runes a -> drop n (a ++ b) = drop n a ++ b.
Proof.
  unfold len_runes, drop. intros H. rewrite skipn_app.
  replace (Z.to_nat n - List.length a)%nat with 0%nat by lia.
  reflexivity.
Qed.

Lemma take_app_ge (n : Z) (a b : gostring) :
  len_runes a <= n -> take n (a ++ b) = a ++ take (n - len_runes a) b.
Proof.
  unfold len_runes, take. intros H. rewrite firstn_app.
  rewrite firstn_all2 by lia. f_equal. f_equal. lia.
Qed.

Lemma drop_app_ge (n : Z) (a b : gostring) :
  len_runes a <= n -> drop n (a ++ b) = drop (n - len_runes a) b.
Proof.
  unfold len_runes, drop. intros H. rewrite skipn_app.
  rewrite skipn_all2 by lia. simpl. f_equal. lia.
Qed.

End RuneSlices.

(* ------------------------------------------------------------------ *)
(** ** The rope primitives, on the text they hold *)

Section RopeText.

Lemma Length_nonneg (r : Rope) : 0 <= rope.Length r.
Proof. apply len_runes_nonneg. Qed.

Lemma String_AppendRope (a b : Rope) :
  rope.String (AppendRope a b) = rope.String a ++ rope.String b.
Proof.
  unfold AppendRope.
  destruct (rope.Length b =? 0) eqn:Hb.
  - apply Z.eqb_eq, len_runes_nil_inv in Hb. rewrite Hb. now rewrite app_nil_r.
  - destruct (rope.Length a =? 0) eqn:Ha; [|reflexivity].
    apply Z.eqb_eq, len_runes_nil_inv in Ha. now rewrite Ha.
Qed.

Lemma splitNode_String (n : RopeNode) :
  forall pos, 0 <= pos <= rope.Length n ->
    rope.String (fst (splitNode n pos)) = take pos (rope.String n) /\
    rope.String (snd (splitNode n pos)) = drop pos (rope.String n).
Proof.
  induction n as [t | l IHl r IHr]; intros pos Hpos; simpl.
  - split; reflexivity.
  - unfold rope.Length in *. simpl in Hpos. rewrite len_runes_app in Hpos.
    destruct (pos <=? len_runes (rope.String l)) eqn:Hle.
    + apply Z.leb_le in Hle.
      destruct (IHl pos) as [H1 H2]; [lia|].
      destruct (splitNode l pos) as [a b]. simpl in *.
      rewrite take_app_le, drop_app_le by lia. now rewrite H1, H2.
    + apply Z.leb_gt in Hle.
      destruct (IHr (pos - len_runes (rope.String l))) as [H1 H2]; [lia|].
      destruct (splitNode r (pos - len_runes (rope.String l))) as [a b].
      simpl in *.
      rewrite take_app_ge, drop_app_ge by lia. now rewrite H1, H2.
Qed.

Lemma Insert_String (r : Rope) (pos : Z) (t : gostring) :
  0 <= pos <= rope.Length r ->
  exists r', rope.Insert r pos t = Ok r' /\
    rope.String r' = take pos (rope.String r) ++ t ++ drop pos (rope.String r).
Proof.
  intros Hpos. unfold rope.Insert, errInsertOutOfBounds.
  replace ((pos <? 0) || (pos >? rope.Length r)) with false by lia.
  destruct (splitNode_String r pos Hpos) as [H1 H2].
  destruct (splitNode r pos) as [a b]. simpl in *.
  eexists. split; [reflexivity|].
  rewrite !String_AppendRope. simpl. rewrite H1, H2. now rewrite <- app_assoc.
Qed.

Lemma Delete_String (r : Rope) (start end_ : Z) :
  0 <= start -> start <= end_ -> end_ <= rope.Length r ->
  exists r', rope.Delete r start end_ = Ok r' /\
    rope.String r' = take start (rope.String r) ++ drop end_ (rope.String r).
Proof.
  intros H0 H1 H2. unfold rope.Delete, errDeleteOutOfBounds.
  replace ((start <? 0) || (end_ >? rope.Length r) || (start >? end_))
    with false by lia.
  destruct (splitNode_String r start) as [Ha _]; [lia|].
  destruct (splitNode_String r end_) as [_ Hb]; [lia|].
  destruct (splitNode r start) as [a a'].
  destruct (splitNode r end_) as [b' b]. simpl in *.
  eexists. split; [reflexivity|].
  rewrite String_AppendRope. now rewrite Ha, Hb.
Qed.

Lemma Slice_String (r : Rope) (start end_ : Z) :
  0 <= start -> start <= end_ -> end_ <= rope.Length r ->
  rope.Slice r start end_ = Ok (sub (rope.String r) start end_).
Proof.
  intros H0 H1 H2. unfold rope.Slice, errSliceOutOfBounds.
  replace (start >? end_) with false by lia.
  replace (end_ >? rope.Length r) with false by lia.
  replace (start <? 0) with false by lia. reflexivity.
Qed.

Lemma IterBytes_String (r : Rope) : IterBytes r = utf8_bytes (rope.String r).
Proof.
  induction r as [t | l IHl rr IHr]; simpl; [reflexivity|].
  unfold utf8_bytes in *. now rewrite flat_map_app, IHl, IHr.
Qed.

End RopeText.

(* ------------------------------------------------------------------ *)
(** ** fuse keeps the meaning of an operation list *)

Section Fuse.

Lemma OpType_eqb_eq (a b : OpType) : OpType_eqb a b = true -> a = b.
Proof. destruct a, b; simpl; congruence. Qed.

Lemma denote_app_congr (xs ys ys' : list Operation) :
  (forall rest, denote ys rest = denote ys' rest) ->
  forall rest, denote (xs ++ ys) rest = denote (xs ++ ys') rest.
Proof.
  intros H. induction xs as [|x xs IH]; intros rest; simpl; [apply H|].
  destruct (opType x); now rewrite IH.
Qed.

Lemma consumed_app (xs ys : list Operation) :
  consumed (xs ++ ys) = consumed xs + consumed ys.
Proof.
  induction xs as [|x xs IH]; simpl; [reflexivity|].
  destruct (opType x); lia.
Qed.

Lemma merge_nonneg (prev op : Operation) :
  opType prev = opType op -> op_nonneg prev -> op_nonneg op ->
  op_nonneg (merge prev op).
Proof.
  unfold op_nonneg, merge. intros E Hp Ho.
  destruct (opType op) eqn:Eo; simpl; rewrite E in *; simpl in *; lia.
Qed.

Lemma merge_consumed (prev op : Operation) (ops : list Operation) :
  opType prev = opType op ->
  consumed (merge prev op :: ops) = consumed (prev :: op :: ops).
Proof.
  unfold merge. intros E. simpl.
  destruct (opType op) eqn:Eo; simpl; rewrite E, ?Eo; simpl; lia.
Qed.

Lemma merge_denote (prev op : Operation) (ops : list Operation) :
  opType prev = opType op -> op_nonneg prev -> op_nonneg op ->
  forall rest,
    denote (merge prev op :: ops) rest = denote (prev :: op :: ops) rest.
Proof.
  unfold op_nonneg, merge. intros E Hp Ho rest. simpl.
  destruct (opType op) eqn:Eo; simpl; rewrite E in *; simpl in *.
  - rewrite take_add, drop_add by assumption. now rewrite <- app_assoc.
  - now rewrite drop_add by assumption.
  - now rewrite <- app_assoc.
Qed.

Lemma fuse_step_nonneg (fused : list Operation) (op : Operation) :
  Forall op_nonneg fused -> op_nonneg op ->
  Forall op_nonneg (fuse_step fused op).
Proof.
  intros Hf Ho. unfold fuse_step. destruct fused as [|prev before].
  - now constructor.
  - inversion Hf; subst.
    destruct (OpType_eqb (opType prev) (opType op)) eqn:E.
    + constructor; [|assumption].
      apply merge_nonneg; auto using OpType_eqb_eq.
    + now constructor.
Qed.

Lemma fuse_fold_nonneg (ops fused : list Operation) :
  Forall op_nonneg fused -> Forall op_nonneg ops ->
  Forall op_nonneg (fold_left fuse_step ops fused).
Proof.
  revert fused. induction ops as [|op ops IH]; intros fused Hf Ho; simpl.
  - assumption.
  - inversion Ho; subst. apply IH; [apply fuse_step_nonneg|]; assumption.
Qed.

Lemma fuse_step_denote (fused : list Operation) (op : Operation)
    (ops : list Operation) :
  Forall op_nonneg fused -> op_nonneg op ->
  forall rest,
    denote (rev (fuse_step fused op) ++ ops) rest
    = denote (rev fused ++ op :: ops) rest.
Proof.
  intros Hf Ho. unfold fuse_step. destruct fused as [|prev before].
  - reflexivity.
  - inversion Hf; subst.
    destruct (OpType_eqb (opType prev) (opType op)) eqn:E.
    + simpl. rewrite <- !app_assoc. apply denote_app_congr. simpl app.
      apply merge_denote; auto using OpType_eqb_eq.
    + intros rest. simpl. now rewrite <- !app_assoc.
Qed.

Lemma fuse_step_consumed (fused : list Operation) (op : Operation)
    (ops : list Operation) :
  consumed (rev (fuse_step fused op) ++ ops)
  = consumed (rev fused ++ op :: ops).
Proof.
  unfold fuse_step. destruct fused as [|prev before]; [reflexivity|].
  destruct (OpType_eqb (opType prev) (opType op)) eqn:E.
  - simpl. rewrite <- !app_assoc, !(consumed_app (rev before)). f_equal.
    simpl app. apply merge_consumed. now apply OpType_eqb_eq.
  - simpl. now rewrite <- !app_assoc.
Qed.

Lemma fuse_fold_denote (ops fused : list Operation) :
  Forall op_nonneg fused -> Forall op_nonneg ops ->
  forall rest,
    denote (rev (fold_left fuse_step ops fused)) rest
    = denote (rev fused ++ ops) rest.
Proof.
  revert fused. induction ops as [|op ops IH]; intros fused Hf Ho rest; simpl.
  - now rewrite app_nil_r.
  - inversion Ho; subst.
    rewrite IH by (try apply fuse_step_nonneg; assumption).
    now apply fuse_step_denote.
Qed.

Lemma fuse_fold_consumed (ops fused : list Operation) :
  consumed (rev (fold_left fuse_step ops fused)) = consumed (rev fused ++ ops).
Proof.
  revert fused. induction ops as [|op ops IH]; intros fused; simpl.
  - now rewrite app_nil_r.
  - rewrite IH. apply fuse_step_consumed.
Qed.

Lemma fuse_ops_nonneg (ops : list Operation) :
  Forall op_nonneg ops -> Forall op_nonneg (fuse_ops ops).
Proof.
  intros H. unfold fuse_ops. destruct (List.length ops <=? 1)%nat; [assumption|].
  apply Forall_rev. apply fuse_fold_nonneg; [constructor | assumption].
Qed.

Lemma fuse_ops_denote (ops : list Operation) :
  Forall op_nonneg ops ->
  forall rest, denote (fuse_ops ops) rest = denote ops rest.
Proof.
  intros H rest. unfold fuse_ops.
  destruct (List.length ops <=? 1)%nat; [reflexivity|].
  rewrite fuse_fold_denote by (try constructor; assumption). reflexivity.
Qed.

Lemma fuse_ops_consumed (ops : list Operation) :
  consumed (fuse_ops ops) = consumed ops.
Proof.
  unfold fuse_ops. destruct (List.length ops <=? 1)%nat; [reflexivity|].
  now rewrite fuse_fold_consumed.
Qed.

End Fuse.

(* ------------------------------------------------------------------ *)
(** ** Apply computes the reference semantics *)

Section ApplyDenote.

Lemma must_Ok {A} (x : result A) (a : A) : x = Ok a -> must x = Ok a.
Proof. now intros ->. Qed.

Lemma applyOps_denote (ops : list Operation) :
  forall (r : Rope) (pos : Z),
    Forall op_nonneg ops -> 0 <= pos -> pos + consumed ops <= rope.Length r ->
    exists r', applyOps ops r pos = Ok r' /\
      rope.String r'
      = take pos (rope.String r) ++ denote ops (drop pos (rope.String r)).
Proof.
  induction ops as [|op ops IH]; intros r pos Hwf Hpos Hlen.
  - exists r. split; [reflexivity|]. simpl. now rewrite take_drop.
  - inversion Hwf as [|? ? Hop Hops]; subst. unfold op_nonneg in Hop.
    assert (Hc : 0 <= consumed ops).
    { clear -Hops. induction Hops as [|x l Hx _ IHl]; simpl; [lia|].
      unfold op_nonneg in Hx. destruct (opType x); lia. }
    simpl in *. destruct (opType op) eqn:E.
    + (* Retain *)
      destruct (IH r (pos + Length op)) as [r' [Hr' Hs]]; try assumption; try lia.
      exists r'. split; [assumption|]. rewrite Hs.
      rewrite take_add, drop_add by lia. now rewrite <- app_assoc.
    + (* Delete *)
      destruct (Delete_String r pos (pos + Length op)) as [r1 [Hd Hs1]]; try lia.
      assert (Hl1 : rope.Length r1 = rope.Length r - Length op).
      { unfold rope.Length. rewrite Hs1, len_runes_app.
        rewrite len_take, len_drop by (fold (rope.Length r); lia). lia. }
      destruct (IH r1 pos) as [r' [Hr' Hs]]; try assumption; try lia.
      exists r'. split.
      * rewrite (must_Ok _ _ Hd). simpl. assumption.
      * rewrite Hs, Hs1.
        rewrite take_app_exact, drop_app_exact
          by (apply len_take; fold (rope.Length r); lia).
        now rewrite drop_add by lia.
    + (* Insert *)
      destruct (Insert_String r pos (Text op)) as [r1 [Hi Hs1]]; try lia.
      assert (Hl1 : rope.Length r1 = rope.Length r + len_runes (Text op)).
      { unfold rope.Length. rewrite Hs1, !len_runes_app.
        rewrite len_take, len_drop by (fold (rope.Length r); lia). lia. }
      pose proof (len_runes_nonneg (Text op)).
      destruct (IH r1 (pos + len_runes (Text op))) as [r' [Hr' Hs]];
        try assumption; try lia.
      exists r'. split.
      * rewrite (must_Ok _ _ Hi). simpl. assumption.
      * rewrite Hs, Hs1.
        rewrite app_assoc.
        rewrite take_app_exact, drop_app_exact
          by (rewrite len_runes_app, len_take by (fold (rope.Length r); lia); lia).
        now rewrite <- app_assoc.
Qed.

Lemma consumed_nonneg (ops : list Operation) :
  Forall op_nonneg ops -> 0 <= consumed ops.
Proof.
  induction 1 as [|x l Hx _ IHl]; simpl; [lia|].
  unfold op_nonneg in Hx. destruct (opType x); lia.
Qed.

Lemma Apply_denote (cs : ChangeSet) (r : Rope) :
  Forall op_nonneg (operations cs) ->
  consumed (operations cs) <= rope.Length r ->
  exists r', snd (Apply cs r) = Ok r' /\
    rope.String r' = denote (operations cs) (rope.String r).
Proof.
  intros Hwf Hlen. unfold Apply. destruct (IsEmpty cs) eqn:E.
  - exists r. split; [reflexivity|]. unfold IsEmpty in E.
    destruct (operations cs); [reflexivity | discriminate].
  - simpl.
    destruct (applyOps_denote (fuse_ops (operations cs)) r 0)
      as [r' [Hr' Hs]].
    + now apply fuse_ops_nonneg.
    + lia.
    + rewrite fuse_ops_consumed. lia.
    + exists r'. split; [assumption|].
      rewrite Hs, take_0, drop_0. simpl. now apply fuse_ops_denote.
Qed.

End ApplyDenote.

(* ------------------------------------------------------------------ *)
(** ** Invert mirrors the operations and undoes them *)

Section InvertMirror.

Lemma mirror_nonneg (ops : list Operation) :
  forall rest, Forall op_nonneg ops -> Forall op_nonneg (mirror ops rest).
Proof.
  induction ops as [|op ops IH]; intros rest Hwf; simpl; [constructor|].
  inversion Hwf as [|? ? Hop Hops]; subst. unfold op_nonneg in Hop.
  destruct (opType op) eqn:E; constructor; try (now apply IH);
    unfold op_nonneg; simpl; try lia; try exact I.
  apply len_runes_nonneg.
Qed.

(** The inverse consumes exactly what the change produced from the text
    it reached. *)
Lemma mirror_consumed (ops : list Operation) :
  forall rest,
    Forall op_nonneg ops -> consumed ops <= len_runes rest ->
    len_runes (denote ops rest)
    = consumed (mirror ops rest) + (len_runes rest - consumed ops).
Proof.
  induction ops as [|op ops IH]; intros rest Hwf Hlen; simpl in *; [lia|].
  inversion Hwf as [|? ? Hop Hops]; subst. unfold op_nonneg in Hop.
  pose proof (consumed_nonneg ops Hops) as Hc.
  destruct (opType op) eqn:E; simpl.
  - rewrite len_runes_app, len_take by lia.
    rewrite IH; try assumption; rewrite len_drop by lia; lia.
  - rewrite IH; try assumption; rewrite len_drop by lia; lia.
  - rewrite len_runes_app, IH by assumption. lia.
Qed.

Lemma denote_mirror (ops : list Operation) :
  forall rest,
    Forall op_nonneg ops -> consumed ops <= len_runes rest ->
    denote (mirror ops rest) (denote ops rest) = rest.
Proof.
  induction ops as [|op ops IH]; intros rest Hwf Hlen; simpl in *;
    [reflexivity|].
  inversion Hwf as [|? ? Hop Hops]; subst. unfold op_nonneg in Hop.
  pose proof (consumed_nonneg ops Hops) as Hc.
  destruct (opType op) eqn:E; simpl.
  - rewrite take_app_exact, drop_app_exact by (apply len_take; lia).
    rewrite IH by (try assumption; rewrite len_drop by lia; lia).
    apply take_drop.
  - rewrite IH by (try assumption; rewrite len_drop by lia; lia).
    apply take_drop.
  - rewrite drop_app_exact by reflexivity. now apply IH.
Qed.

Lemma invertOps_mirror (ops : list Operation) (original : Rope) :
  forall (inverted : ChangeSet) (pos : Z),
    Forall op_nonneg ops -> 0 <= pos ->
    pos + consumed ops <= rope.Length original ->
    exists inverted',
      invertOps ops original inverted pos = Ok inverted' /\
      operations inverted'
      = operations inverted ++ mirror ops (drop pos (rope.String original)) /\
      lenBefore inverted' = lenBefore inverted.
Proof.
  induction ops as [|op ops IH]; intros inverted pos Hwf Hpos Hlen; simpl in *.
  - exists inverted. now rewrite app_nil_r.
  - inversion Hwf as [|? ? Hop Hops]; subst. unfold op_nonneg in Hop.
    pose proof (consumed_nonneg ops Hops) as Hc.
    destruct (opType op) eqn:E.
    + destruct (IH (Retain inverted (Length op)) (pos + Length op))
        as [inv' [H1 [H2 H3]]]; try assumption; try lia.
      exists inv'. split; [assumption|]. split; [|assumption].
      rewrite H2. simpl. rewrite <- app_assoc. simpl.
      now rewrite drop_add by lia.
    + rewrite (must_Ok _ _ (Slice_String original pos (pos + Length op)
                 ltac:(lia) ltac:(lia) ltac:(lia))). simpl.
      destruct (IH (Insert inverted
                      (sub (rope.String original) pos (pos + Length op)))
                   (pos + Length op))
        as [inv' [H1 [H2 H3]]]; try assumption; try lia.
      exists inv'. split; [assumption|]. split; [|assumption].
      rewrite H2. simpl. rewrite <- app_assoc. simpl.
      unfold sub. replace (pos + Length op - pos) with (Length op) by lia.
      now rewrite drop_add by lia.
    + destruct (IH (Delete inverted (len_runes (Text op))) pos)
        as [inv' [H1 [H2 H3]]]; try assumption; try lia.
      exists inv'. split; [assumption|]. split; [|assumption].
      rewrite H2. simpl. now rewrite <- app_assoc.
Qed.

(** Inverting against the pre-change rope, and applying the inverse to
    any rope that holds the changed text, gives back the original text. *)
Lemma Invert_undoes (cs : ChangeSet) (r : Rope) :
  Forall op_nonneg (operations cs) ->
  consumed (operations cs) <= rope.Length r ->
  exists inv,
    Invert cs r = Ok inv /\
    lenBefore inv = lenAfter cs /\
    operations inv = fuse_ops (mirror (operations cs) (rope.String r)) /\
    forall r1, rope.String r1 = denote (operations cs) (rope.String r) ->
      exists r2, snd (Apply inv r1) = Ok r2 /\ rope.String r2 = rope.String r.
Proof.
  intros Hwf Hlen. unfold Invert.
  destruct (invertOps_mirror (operations cs) r (NewChangeSet (lenAfter cs)) 0)
    as [inv0 [H1 [H2 H3]]]; try assumption; try lia.
  rewrite H1. simpl in *. rewrite drop_0 in H2.
  exists (fuse inv0). split; [reflexivity|]. split; [assumption|].
  split; [simpl; now rewrite H2|].
  intros r1 Hr1.
  pose proof (mirror_nonneg (operations cs) (rope.String r) Hwf) as Hm.
  pose proof (mirror_consumed (operations cs) (rope.String r) Hwf Hlen) as Hmc.
  destruct (Apply_denote (fuse inv0) r1) as [r2 [Ha Hs]].
  - simpl. rewrite H2. now apply fuse_ops_nonneg.
  - simpl. rewrite H2, fuse_ops_consumed. unfold rope.Length at 1.
    rewrite Hr1, Hmc. fold (rope.Length r). lia.
  - exists r2. split; [assumption|].
    rewrite Hs. simpl. rewrite H2, fuse_ops_denote by assumption.
    rewrite Hr1. now apply denote_mirror.
Qed.

End InvertMirror.

(** C3. Invertibility round trip.  For every rope [r] and every changeset
    [c] whose [len_before] is [r]'s length (with the data-model invariant
    of a changeset: counts not negative, the Retain and Delete lengths
    within [len_before]), [Apply] succeeds, and [Invert(c, r)] applied to
    the result gives a rope with the text of [r].  This holds whether
    [Invert] is called before [Apply] or after it, when [Apply] has fused
    the receiver in place.  The inverse has [len_before = c.len_after] and
    its operations are the fused mirror image: Retain(n) for Retain(n),
    Delete(|t|) for Insert(t), Insert of the text taken from [r] for
    Delete(n). *)
Theorem invert_roundtrip (c : ChangeSet) (r : Rope) :
  wf_changeset c ->
  lenBefore c = rope.Length r ->
  exists r1,
    snd (Apply c r) = Ok r1 /\
    forall c', c' = c \/ c' = fst (Apply c r) ->
      exists inv r2,
        Invert c' r = Ok inv /\
        snd (Apply inv r1) = Ok r2 /\
        rope.String r2 = rope.String r /\
        lenBefore inv = lenAfter c /\
        operations inv = fuse_ops (mirror (operations c') (rope.String r)).
Proof.
  intros [Hwf Hcons] Hlen.
  destruct (Apply_denote c r Hwf ltac:(lia)) as [r1 [Ha Hs]].
  exists r1. split; [assumption|].
  intros c' Hc'.
  assert (Hsame : Forall op_nonneg (operations c') /\
                  consumed (operations c') = consumed (operations c) /\
                  (forall rest, denote (operations c') rest
                                = denote (operations c) rest) /\
                  lenAfter c' = lenAfter c).
  { destruct Hc' as [-> | ->]; [now repeat split|].
    unfold Apply. destruct (IsEmpty c); simpl; [now repeat split|].
    repeat split.
    - now apply fuse_ops_nonneg.
    - apply fuse_ops_consumed.
    - now apply fuse_ops_denote. }
  destruct Hsame as [Hwf' [Hcons' [Hden' Hla']]].
  destruct (Invert_undoes c' r Hwf' ltac:(lia)) as [inv [Hi [Hlb [Hops Hback]]]].
  destruct (Hback r1) as [r2 [Ha2 Hs2]]; [now rewrite Hden'|].
  exists inv, r2. repeat split; try assumption. now rewrite Hlb.
Qed.

(** The round trip on the input of TestInvert_Basic. *)
Lemma invert_roundtrip_witness :
  wf_changeset seeds.to_gophers /\
  lenBefore seeds.to_gophers = rope.Length seeds.hello_world /\
  exists r1,
    snd (Apply seeds.to_gophers seeds.hello_world) = Ok r1 /\
    forall c', c' = seeds.to_gophers \/
               c' = fst (Apply seeds.to_gophers seeds.hello_world) ->
      exists inv r2,
        Invert c' seeds.hello_world = Ok inv /\
        snd (Apply inv r1) = Ok r2 /\
        rope.String r2 = rope.String seeds.hello_world /\
        lenBefore inv = lenAfter seeds.to_gophers /\
        operations inv
        = fuse_ops (mirror (operations c') (rope.String seeds.hello_world)).
Proof.
  assert (Hwf : wf_changeset seeds.to_gophers).
  { split.
    - repeat constructor; unfold op_nonneg; simpl; lia.
    - vm_compute. discriminate. }
  split; [exact Hwf|]. split; [reflexivity|].
  apply (invert_roundtrip seeds.to_gophers seeds.hello_world Hwf).
  reflexivity.
Defined.

(* ------------------------------------------------------------------ *)
(** ** Apply and the base length *)

Section ApplyLength.

Lemma applyOps_no_typed_error (ops : list Operation) :
  forall (r : Rope) (pos : Z) (e : RopeError), applyOps ops r pos <> Err e.
Proof.
  induction ops as [|op ops IH]; intros r pos e; simpl; [discriminate|].
  destruct (opType op).
  - apply IH.
  - destruct (rope.Delete r pos (pos + Length op)); simpl;
      [apply IH | discriminate | discriminate].
  - destruct (rope.Insert r pos (Text op)); simpl;
      [apply IH | discriminate | discriminate].
Qed.

End ApplyLength.

(** What [Apply] does with the two lengths of a changeset: nothing.  Its
    result is the same whatever [len_before] and [len_after] are, it
    never returns a typed error, and it succeeds, with the text the
    operations denote, whenever the operations fit the rope (counts not
    negative, Retain and Delete lengths within the rope's length in
    chars). *)
Lemma Apply_reads_no_length (c : ChangeSet) (r : Rope) :
  (forall lb la,
      snd (Apply (mkChangeSet (operations c) lb la) r) = snd (Apply c r)) /\
  (forall e, snd (Apply c r) <> Err e) /\
  (Forall op_nonneg (operations c) ->
   consumed (operations c) <= rope.Length r ->
   exists r', snd (Apply c r) = Ok r' /\
     rope.String r' = denote (operations c) (rope.String r)).
Proof.
  split; [|split].
  - intros lb la. unfold Apply, IsEmpty. simpl.
    destruct (operations c); reflexivity.
  - intros e. unfold Apply. destruct (IsEmpty c); simpl;
      [discriminate | apply applyOps_no_typed_error].
  - apply Apply_denote.
Qed.

(** C4. The length check is missing.  [NewChangeSet(0).Insert("X")] has
    base length 0 and the rope "abc" has length 3, in chars and in UTF-16
    units alike; [Apply] returns the edited rope "Xabc" where the claim
    requires a LengthMismatch failure.  No input fares better: for every
    changeset and every rope, [Apply] returns no typed error at all, so
    in particular never [ErrLengthMismatch], the error the package
    declares for "document length doesn't match expected length". *)
Theorem apply_misses_length_check :
  lenBefore seeds.insert_X_base0 = 0 /\
  rope.LenUTF16 seeds.doc_abc = 3 /\
  rope.Length seeds.doc_abc = 3 /\
  text_of (snd (Apply seeds.insert_X_base0 seeds.doc_abc)) = Ok (lit "Xabc") /\
  (forall (c : ChangeSet) (r : Rope) (e : RopeError),
      snd (Apply c r) <> Err e) /\
  (forall (c : ChangeSet) (r : Rope),
      snd (Apply c r) <> Err ErrLengthMismatch).
Proof.
  assert (H : forall (c : ChangeSet) (r : Rope) (e : RopeError),
             snd (Apply c r) <> Err e).
  { intros c r e. unfold Apply. destruct (IsEmpty c); simpl;
      [discriminate | apply applyOps_no_typed_error]. }
  repeat split; try reflexivity; [exact H|].
  intros c r. apply H.
Qed.

(* ------------------------------------------------------------------ *)
(** ** Length accounting of the builder *)

Section BuilderLengths.

Lemma fold_run_call_lengths (calls : list call) :
  forall cs,
    lenBefore (fold_left run_call calls cs) = lenBefore cs /\
    lenAfter (fold_left run_call calls cs)
    = lenAfter cs - deleted calls + inserted_runes calls.
Proof.
  induction calls as [|c calls IH]; intros cs; simpl.
  - split; [reflexivity | lia].
  - destruct (IH (run_call cs c)) as [H1 H2]. rewrite H1, H2.
    destruct c; simpl; split; try reflexivity; lia.
Qed.

Lemma wrap_int64_fits (z : Z) : fits_int64 z = true -> wrap_int64 z = z.
Proof.
  unfold fits_int64, wrap_int64. intros H.
  apply andb_true_iff in H. destruct H as [H1 H2].
  apply Z.leb_le in H1. apply Z.ltb_lt in H2.
  rewrite Z.mod_small; lia.
Qed.

Lemma wrap_len_after_fits (cs : ChangeSet) :
  fits_int64 (lenAfter cs) = true -> wrap_len_after cs = cs.
Proof.
  intros H. unfold wrap_len_after. rewrite wrap_int64_fits by assumption.
  now destruct cs.
Qed.

Lemma fold_run_call_int64 (calls : list call) :
  forall cs,
    fits_int64 (lenAfter cs) = true ->
    calls_fit_from (lenAfter cs) calls = true ->
    fold_left run_call_int64 calls cs = fold_left run_call calls cs /\
    fits_int64 (lenAfter (fold_left run_call calls cs)) = true.
Proof.
  induction calls as [|c calls IH]; intros cs Hcs Hfit.
  - split; [reflexivity | exact Hcs].
  - cbn [fold_left]. destruct c as [n | n | t];
      cbn [calls_fit_from] in Hfit; cbn [run_call_int64 run_call].
    + apply andb_true_iff in Hfit. destruct Hfit as [_ Hrest].
      apply IH; assumption.
    + apply andb_true_iff in Hfit. destruct Hfit as [Hfit Hrest].
      apply andb_true_iff in Hfit. destruct Hfit as [_ Hla].
      rewrite (wrap_len_after_fits (Delete cs n)) by exact Hla.
      apply IH; assumption.
    + apply andb_true_iff in Hfit. destruct Hfit as [Hla Hrest].
      rewrite (wrap_len_after_fits (Insert cs t)) by exact Hla.
      apply IH; assumption.
Qed.

End BuilderLengths.

(** C5, as the code has it.  For every sequence of Retain, Delete and
    Insert calls on a fresh ChangeSet, as long as [len_before], every
    count and every [len_after] on the way is a value of a Go [int] (a
    signed 64-bit integer), no addition wraps around and [len_after] is
    [len_before] minus the deleted lengths plus the lengths of the
    inserted texts counted in Unicode scalars ([len([]rune(text))]);
    every scalar counts 1, also one at or above U+10000. *)
Theorem builder_len_after_counts_runes (lb : Z) (calls : list call) :
  calls_fit lb calls = true ->
  build_int64 lb calls = build lb calls /\
  lenBefore (build_int64 lb calls) = lb /\
  lenAfter (build_int64 lb calls)
  = lb - deleted calls + inserted_runes calls /\
  fits_int64 (lenAfter (build_int64 lb calls)) = true /\
  forall (cs : ChangeSet) (ch : rune),
    fits_int64 (lenAfter cs + 1) = true ->
    lenAfter (run_call_int64 cs (CallInsert [ch])) = lenAfter cs + 1.
Proof.
  intros Hfit. unfold calls_fit in Hfit. apply andb_true_iff in Hfit.
  destruct Hfit as [Hlb Hcalls].
  unfold build_int64, build.
  destruct (fold_run_call_int64 calls (NewChangeSet lb) Hlb Hcalls)
    as [Heq Hlast].
  rewrite Heq.
  destruct (fold_run_call_lengths calls (NewChangeSet lb)) as [H1 H2].
  split; [reflexivity|]. split; [exact H1|]. split; [exact H2|].
  split; [exact Hlast|].
  intros cs ch Hone. simpl. unfold len_runes. simpl.
  now apply wrap_int64_fits.
Qed.

(** "hello world" to "hello gophers" and a grinning face: 11 - 5 + 8. *)
Lemma builder_len_after_counts_runes_witness :
  calls_fit 11 [CallRetain 6; CallDelete 5; CallInsert (lit "gophers");
                CallInsert [seeds.GRINNING_FACE]] = true /\
  lenAfter (build_int64 11 [CallRetain 6; CallDelete 5;
                            CallInsert (lit "gophers");
                            CallInsert [seeds.GRINNING_FACE]]) = 14.
Proof.
  split; [reflexivity|].
  destruct (builder_len_after_counts_runes 11
              [CallRetain 6; CallDelete 5; CallInsert (lit "gophers");
               CallInsert [seeds.GRINNING_FACE]] eq_refl)
    as [_ [_ [H _]]].
  exact H.
Defined.

(** Outside that range the counter wraps: one char inserted at the
    largest [int] leaves the smallest. *)
Example builder_len_after_wraps :
  lenAfter (build_int64 9223372036854775807 [CallInsert (lit "a")])
  = -9223372036854775808 /\
  lenAfter (build_int64 (-9223372036854775808) [CallDelete 1])
  = 9223372036854775807.
Proof. split; reflexivity. Qed.

(** C5, as stated, fails: inserting U+1F600, two UTF-16 code units, into
    a fresh ChangeSet of base length 0 gives [len_after = 1]. *)
Lemma builder_len_after_utf16_counterexample :
  len_utf16 [seeds.GRINNING_FACE] = 2 /\
  lenAfter (build 0 [CallInsert [seeds.GRINNING_FACE]]) = 1 /\
  lenAfter (build 0 [CallInsert [seeds.GRINNING_FACE]])
  <> 0 - deleted [CallInsert [seeds.GRINNING_FACE]]
       + inserted_utf16 [CallInsert [seeds.GRINNING_FACE]].
Proof.
  repeat split; vm_compute; discriminate.
Qed.

(* ------------------------------------------------------------------ *)
(** ** Hashing *)

(** C9. Chunk-invariant hashing.  Two ropes that hold the same text hash
    equal, in 32 and in 64 bits, and are [Equals], however the text is
    cut into leaves: the hash is the FNV-1a fold over the UTF-8 bytes of
    the text in leaf order. *)
Theorem hash_chunk_invariant (r1 r2 : Rope) :
  rope.String r1 = rope.String r2 ->
  HashCode32 r1 = HashCode32 r2 /\
  HashCode64 r1 = HashCode64 r2 /\
  Equals r1 r2 = true /\
  HashCode32 r1 = fold_left write32 (utf8_bytes (rope.String r1)) offset32.
Proof.
  intros H. unfold HashCode32, HashCode64, Equals.
  rewrite !IterBytes_String, H.
  repeat split.
  destruct (list_eq_dec Z.eq_dec (rope.String r2) (rope.String r2));
    [reflexivity | contradiction].
Qed.

(** TestHash_Consistency_Small: "Hello w"+"orld" and "Hell"+"o world". *)
Lemma hash_chunk_invariant_witness :
  rope.String seeds.hello_w_orld = rope.String seeds.hell_o_world /\
  Chunks seeds.hello_w_orld <> Chunks seeds.hell_o_world /\
  HashCode32 seeds.hello_w_orld = HashCode32 seeds.hell_o_world /\
  HashCode64 seeds.hello_w_orld = HashCode64 seeds.hell_o_world /\
  Equals seeds.hello_w_orld seeds.hell_o_world = true /\
  HashCode32 seeds.hello_w_orld
  = fold_left write32 (utf8_bytes (rope.String seeds.hello_w_orld)) offset32.
Proof.
  split; [reflexivity|]. split; [vm_compute; discriminate|].
  apply (hash_chunk_invariant seeds.hello_w_orld seeds.hell_o_world).
  reflexivity.
Defined.

(* ------------------------------------------------------------------ *)
(** ** The lines iterator *)

Import line_ops.

Section LinesIteration.

Lemma line_numbers_nil (from to_ : Z) : to_ <= from -> line_numbers from to_ = [].
Proof.
  intros H. unfold line_numbers.
  replace (Z.to_nat (to_ - from)) with 0%nat by lia. reflexivity.
Qed.

Lemma line_numbers_cons (from to_ : Z) :
  from < to_ -> line_numbers from to_ = from :: line_numbers (from + 1) to_.
Proof.
  intros H. unfold line_numbers.
  replace (Z.to_nat (to_ - from)) with (S (Z.to_nat (to_ - (from + 1)))) by lia.
  simpl. f_equal; [lia|].
  rewrite <- seq_shift, map_map. apply map_ext. intros k. lia.
Qed.

Lemma line_numbers_In (from to_ i : Z) :
  In i (line_numbers from to_) -> from <= i < to_.
Proof.
  unfold line_numbers. rewrite in_map_iff. intros [k [<- Hk]].
  apply in_seq in Hk. lia.
Qed.

Lemma drain_yields (fuel : nat) :
  forall it,
    (Z.to_nat (totalLines it - (lineNum it + 1)) < fuel)%nat ->
    drain fuel it
    = Some (map (fun i => (i, Current (mkLinesIterator (it_rope it) i
                                                       (totalLines it))))
                (line_numbers (lineNum it + 1) (totalLines it))).
Proof.
  induction fuel as [|fuel IH]; intros it Hfuel; [lia|].
  simpl. destruct (lineNum it + 1 <? totalLines it) eqn:Hmore.
  - apply Z.ltb_lt in Hmore.
    rewrite IH by (simpl; lia). simpl.
    rewrite (line_numbers_cons (lineNum it + 1)) by assumption. reflexivity.
  - apply Z.ltb_ge in Hmore. now rewrite line_numbers_nil.
Qed.

End LinesIteration.

(** C10. A fresh [LinesIterator] has its counter at 0 and [Next]
    increments before it compares, so stepping it yields the lines
    1, ..., L-1 of a rope of L lines and never line 0; after [Reset],
    which puts the counter at -1, stepping yields all the lines
    0, ..., L-1.  The loop ends: L + 1 calls of [Next] are enough. *)
Theorem lines_iterator_skips_line_0 (r : Rope) (fuel : nat) :
  (Z.to_nat (LineCount r) < fuel)%nat ->
  LineNumber (LinesIterator r) = 0 /\
  LineNumber (Reset (LinesIterator r)) = -1 /\
  drain fuel (LinesIterator r)
  = Some (map (fun i => (i, Line r i)) (line_numbers 1 (LineCount r))) /\
  drain fuel (Reset (LinesIterator r))
  = Some (map (fun i => (i, Line r i)) (line_numbers 0 (LineCount r))).
Proof.
  intros Hfuel. split; [reflexivity|]. split; [reflexivity|].
  assert (Hcur : forall from, 0 <= from ->
            map (fun i => (i, Current (mkLinesIterator r i (LineCount r))))
                (line_numbers from (LineCount r))
            = map (fun i => (i, Line r i)) (line_numbers from (LineCount r))).
  { intros from Hfrom. apply map_ext_in. intros i Hi.
    apply line_numbers_In in Hi. unfold Current. simpl.
    replace ((i <? 0) || (i >=? LineCount r)) with false by lia.
    reflexivity. }
  split.
  - rewrite drain_yields by (simpl; lia). simpl. f_equal. now apply Hcur.
  - rewrite drain_yields by (simpl; lia). simpl. f_equal. now apply Hcur.
Qed.

(** Three lines: a fresh iterator yields lines 1 and 2, a reset one
    lines 0, 1 and 2. *)
Lemma lines_iterator_skips_line_0_witness :
  (Z.to_nat (LineCount seeds.three_lines) < 4)%nat /\
  LineNumber (LinesIterator seeds.three_lines) = 0 /\
  LineNumber (Reset (LinesIterator seeds.three_lines)) = -1 /\
  drain 4 (LinesIterator seeds.three_lines)
  = Some (map (fun i => (i, Line seeds.three_lines i))
              (line_numbers 1 (LineCount seeds.three_lines))) /\
  drain 4 (Reset (LinesIterator seeds.three_lines))
  = Some (map (fun i => (i, Line seeds.three_lines i))
              (line_numbers 0 (LineCount seeds.three_lines))).
Proof.
  assert (H : (Z.to_nat (LineCount seeds.three_lines) < 4)%nat)
    by (vm_compute; lia).
  split; [exact H|].
  apply (lines_iterator_skips_line_0 seeds.three_lines 4 H).
Defined.

Example lines_iterator_three_lines :
  drain 4 (LinesIterator seeds.three_lines)
  = Some [(1, Ok (lit "Line 2")); (2, Ok (lit "Line 3"))] /\
  ToSlice 4 (LinesIterator seeds.three_lines)
  = Some (Ok [lit "Line 1"; lit "Line 2"; lit "Line 3"]).
Proof. split; vm_compute; reflexivity. Qed.

(* ------------------------------------------------------------------ *)
(** ** Compose and Transform on the documented scenarios *)

Section ComposeShape.

Variable posMap : posMapT.

Lemma composeLoop_cons_cons (f : Operation) (fs : list Operation)
    (s : Operation) (ss : list Operation) (c : changesetComposer) :
  composeLoop (f :: fs) posMap (s :: ss) c
  = if shouldProcessFirst c f posMap
    then composeLoop fs posMap (s :: ss) (processFirstOp c f)
    else composeLoop (f :: fs) posMap ss (processSecondOp c s posMap).
Proof. reflexivity. Qed.

Lemma composeLoop_nil_cons (s : Operation) (ss : list Operation)
    (c : changesetComposer) :
  composeLoop [] posMap (s :: ss) c
  = composeLoop [] posMap ss (processSecondOp c s posMap).
Proof. reflexivity. Qed.

Lemma composeLoop_cons_nil (f : Operation) (fs : list Operation)
    (c : changesetComposer) :
  composeLoop (f :: fs) posMap [] c
  = composeLoop fs posMap [] (processFirstOp c f).
Proof. reflexivity. Qed.

Lemma processFirstOp_operations (c : changesetComposer) (op : Operation) :
  operations (result_ (processFirstOp c op))
  = operations (result_ c) ++ [stored op].
Proof. unfold processFirstOp, stored. destruct (opType op); reflexivity. Qed.

Lemma processSecondOp_operations (c : changesetComposer) (op : Operation) :
  operations (result_ (processSecondOp c op posMap))
  = operations (result_ c) ++ [stored op].
Proof. unfold processSecondOp, stored. destruct (opType op); reflexivity. Qed.

Lemma processSecondOp_keeps_level (c : changesetComposer) (op : Operation) :
  posInFirst c = posInSecond c ->
  posInFirst (processSecondOp c op posMap)
  = posInSecond (processSecondOp c op posMap).
Proof.
  unfold processSecondOp. intros H. destruct (opType op); simpl; lia.
Qed.

Lemma leading_inserts_split (ops : list Operation) :
  leading_inserts ops ++ after_leading_inserts ops = ops.
Proof.
  induction ops as [|op ops IH]; simpl; [reflexivity|].
  destruct (opType op); simpl; try reflexivity. now rewrite IH.
Qed.

Lemma composeLoop_first_only (first : list Operation) :
  forall c,
    operations (result_ (composeLoop first posMap [] c))
    = operations (result_ c) ++ map stored first.
Proof.
  induction first as [|f fs IH]; intros c.
  - simpl. now rewrite app_nil_r.
  - rewrite composeLoop_cons_nil, IH, processFirstOp_operations.
    simpl. now rewrite <- app_assoc.
Qed.

Lemma composeLoop_second_only (second : list Operation) :
  forall c,
    operations (result_ (composeLoop [] posMap second c))
    = operations (result_ c) ++ map stored second.
Proof.
  induction second as [|s ss IH]; intros c.
  - simpl. now rewrite app_nil_r.
  - rewrite composeLoop_nil_cons, IH, processSecondOp_operations.
    simpl. now rewrite <- app_assoc.
Qed.

(** The two cursors of the composer start level and stay level while the
    second changeset has operations left, so no Retain or Delete of the
    first changeset is taken before the second is exhausted: the result
    is the Inserts at the head of the first changeset, then the whole
    second changeset, then the rest of the first. *)
Lemma composeLoop_concatenates (first : list Operation) :
  forall second c,
    posInFirst c = posInSecond c ->
    operations (result_ (composeLoop first posMap second c))
    = operations (result_ c)
      ++ map stored (leading_inserts first ++ second
                     ++ after_leading_inserts first).
Proof.
  induction first as [|f fs IHf]; intros second.
  - intros c _. simpl. rewrite app_nil_r. apply composeLoop_second_only.
  - induction second as [|s ss IHs]; intros c Hlevel.
    + rewrite composeLoop_first_only.
      replace (leading_inserts (f :: fs) ++ []
               ++ after_leading_inserts (f :: fs))
        with (f :: fs) by (symmetry; apply leading_inserts_split).
      reflexivity.
    + rewrite composeLoop_cons_cons. unfold shouldProcessFirst.
      destruct (opType f) eqn:Ef.
      * replace (posInFirst c <? posInSecond c) with false by lia.
        rewrite IHs by now apply processSecondOp_keeps_level.
        rewrite processSecondOp_operations. simpl. rewrite Ef. simpl.
        now rewrite <- app_assoc.
      * replace (posInFirst c <? posInSecond c) with false by lia.
        rewrite IHs by now apply processSecondOp_keeps_level.
        rewrite processSecondOp_operations. simpl. rewrite Ef. simpl.
        now rewrite <- app_assoc.
      * replace (posInFirst c <=? posInSecond c) with true by lia.
        rewrite IHf.
        -- rewrite processFirstOp_operations. simpl. rewrite Ef. simpl.
           now rewrite <- app_assoc.
        -- unfold processFirstOp. rewrite Ef. simpl. assumption.
Qed.

End ComposeShape.

(** For two changesets with operations, [Compose] is this concatenation,
    and [Transform] is [Compose]. *)
Lemma Compose_concatenates (cs other : ChangeSet) :
  IsEmpty cs = false -> IsEmpty other = false ->
  operations (Compose cs other)
  = map stored (leading_inserts (operations cs) ++ operations other
                ++ after_leading_inserts (operations cs)) /\
  Transform cs other = Compose cs other.
Proof.
  intros Hcs Hother. unfold Transform, Compose, compose.
  rewrite Hcs, Hother. split; [|reflexivity]. simpl.
  now rewrite composeLoop_concatenates.
Qed.

(** C2 at the input of TestCompose_InsertInsert.  On "ab", Retain(1)
    Insert("x") followed by Retain(2) Insert("y") gives "axyb".  [Compose]
    returns the second changeset's operations followed by the first's,
    with [len_after] 5 where the second changeset has 4, and applying it
    to "ab" runs out of the rope.  On the empty rope, Insert("Hello")
    composed with Insert("World") gives "HelloWorld" where applying one
    after the other gives "WorldHello". *)
Theorem compose_breaks_composition_law :
  text_of (r1 <- snd (Apply seeds.retain1_insert_x seeds.doc_ab) ;;
           snd (Apply seeds.retain2_insert_y r1))
  = Ok (lit "axyb") /\
  operations (Compose seeds.retain1_insert_x seeds.retain2_insert_y)
  = [mkOp OpRetain 2 []; mkOp OpInsert 0 (lit "y");
     mkOp OpRetain 1 []; mkOp OpInsert 0 (lit "x")] /\
  lenAfter (Compose seeds.retain1_insert_x seeds.retain2_insert_y) = 5 /\
  lenAfter seeds.retain2_insert_y = 4 /\
  is_ok (snd (Apply (Compose seeds.retain1_insert_x seeds.retain2_insert_y)
                    seeds.doc_ab))
  = false /\
  lenAfter seeds.insert_hello = lenBefore seeds.insert_world_after /\
  text_of (r1 <- snd (Apply seeds.insert_hello Empty) ;;
           snd (Apply seeds.insert_world_after r1))
  = Ok (lit "WorldHello") /\
  text_of (snd (Apply (Compose seeds.insert_hello seeds.insert_world_after)
                      Empty))
  = Ok (lit "HelloWorld").
Proof. repeat split; vm_compute; reflexivity. Qed.

(** C1 at the tie-break scenario.  [Transform] is [Compose] when neither
    changeset is empty.  With [a = Insert("Hello")] and
    [b = Insert("World")] on the empty rope, [b' = a.Transform(b)] and
    [a' = b.Transform(a)]: applying [a] then [b'] gives "HelloWorldHello"
    and applying [b] then [a'] gives "WorldHelloWorld".  Pairing the two
    results the other way round does not converge either. *)
Theorem transform_does_not_converge :
  Transform seeds.insert_hello seeds.insert_world
  = Compose seeds.insert_hello seeds.insert_world /\
  lenBefore seeds.insert_hello = lenBefore seeds.insert_world /\
  text_of (ra <- snd (Apply seeds.insert_hello Empty) ;;
           snd (Apply (Transform seeds.insert_hello seeds.insert_world) ra))
  = Ok (lit "HelloWorldHello") /\
  text_of (rb <- snd (Apply seeds.insert_world Empty) ;;
           snd (Apply (Transform seeds.insert_world seeds.insert_hello) rb))
  = Ok (lit "WorldHelloWorld") /\
  text_of (ra <- snd (Apply seeds.insert_hello Empty) ;;
           snd (Apply (Transform seeds.insert_world seeds.insert_hello) ra))
  = Ok (lit "WorldHelloHello") /\
  text_of (rb <- snd (Apply seeds.insert_world Empty) ;;
           snd (Apply (Transform seeds.insert_hello seeds.insert_world) rb))
  = Ok (lit "HelloWorldWorld").
Proof. repeat split; vm_compute; reflexivity. Qed.

(* ------------------------------------------------------------------ *)
(** ** Position mapping on the multi-cursor scenario *)

(** C7 at the multi-cursor scenario: the rope of three lines has 20
    chars and the changeset is Retain(6) Insert("X").  [MapPosition] maps
    6 to 6 and 13 to 7: past the last operation it returns the new
    position reached and drops the distance still to go.  With the
    trailing Retain(14) spelled out it maps 13 to 14, and so does the
    streaming mapper behind the package-level [MapPositions]. *)
Theorem map_position_drops_trailing_offset :
  rope.Length seeds.three_lines = 20 /\
  MapPosition seeds.retain6_insert_X 6 AssocBefore = 6 /\
  MapPosition seeds.retain6_insert_X 13 AssocBefore = 7 /\
  MapPositions seeds.retain6_insert_X [6; 13] [AssocBefore; AssocBefore]
  = Ok [6; 7] /\
  MapPosition (Retain seeds.retain6_insert_X 14) 13 AssocBefore = 14 /\
  position_mapper.MapPositions 2 seeds.retain6_insert_X [6; 13] AssocBefore
  = Some [6; 14].
Proof. repeat split; vm_compute; reflexivity. Qed.

(** Inside a Retain, [MapPosition] with [Before] does return
    [new_pos + (p - old_pos)]. *)
Lemma mapPositionLoop_inside_retain (op : Operation) (rest : list Operation)
    (p old_pos new_pos : Z) :
  opType op = OpRetain -> p < old_pos + Length op ->
  mapPositionLoop (op :: rest) p AssocBefore old_pos new_pos
  = new_pos + (p - old_pos).
Proof.
  intros E H. simpl. rewrite E.
  replace (old_pos + Length op >? p) with true by lia. reflexivity.
Qed.

(* ------------------------------------------------------------------ *)
(** ** Pruning a branched history *)

Import history.

(** What [prune] does when the history is over its cap: it drops the
    oldest [len - maxSize] revisions, subtracts that count from every
    non-negative parent and last-child index of the survivors and from
    [current], and clamps [current] at -1. *)
Lemma prune_rebases (h : History) :
  0 < maxSize h -> maxSize h < len (revisions h) ->
  let newRoot := len (revisions h) - maxSize h in
  prune h
  = mkHistory (map (rebase newRoot) (skipn (Z.to_nat newRoot) (revisions h)))
              (Z.max (-1) (current h - newRoot)) (maxSize h).
Proof.
  intros Hpos Hover. unfold prune.
  replace (maxSize h <=? 0) with false by lia.
  replace (len (revisions h) <=? maxSize h) with false by lia.
  replace (len (revisions h) - maxSize h >=? len (revisions h))
    with false by lia.
  simpl. f_equal.
  destruct (current h - (len (revisions h) - maxSize h) <? -1) eqn:E; lia.
Qed.

(** C6 on a branched history.  Commit T1, commit T2, undo, commit T3:
    three revisions with parents -1, 0, 0.  [SetMaxSize(1)] prunes the
    first two and subtracts 2 from the parent of the survivor, which
    becomes -2: neither -1 nor the index of a revision.  [current] is
    clamped and is 0.  Undo then moves [current] to -2, and the next Redo
    indexes the revisions at -2. *)
Theorem prune_leaves_dangling_parent :
  exists h,
    seeds.branched = Ok h /\
    map parent (revisions h) = [-1; 0; 0] /\
    no_dangling_parent h = true /\
    map parent (revisions (SetMaxSize h 1)) = [-2] /\
    current (SetMaxSize h 1) = 0 /\
    no_dangling_parent (SetMaxSize h 1) = false /\
    (exists h' t, Undo (SetMaxSize h 1) = Ok (h', Some t) /\
                  current h' = -2 /\
                  Redo h' = Panic "index out of range").
Proof.
  unfold seeds.branched. vm_compute. eexists. split; [reflexivity|].
  repeat split. do 2 eexists. repeat split.
Qed.

(** Pruning one revision at a time keeps every parent at -1 or at an
    earlier index. *)
Lemma rebase_by_one_parent_ok (i : Z) (rev : Revision) :
  0 <= i -> parent_ok (i + 1) rev = true -> parent_ok i (rebase 1 rev) = true.
Proof.
  unfold parent_ok, rebase. simpl. intros Hi H.
  destruct (parent rev >=? 0) eqn:E; lia.
Qed.

(* ------------------------------------------------------------------ *)
(** ** Range checks that abort *)

(** C8 on the rope of three lines (20 chars).  [SliceOptimized],
    [LineStart] and [LineAtChar] never return a typed error; given a
    negative position, a position past the end or a reversed range they
    panic.  [Slice] and [Line] return the typed errors of errors.go on
    the same arguments. *)
Theorem range_checks_panic :
  (forall r a b, is_typed_error (SliceOptimized r a b) = false) /\
  (forall r n, is_typed_error (LineStart r n) = false) /\
  (forall r p, is_typed_error (LineAtChar r p) = false) /\
  SliceOptimized seeds.three_lines (-1) 4 = Panic "slice bounds out of range" /\
  SliceOptimized seeds.three_lines 4 21 = Panic "slice bounds out of range" /\
  SliceOptimized seeds.three_lines 5 4 = Panic "slice bounds out of range" /\
  LineStart seeds.three_lines (-1) = Panic "line number out of bounds" /\
  LineStart seeds.three_lines 3 = Panic "line number out of bounds" /\
  LineAtChar seeds.three_lines (-1) = Panic "character position out of bounds" /\
  LineAtChar seeds.three_lines 21 = Panic "character position out of bounds" /\
  rope.Slice seeds.three_lines (-1) 4 = Err (ErrInvalidRange "Slice" (-1) 4 20) /\
  Line seeds.three_lines 3 = Err (ErrOutOfBounds "Line" 3 0 3).
Proof.
  split; [|split; [|split]].
  - intros r a b. unfold SliceOptimized.
    destruct ((a <? 0) || (b >? rope.Length r) || (a >? b)); [reflexivity|].
    destruct (a =? b); reflexivity.
  - intros r n. unfold LineStart.
    destruct ((n <? 0) || (n >=? LineCount r)); [reflexivity|].
    destruct (n =? 0); [reflexivity|].
    destruct (lineStartLoop (rope.String r) 0 0 n); reflexivity.
  - intros r p. unfold LineAtChar.
    destruct ((p <? 0) || (p >? rope.Length r)); [reflexivity|].
    destruct (p =? 0); reflexivity.
  - repeat split; vm_compute; reflexivity.
Qed.

(* ------------------------------------------------------------------ *)
(** ** Checks of the model against known values *)

Example lit_ascii : lit "Hi!" = [72; 105; 33].
Proof. reflexivity. Qed.

Example utf8_grinning_face :
  utf8_bytes [seeds.GRINNING_FACE] = [240; 159; 152; 128].
Proof. reflexivity. Qed.

Example utf8_cjk : utf8_bytes [20013] = [228; 184; 173].
Proof. reflexivity. Qed.

(** "Hi" followed by U+1F600: 3 chars, 4 UTF-16 code units, 6 bytes. *)
Example lengths_of_hi_grinning_face :
  rope.Length (New (lit "Hi" ++ [seeds.GRINNING_FACE])) = 3 /\
  LenUTF16 (New (lit "Hi" ++ [seeds.GRINNING_FACE])) = 4 /\
  Size (New (lit "Hi" ++ [seeds.GRINNING_FACE])) = 6.
Proof. repeat split. Qed.

(** The published FNV-1a test vectors. *)
Example fnv32a_foobar : HashCode32 (New (lit "foobar")) = 3214735720.
Proof. vm_compute. reflexivity. Qed.

Example fnv64a_a : HashCode64 (New (lit "a")) = 12638187200555641996.
Proof. vm_compute. reflexivity. Qed.

(** TestInvert_Basic and the first half of TestCompose_Basic. *)
Example apply_to_gophers :
  text_of (snd (Apply seeds.to_gophers seeds.hello_world))
  = Ok (lit "hello gophers").
Proof. vm_compute. reflexivity. Qed.

Example apply_compose_basic_cs1 :
  let cs1 := Insert (Delete (Retain (Insert (Retain (NewChangeSet 8) 5)
                                            (lit " test!")) 1) 2) (lit "abc") in
  lenBefore cs1 = 8 /\ lenAfter cs1 = 15 /\
  text_of (snd (Apply cs1 (New (lit "hello xz")))) = Ok (lit "hello test! abc").
Proof. repeat split; vm_compute; reflexivity. Qed.

(** TestLineInfo_LineAtChar, the positions at which it holds. *)
Example line_at_char_three_lines :
  LineAtChar seeds.three_lines 0 = Ok 0 /\
  LineAtChar seeds.three_lines 4 = Ok 0 /\
  LineAtChar seeds.three_lines 12 = Ok 1 /\
  LineAtChar seeds.three_lines 13 = Ok 2.
Proof. repeat split; vm_compute; reflexivity. Qed.

(** TestInvert_Basic, end to end. *)
Example invert_gophers_back :
  (inv <- Invert seeds.to_gophers seeds.hello_world ;;
   modified <- snd (Apply seeds.to_gophers seeds.hello_world) ;;
   text_of (snd (Apply inv modified)))
  = Ok (lit "hello world").
Proof. vm_compute. reflexivity. Qed.

(** "Hi" and U+1F600: a changeset built for 3 chars is applied although
    the rope has 4 UTF-16 code units, and one built for 4 units as well. *)
Example apply_retain_on_hi_grinning_face :
  let r := New (lit "Hi" ++ [seeds.GRINNING_FACE]) in
  text_of (snd (Apply (Retain (NewChangeSet 3) 3) r)) = Ok (rope.String r) /\
  text_of (snd (Apply (Retain (NewChangeSet 4) 4) r)) = Ok (rope.String r).
Proof. split; vm_compute; reflexivity. Qed.

(* ================================================================== *)
(** * Further properties of the package *)

Import changeset_ops measures.

(* ------------------------------------------------------------------ *)
(** ** fuse, Optimized and the length bookkeeping *)

Section FuseShape.




Lemma merge_opType (prev op : Operation) : opType (merge prev op) = opType prev.
Proof. unfold merge. destruct (opType op); reflexivity. Qed.

Lemma alternating_head (x y : Operation) (l : list Operation) :
  opType x = opType y -> alternating (x :: l) -> alternating (y :: l).
Proof. intros E. simpl. destruct l; [tauto|]. rewrite E. tauto. Qed.








Lemma merge_measures (prev op : Operation) (rest : list Operation) :
  opType prev = opType op ->
  retained_of (merge prev op :: rest) = retained_of (prev :: op :: rest) /\
  deleted_of (merge prev op :: rest) = deleted_of (prev :: op :: rest) /\
  inserted_of (merge prev op :: rest) = inserted_of (prev :: op :: rest).
Proof.
  unfold merge. intros E. simpl.
  destruct (opType op) eqn:Eo; simpl; rewrite E, ?Eo; simpl;
    rewrite ?len_runes_app; repeat split; lia.
Qed.

Lemma measures_app (xs ys : list Operation) :
  retained_of (xs ++ ys) = retained_of xs + retained_of ys /\
  deleted_of (xs ++ ys) = deleted_of xs + deleted_of ys /\
  inserted_of (xs ++ ys) = inserted_of xs + inserted_of ys.
Proof.
  induction xs as [|x xs [IH1 [IH2 IH3]]]; simpl; [repeat split|].
  destruct (opType x); repeat split; lia.
Qed.

Lemma fuse_step_measures (fused : list Operation) (op : Operation)
    (ops : list Operation) :
  retained_of (rev (fuse_step fused op) ++ ops)
  = retained_of (rev fused ++ op :: ops) /\
  deleted_of (rev (fuse_step fused op) ++ ops)
  = deleted_of (rev fused ++ op :: ops) /\
  inserted_of (rev (fuse_step fused op) ++ ops)
  = inserted_of (rev fused ++ op :: ops).
Proof.
  unfold fuse_step. destruct fused as [|prev before]; [repeat split|].
  destruct (OpType_eqb (opType prev) (opType op)) eqn:E.
  - apply OpType_eqb_eq in E. simpl. rewrite <- !app_assoc. simpl app.
    destruct (measures_app (rev before) (merge prev op :: ops)) as [A1 [A2 A3]].
    destruct (measures_app (rev before) (prev :: op :: ops)) as [B1 [B2 B3]].
    destruct (merge_measures prev op ops E) as [M1 [M2 M3]].
    rewrite A1, A2, A3, B1, B2, B3, M1, M2, M3. repeat split.
  - simpl. rewrite <- !app_assoc. repeat split.
Qed.

Lemma fuse_fold_measures (ops fused : list Operation) :
  retained_of (rev (fold_left fuse_step ops fused))
  = retained_of (rev fused ++ ops) /\
  deleted_of (rev (fold_left fuse_step ops fused))
  = deleted_of (rev fused ++ ops) /\
  inserted_of (rev (fold_left fuse_step ops fused))
  = inserted_of (rev fused ++ ops).
Proof.
  revert fused. induction ops as [|op ops IH]; intros fused; simpl.
  - rewrite app_nil_r. repeat split.
  - destruct (IH (fuse_step fused op)) as [H1 [H2 H3]].
    destruct (fuse_step_measures fused op ops) as [S1 [S2 S3]].
    rewrite H1, H2, H3, S1, S2, S3. repeat split.
Qed.

Lemma fuse_ops_measures (ops : list Operation) :
  retained_of (fuse_ops ops) = retained_of ops /\
  deleted_of (fuse_ops ops) = deleted_of ops /\
  inserted_of (fuse_ops ops) = inserted_of ops.
Proof.
  unfold fuse_ops. destruct (List.length ops <=? 1)%nat; [repeat split|].
  apply (fuse_fold_measures ops []).
Qed.



End FuseShape.




Example Optimized_loses_len_after :
  lenAfter seeds.to_gophers = 13 /\ lenAfter (Optimized seeds.to_gophers) = 11.
Proof. split; reflexivity. Qed.

Section Bookkeeping.

Lemma must_Ok_inv {A} (x : result A) (a : A) : must x = Ok a -> x = Ok a.
Proof. destruct x; simpl; intros H; congruence. Qed.

Lemma Slice_Ok_len (r : Rope) (a b : Z) (t : gostring) :
  rope.Slice r a b = Ok t ->
  0 <= a /\ a <= b /\ b <= rope.Length r /\ t = sub (rope.String r) a b /\
  len_runes t = b - a.
Proof.
  unfold rope.Slice, errSliceOutOfBounds.
  destruct (a >? b) eqn:E1; [discriminate|].
  destruct (b >? rope.Length r) eqn:E2; [discriminate|].
  destruct (a <? 0) eqn:E3; [discriminate|].
  intros H. injection H as <-.
  repeat split; try lia.
  unfold sub. rewrite len_take; [lia|].
  rewrite len_drop by (fold (rope.Length r); lia).
  fold (rope.Length r). lia.
Qed.

Lemma invertOps_accounting (ops : list Operation) (original : Rope) :
  forall inverted pos inv',
    invertOps ops original inverted pos = Ok inv' ->
    lenBefore inv' = lenBefore inverted /\
    lenAfter inv' = lenAfter inverted - inserted_of ops + deleted_of ops /\
    deleted_of (operations inv')
    = deleted_of (operations inverted) + inserted_of ops /\
    inserted_of (operations inv')
    = inserted_of (operations inverted) + deleted_of ops.
Proof.
  induction ops as [|op ops IH]; intros inverted pos inv' H; simpl in H.
  - injection H as <-. simpl. repeat split; lia.
  - destruct (opType op) eqn:E.
    + apply IH in H. destruct H as [H1 [H2 [H3 H4]]]. simpl in *.
      destruct (measures_app (operations inverted) [mkOp OpRetain (Length op) []])
        as [_ [M2 M3]].
      rewrite E, H1, H2, H3, H4, M2, M3. simpl. repeat split; lia.
    + destruct (must (rope.Slice original pos (pos + Length op))) as [t| |] eqn:Es;
        simpl in H; try discriminate.
      apply must_Ok_inv, Slice_Ok_len in Es. destruct Es as [_ [_ [_ [_ Hlen]]]].
      apply IH in H. destruct H as [H1 [H2 [H3 H4]]]. simpl in *.
      destruct (measures_app (operations inverted) [mkOp OpInsert 0 t])
        as [_ [M2 M3]].
      rewrite E, H1, H2, H3, H4, M2, M3. simpl. repeat split; lia.
    + apply IH in H. destruct H as [H1 [H2 [H3 H4]]]. simpl in *.
      destruct (measures_app (operations inverted)
                  [mkOp OpDelete (len_runes (Text op)) []]) as [_ [M2 M3]].
      rewrite E, H1, H2, H3, H4, M2, M3. simpl. repeat split; lia.
Qed.

End Bookkeeping.

(** X3. The inverse swaps the two lengths.  When the bookkeeping of a
    changeset agrees with its operations ([len_after = len_before -
    deleted + inserted]) and [Invert] returns, the inverse has
    [len_before = c.len_after] and [len_after = c.len_before], and its
    own bookkeeping agrees with its operations. *)
Theorem Invert_swaps_lengths (c : ChangeSet) (r : Rope) (inv : ChangeSet) :
  accounted c ->
  Invert c r = Ok inv ->
  lenBefore inv = lenAfter c /\ lenAfter inv = lenBefore c /\ accounted inv.
Proof.
  unfold Invert. intros Hacc H.
  destruct (invertOps (operations c) r (NewChangeSet (lenAfter c)) 0)
    as [inv0| |] eqn:E; simpl in H; try discriminate.
  injection H as <-.
  apply invertOps_accounting in E. destruct E as [H1 [H2 [H3 H4]]].
  simpl in *. unfold accounted in *. simpl.
  destruct (fuse_ops_measures (operations inv0)) as [_ [F2 F3]].
  rewrite F2, F3, H1, H2, H3, H4. repeat split; lia.
Qed.

Lemma Invert_swaps_lengths_witness :
  accounted seeds.to_gophers /\
  exists inv,
    Invert seeds.to_gophers seeds.hello_world = Ok inv /\
    lenBefore inv = lenAfter seeds.to_gophers /\
    lenAfter inv = lenBefore seeds.to_gophers /\ accounted inv.
Proof.
  assert (H : accounted seeds.to_gophers) by reflexivity.
  split; [exact H|].
  eexists. split; [vm_compute; reflexivity|].
  apply (Invert_swaps_lengths seeds.to_gophers seeds.hello_world _ H).
  vm_compute. reflexivity.
Defined.



Section InvertAtShape.

Lemma fuse_step_not_retain (fused : list Operation) (op : Operation) :
  Forall not_retain fused -> not_retain op ->
  Forall not_retain (fuse_step fused op).
Proof.
  intros Hf Ho. unfold fuse_step. destruct fused as [|prev before].
  - now constructor.
  - inversion Hf; subst.
    destruct (OpType_eqb (opType prev) (opType op)).
    + constructor; [|assumption]. unfold not_retain. now rewrite merge_opType.
    + now constructor.
Qed.

Lemma fuse_ops_not_retain (ops : list Operation) :
  Forall not_retain ops -> Forall not_retain (fuse_ops ops).
Proof.
  intros H. unfold fuse_ops. destruct (List.length ops <=? 1)%nat; [assumption|].
  apply Forall_rev.
  assert (G : forall l acc, Forall not_retain acc -> Forall not_retain l ->
                Forall not_retain (fold_left fuse_step l acc)).
  { induction l as [|x l IH]; intros acc Ha Hl; simpl; [assumption|].
    inversion Hl; subst. apply IH; [apply fuse_step_not_retain|]; assumption. }
  apply G; [constructor | assumption].
Qed.

Lemma invertAtOps_not_retain (ops : list Operation) (original : Rope) :
  forall inverted pos inv',
    Forall not_retain (operations inverted) ->
    invertAtOps ops original inverted pos = Ok inv' ->
    Forall not_retain (operations inv') /\ lenBefore inv' = lenBefore inverted.
Proof.
  induction ops as [|op ops IH]; intros inverted pos inv' Hf H; simpl in H.
  - injection H as <-. now split.
  - destruct (opType op) eqn:E.
    + now apply IH in H.
    + destruct (must (rope.Slice original pos (pos + Length op))) as [t| |];
        simpl in H; try discriminate.
      apply IH in H; [assumption|]. simpl. apply Forall_app. split; [assumption|].
      constructor; [|constructor]. unfold not_retain. simpl. discriminate.
    + apply IH in H; [assumption|]. simpl. apply Forall_app. split; [assumption|].
      constructor; [|constructor]. unfold not_retain. simpl. discriminate.
Qed.

Lemma invertAtOps_without_retain (ops : list Operation) (original : Rope) :
  Forall not_retain ops ->
  forall inverted pos,
    invertAtOps ops original inverted pos = invertOps ops original inverted pos.
Proof.
  induction 1 as [|op ops Hop _ IH]; intros inverted pos; simpl; [reflexivity|].
  unfold not_retain in Hop. destruct (opType op) eqn:E; [contradiction| |].
  - destruct (must (rope.Slice original pos (pos + Length op))); simpl;
      [apply IH | reflexivity | reflexivity].
  - apply IH.
Qed.

End InvertAtShape.

(** X5. [InvertAt] never emits a Retain: whatever the changeset and the
    position, the inverse it returns consists of Inserts and Deletes only
    (the Retains of the changeset only move the cursor in the original),
    and its base length is the changeset's [len_after].  On a changeset
    without Retains, [InvertAt] at position 0 is [Invert]. *)
Theorem InvertAt_emits_no_retain (cs : ChangeSet) (original : Rope) :
  (forall pos inv,
      InvertAt cs original pos = Ok inv ->
      Forall (fun op => opType op <> OpRetain) (operations inv) /\
      lenBefore inv = lenAfter cs) /\
  (Forall (fun op => opType op <> OpRetain) (operations cs) ->
   InvertAt cs original 0 = Invert cs original).
Proof.
  split.
  - intros pos inv H. unfold InvertAt in H.
    destruct (invertAtOps (operations cs) original (NewChangeSet (lenAfter cs)) pos)
      as [inv0| |] eqn:E; simpl in H; try discriminate.
    injection H as <-.
    apply invertAtOps_not_retain in E; [|constructor].
    destruct E as [E1 E2]. split; [|exact E2].
    simpl. now apply fuse_ops_not_retain.
  - intros H. unfold InvertAt, Invert.
    now rewrite invertAtOps_without_retain.
Qed.

(** On the input of TestInvert_Basic the inverse [InvertAt] returns at
    position 0 does not restore "hello world". *)
Example InvertAt_gophers :
  (inv <- InvertAt seeds.to_gophers seeds.hello_world 0 ;;
   Ok (operations inv))
  = Ok [mkOp OpInsert 0 (lit "world"); mkOp OpDelete 7 []] /\
  (inv <- InvertAt seeds.to_gophers seeds.hello_world 0 ;;
   modified <- snd (Apply seeds.to_gophers seeds.hello_world) ;;
   text_of (snd (Apply inv modified)))
  = Ok (lit "worldophers").
Proof. split; vm_compute; reflexivity. Qed.

Lemma InvertAt_emits_no_retain_witness :
  (forall pos inv,
      InvertAt seeds.insert_hello Empty pos = Ok inv ->
      Forall (fun op => opType op <> OpRetain) (operations inv) /\
      lenBefore inv = lenAfter seeds.insert_hello) /\
  InvertAt seeds.insert_hello Empty 0 = Invert seeds.insert_hello Empty.
Proof.
  destruct (InvertAt_emits_no_retain seeds.insert_hello Empty) as [H1 H2].
  split; [exact H1|]. apply H2.
  repeat constructor; simpl; discriminate.
Defined.

(* ------------------------------------------------------------------ *)
(** ** Split *)

Section SplitMeaning.

Lemma take_take (n k : Z) (s : gostring) : n <= k -> take n (take k s) = take n s.
Proof.
  unfold take. intros H. rewrite firstn_firstn. f_equal. lia.
Qed.

Lemma drop_take (n k : Z) (s : gostring) :
  0 <= n -> n <= k -> drop n (take k s) = take (k - n) (drop n s).
Proof.
  unfold take, drop. intros H0 H. rewrite skipn_firstn_comm. f_equal. lia.
Qed.

Lemma take_all (n : Z) (s : gostring) : len_runes s <= n -> take n s = s.
Proof. unfold take, len_runes. intros H. apply firstn_all2. lia. Qed.

Lemma drop_all (n : Z) (s : gostring) : len_runes s <= n -> drop n s = [].
Proof. unfold drop, len_runes. intros H. apply skipn_all2. lia. Qed.

Lemma take_nonpos (n : Z) (s : gostring) : n <= 0 -> take n s = [].
Proof. unfold take. intros H. now replace (Z.to_nat n) with 0%nat by lia. Qed.

Lemma drop_nonpos (n : Z) (s : gostring) : n <= 0 -> drop n s = s.
Proof. unfold drop. intros H. now replace (Z.to_nat n) with 0%nat by lia. Qed.

(** The operations [splitLoop] sends to each half depend on the
    operations left, the split point and the cursor only; they mean, on
    the two parts of the text at and after the cursor, what the
    operations left mean on the whole of it. *)
Lemma splitLoop_meaning (pos : Z) (ops : list Operation) :
  forall before after currentPos,
    exists B A,
      operations (fst (splitLoop ops pos before after currentPos))
      = operations before ++ B /\
      operations (snd (splitLoop ops pos before after currentPos))
      = operations after ++ A /\
      lenBefore (fst (splitLoop ops pos before after currentPos))
      = lenBefore before /\
      lenBefore (snd (splitLoop ops pos before after currentPos))
      = lenBefore after /\
      (Forall op_nonneg ops -> currentPos <= pos ->
       (forall t, denote ops t
                  = denote B (take (pos - currentPos) t)
                    ++ denote A (drop (pos - currentPos) t)) /\
       (currentPos = pos -> forall u, denote B u = u)).
Proof.
  induction ops as [|op ops IH]; intros before after c.
  - exists [], []. simpl. rewrite !app_nil_r. repeat split.
    intros t. apply eq_sym, take_drop.
  - simpl. destruct (opType op) eqn:E.
    + (* Retain *)
      destruct (c + Length op <=? pos) eqn:E1;
        [|destruct (c >=? pos) eqn:E2].
      * destruct (IH (Retain before (Length op)) after (c + Length op))
          as [B [A [H1 [H2 [H3 [H4 H5]]]]]].
        exists (mkOp OpRetain (Length op) [] :: B), A.
        rewrite H1, H2, H3, H4. simpl. rewrite <- app_assoc.
        repeat split; try reflexivity.
        -- intros t.
           inversion H as [|? ? Hop Hops]; subst. unfold op_nonneg in Hop.
           rewrite E in Hop. destruct (H5 Hops ltac:(lia)) as [Hd _].
           rewrite Hd, take_take, drop_take by lia.
           rewrite <- app_assoc. f_equal. f_equal.
           ++ f_equal. f_equal. lia.
           ++ f_equal. rewrite <- drop_add by lia. f_equal. lia.
        -- intros -> u. inversion H as [|? ? Hop Hops]; subst.
           unfold op_nonneg in Hop. rewrite E in Hop.
           assert (Length op = 0) by lia.
           destruct (H5 Hops ltac:(lia)) as [_ Hid].
           replace (Length op) with 0 by lia. simpl.
           rewrite drop_0. apply Hid. lia.
      * destruct (IH before (Retain after (Length op)) c)
          as [B [A [H1 [H2 [H3 [H4 H5]]]]]].
        exists B, (mkOp OpRetain (Length op) [] :: A).
        rewrite H1, H2, H3, H4. simpl. rewrite <- app_assoc.
        repeat split; try reflexivity.
        -- intros t.
           inversion H as [|? ? Hop Hops]; subst.
           assert (c = pos) by lia. subst c.
           destruct (H5 Hops ltac:(lia)) as [Hd Hid].
           rewrite Z.sub_diag, take_0, drop_0, (Hid eq_refl). simpl.
           f_equal. rewrite Hd, Z.sub_diag, take_0, drop_0.
           now rewrite (Hid eq_refl).
        -- intros -> u. inversion H as [|? ? Hop Hops]; subst.
           destruct (H5 Hops ltac:(lia)) as [_ Hid]. now apply Hid.
      * destruct (IH (Retain before (pos - c))
                     (Retain after (Length op - (pos - c))) (c + (pos - c)))
          as [B [A [H1 [H2 [H3 [H4 H5]]]]]].
        exists (mkOp OpRetain (pos - c) [] :: B),
               (mkOp OpRetain (Length op - (pos - c)) [] :: A).
        rewrite H1, H2, H3, H4. simpl. rewrite <- !app_assoc.
        repeat split; try reflexivity.
        -- intros t.
           inversion H as [|? ? Hop Hops]; subst.
           destruct (H5 Hops ltac:(lia)) as [Hd Hid].
           rewrite (take_take (pos - c)) by lia.
           rewrite drop_take, Z.sub_diag, take_0 by lia.
           rewrite (Hid ltac:(lia) []). simpl.
           rewrite Hd. replace (pos - (c + (pos - c))) with 0 by lia.
           rewrite take_0, drop_0, (Hid ltac:(lia) []). simpl.
           rewrite app_assoc. f_equal.
           ++ rewrite app_nil_r, <- take_add by lia. f_equal. lia.
           ++ f_equal. rewrite <- drop_add by lia. f_equal. lia.
        -- intros -> u. lia.
    + (* Delete *)
      destruct (c + Length op <=? pos) eqn:E1;
        [|destruct (c >=? pos) eqn:E2].
      * destruct (IH (Delete before (Length op)) after (c + Length op))
          as [B [A [H1 [H2 [H3 [H4 H5]]]]]].
        exists (mkOp OpDelete (Length op) [] :: B), A.
        rewrite H1, H2, H3, H4. simpl. rewrite <- app_assoc.
        repeat split; try reflexivity.
        -- intros t.
           inversion H as [|? ? Hop Hops]; subst. unfold op_nonneg in Hop.
           rewrite E in Hop. destruct (H5 Hops ltac:(lia)) as [Hd _].
           rewrite Hd, drop_take by lia. f_equal.
           ++ f_equal. f_equal. lia.
           ++ f_equal. rewrite <- drop_add by lia. f_equal. lia.
        -- intros -> u. inversion H as [|? ? Hop Hops]; subst.
           unfold op_nonneg in Hop. rewrite E in Hop.
           destruct (H5 Hops ltac:(lia)) as [_ Hid].
           replace (Length op) with 0 by lia. rewrite drop_0. apply Hid. lia.
      * destruct (IH before (Delete after (Length op)) c)
          as [B [A [H1 [H2 [H3 [H4 H5]]]]]].
        exists B, (mkOp OpDelete (Length op) [] :: A).
        rewrite H1, H2, H3, H4. simpl. rewrite <- app_assoc.
        repeat split; try reflexivity.
        -- intros t.
           inversion H as [|? ? Hop Hops]; subst.
           assert (c = pos) by lia. subst c.
           destruct (H5 Hops ltac:(lia)) as [Hd Hid].
           rewrite Z.sub_diag, take_0, drop_0, (Hid eq_refl). simpl.
           rewrite Hd, Z.sub_diag, take_0, drop_0.
           now rewrite (Hid eq_refl).
        -- intros -> u. inversion H as [|? ? Hop Hops]; subst.
           destruct (H5 Hops ltac:(lia)) as [_ Hid]. now apply Hid.
      * destruct (IH (Delete before (pos - c))
                     (Delete after (Length op - (pos - c))) (c + (pos - c)))
          as [B [A [H1 [H2 [H3 [H4 H5]]]]]].
        exists (mkOp OpDelete (pos - c) [] :: B),
               (mkOp OpDelete (Length op - (pos - c)) [] :: A).
        rewrite H1, H2, H3, H4. simpl. rewrite <- !app_assoc.
        repeat split; try reflexivity.
        -- intros t.
           inversion H as [|? ? Hop Hops]; subst.
           destruct (H5 Hops ltac:(lia)) as [Hd Hid].
           rewrite drop_take, Z.sub_diag, take_0 by lia.
           rewrite (Hid ltac:(lia) []). simpl.
           rewrite Hd. replace (pos - (c + (pos - c))) with 0 by lia.
           rewrite take_0, drop_0, (Hid ltac:(lia) []). simpl.
           f_equal. rewrite <- drop_add by lia. f_equal. lia.
        -- intros -> u. lia.
    + (* Insert *)
      destruct (c <? pos) eqn:E1.
      * destruct (IH (Insert before (Text op)) after c)
          as [B [A [H1 [H2 [H3 [H4 H5]]]]]].
        exists (mkOp OpInsert 0 (Text op) :: B), A.
        rewrite H1, H2, H3, H4. simpl. rewrite <- app_assoc.
        repeat split; try reflexivity.
        -- intros t.
           inversion H as [|? ? Hop Hops]; subst.
           destruct (H5 Hops ltac:(lia)) as [Hd _].
           now rewrite Hd, <- app_assoc.
        -- intros -> u. lia.
      * destruct (IH before (Insert after (Text op)) c)
          as [B [A [H1 [H2 [H3 [H4 H5]]]]]].
        exists B, (mkOp OpInsert 0 (Text op) :: A).
        rewrite H1, H2, H3, H4. simpl. rewrite <- app_assoc.
        repeat split; try reflexivity.
        -- intros t.
           inversion H as [|? ? Hop Hops]; subst.
           assert (c = pos) by lia. subst c.
           destruct (H5 Hops ltac:(lia)) as [Hd Hid].
           rewrite Z.sub_diag, take_0, drop_0, (Hid eq_refl). simpl.
           f_equal. rewrite Hd, Z.sub_diag, take_0, drop_0.
           now rewrite (Hid eq_refl).
        -- intros -> u. inversion H as [|? ? Hop Hops]; subst.
           destruct (H5 Hops ltac:(lia)) as [_ Hid]. now apply Hid.
Qed.

End SplitMeaning.

(** X6. [Split] cuts a changeset without changing what it does.  For a
    changeset that satisfies the data-model invariant and a text of its
    base length, applying the first half to the text before [pos] and
    the second half to the text from [pos] on, and joining the results,
    gives what the whole changeset gives on the whole text; this holds
    for every [pos].  Strictly inside the document the halves have base
    lengths [pos] and [len_before - pos]. *)
Theorem Split_preserves_meaning (cs : ChangeSet) (pos : Z) (text : gostring) :
  wf_changeset cs ->
  lenBefore cs = len_runes text ->
  denote (operations (fst (Split cs pos))) (take pos text)
    ++ denote (operations (snd (Split cs pos))) (drop pos text)
  = denote (operations cs) text /\
  (0 < pos < lenBefore cs ->
   lenBefore (fst (Split cs pos)) = pos /\
   lenBefore (snd (Split cs pos)) = lenBefore cs - pos).
Proof.
  intros [Hwf Hcons] Hlen. unfold Split.
  destruct (pos <=? 0) eqn:E0; [|destruct (pos >=? lenBefore cs) eqn:E1].
  - split; [|lia]. simpl. now rewrite take_nonpos, drop_nonpos by lia.
  - split; [|lia]. simpl. rewrite take_all, drop_all by lia. apply app_nil_r.
  - destruct (splitLoop_meaning pos (operations cs) (NewChangeSet pos)
                (NewChangeSet (lenBefore cs - pos)) 0)
      as [B [A [H1 [H2 [H3 [H4 H5]]]]]].
    rewrite H1, H2, H3, H4. simpl. split; [|intros _; split; reflexivity].
    destruct (H5 Hwf ltac:(lia)) as [Hd _].
    rewrite Hd. now rewrite Z.sub_0_r.
Qed.

Lemma Split_preserves_meaning_witness :
  wf_changeset seeds.to_gophers /\
  lenBefore seeds.to_gophers = len_runes (lit "hello world") /\
  denote (operations (fst (Split seeds.to_gophers 8))) (take 8 (lit "hello world"))
    ++ denote (operations (snd (Split seeds.to_gophers 8)))
              (drop 8 (lit "hello world"))
  = denote (operations seeds.to_gophers) (lit "hello world") /\
  (0 < 8 < lenBefore seeds.to_gophers ->
   lenBefore (fst (Split seeds.to_gophers 8)) = 8 /\
   lenBefore (snd (Split seeds.to_gophers 8)) = lenBefore seeds.to_gophers - 8).
Proof.
  assert (Hwf : wf_changeset seeds.to_gophers).
  { split.
    - repeat constructor; unfold op_nonneg; simpl; lia.
    - vm_compute. discriminate. }
  split; [exact Hwf|]. split; [reflexivity|].
  apply (Split_preserves_meaning seeds.to_gophers 8 (lit "hello world") Hwf).
  reflexivity.
Defined.

Example Split_gophers_at_8 :
  operations (fst (Split seeds.to_gophers 8))
  = [mkOp OpRetain 6 []; mkOp OpDelete 2 []] /\
  operations (snd (Split seeds.to_gophers 8))
  = [mkOp OpDelete 3 []; mkOp OpInsert 0 (lit "gophers")].
Proof. split; reflexivity. Qed.

(* ------------------------------------------------------------------ *)
(** ** The lengths of a composition *)

Section ComposeLengths.

Variable posMap : posMapT.





End ComposeLengths.



(* ------------------------------------------------------------------ *)
(** ** The revision tree *)

Import history_queries.

Section HistoryLists.

Lemma len_snoc (revs : list Revision) (rev : Revision) :
  len (revs ++ [rev]) = len revs + 1.
Proof. unfold len. rewrite length_app. simpl. lia. Qed.

Lemma len_nonneg (revs : list Revision) : 0 <= len revs.
Proof. unfold len. lia. Qed.

Lemma length_updateAt (revs : list Revision) (i : nat) f :
  List.length (updateAt revs i f) = List.length revs.
Proof.
  revert i. induction revs as [|rev revs IH]; intros [|i]; simpl;
    try reflexivity. now rewrite IH.
Qed.

Lemma len_updateAt (revs : list Revision) (i : nat) f :
  len (updateAt revs i f) = len revs.
Proof. unfold len. now rewrite length_updateAt. Qed.

Lemma nth_error_updateAt_same (revs : list Revision) (i : nat) f rev :
  nth_error revs i = Some rev ->
  nth_error (updateAt revs i f) i = Some (f rev).
Proof.
  revert i. induction revs as [|x revs IH]; intros [|i]; simpl;
    try discriminate.
  - intros H. now injection H as ->.
  - apply IH.
Qed.

Lemma nth_error_updateAt_other (revs : list Revision) (i j : nat) f :
  i <> j -> nth_error (updateAt revs i f) j = nth_error revs j.
Proof.
  revert i j. induction revs as [|x revs IH]; intros [|i] [|j] H; simpl;
    try reflexivity; try contradiction.
  apply IH. lia.
Qed.

Lemma Forall_updateAt (P : Revision -> Prop) (revs : list Revision) (i : nat) f :
  Forall P revs -> (forall rev, P rev -> P (f rev)) ->
  Forall P (updateAt revs i f).
Proof.
  intros H Hf. revert i.
  induction H as [|x revs Hx Hrevs IH]; intros [|i]; simpl;
    try constructor; auto.
Qed.

Lemma parents_ok_from_updateAt (revs : list Revision) (i : nat) (k n : Z) :
  parents_ok_from k (updateAt revs i (setLastChild n))
  = parents_ok_from k revs.
Proof.
  revert i k. induction revs as [|x revs IH]; intros [|i] k; simpl;
    try reflexivity. now rewrite IH.
Qed.

Lemma parents_ok_from_snoc (revs : list Revision) (rev : Revision) (k : Z) :
  parents_ok_from k (revs ++ [rev])
  = parents_ok_from k revs && parent_ok (k + len revs) rev.
Proof.
  revert k. induction revs as [|x revs IH]; intros k; simpl.
  - unfold len. simpl. rewrite Z.add_0_r. apply andb_true_r.
  - rewrite IH. rewrite <- andb_assoc. f_equal. f_equal. f_equal.
    unfold len. simpl. lia.
Qed.

Lemma parents_ok_from_rebase_1 (revs : list Revision) (k : Z) :
  0 <= k -> parents_ok_from (k + 1) revs = true ->
  parents_ok_from k (map (rebase 1) revs) = true.
Proof.
  revert k. induction revs as [|x revs IH]; intros k Hk; simpl; [trivial|].
  rewrite !andb_true_iff. intros [H1 H2]. split.
  - now apply rebase_by_one_parent_ok.
  - apply IH; [lia | assumption].
Qed.

Lemma parents_ok_from_nth (revs : list Revision) :
  forall k i rev,
    parents_ok_from k revs = true -> nth_error revs i = Some rev ->
    parent_ok (k + Z.of_nat i) rev = true.
Proof.
  induction revs as [|x revs IH]; intros k [|i] rev; simpl; try discriminate.
  - rewrite andb_true_iff. intros [H _] E. injection E as <-.
    now rewrite Z.add_0_r.
  - rewrite andb_true_iff. intros [_ H] E.
    replace (k + Z.pos (Pos.of_succ_nat i)) with ((k + 1) + Z.of_nat i) by lia.
    now apply IH.
Qed.

Lemma index_Ok (revs : list Revision) (i : Z) (rev : Revision) :
  0 <= i -> nth_error revs (Z.to_nat i) = Some rev -> index revs i = Ok rev.
Proof.
  intros Hi H. unfold index. replace (i <? 0) with false by lia. now rewrite H.
Qed.

Lemma prune_within_cap (h : History) :
  maxSize h <= 0 \/ len (revisions h) <= maxSize h -> prune h = h.
Proof.
  intros H. unfold prune.
  destruct (maxSize h <=? 0) eqn:E; [reflexivity|].
  replace (len (revisions h) <=? maxSize h) with true by lia. reflexivity.
Qed.

(** What a commit of a transaction with operations appends. *)
Lemma CommitRevision_Ok (h : History) (t : Transaction) (r : Rope) (now : Z)
    (h' : History) :
  Transaction_IsEmpty t = false ->
  CommitRevision h t r now = Ok h' ->
  exists inv,
    Invert (tx_changeset t) r = Ok inv /\
    let rev := mkRevision (current h) (-1) t (NewTransaction inv now) now in
    let revs := revisions h ++ [rev] in
    h' = prune (mkHistory
                  (if (current h >=? 0) && (current h <? len revs - 1)
                   then updateAt revs (Z.to_nat (current h))
                                 (setLastChild (len revs - 1))
                   else revs)
                  (len revs - 1) (maxSize h)).
Proof.
  intros Hne H. unfold CommitRevision in H. rewrite Hne in H.
  unfold Transaction_Invert in H.
  destruct (Invert (tx_changeset t) r) as [inv| |]; simpl in H;
    try discriminate.
  exists inv. split; [reflexivity|]. simpl. now injection H as <-.
Qed.

End HistoryLists.

(** X8. Commit, undo, redo.  On a history whose [current] is a revision
    (or the root of an empty history) and that has room under its cap, a
    commit of a transaction with operations makes the new revision
    [current]; the following Undo returns the inversion computed against
    the pre-change rope and puts [current] back where it was; the
    following Redo returns the committed transaction and restores the
    history as it was after the commit. *)
Theorem commit_undo_redo (h : History) (t : Transaction) (r : Rope)
    (now : Z) (h1 : History) :
  0 <= current h < len (revisions h) \/ (current h = -1 /\ revisions h = []) ->
  maxSize h <= 0 \/ len (revisions h) < maxSize h ->
  Transaction_IsEmpty t = false ->
  CommitRevision h t r now = Ok h1 ->
  current h1 = len (revisions h) /\
  exists inv h2,
    Invert (tx_changeset t) r = Ok inv /\
    Undo h1 = Ok (h2, Some (NewTransaction inv now)) /\
    current h2 = current h /\
    Redo h2 = Ok (h1, Some t).
Proof.
  intros Hcur Hroom Hne Hcommit.
  destruct (CommitRevision_Ok h t r now h1 Hne Hcommit) as [inv [Hinv Hh1]].
  cbv zeta in Hh1. rewrite len_snoc in Hh1.
  replace (len (revisions h) + 1 - 1) with (len (revisions h)) in Hh1 by lia.
  rewrite prune_within_cap in Hh1.
  2:{ simpl. destruct ((current h >=? 0) && (current h <? len (revisions h)));
      rewrite ?len_updateAt, len_snoc; lia. }
  set (rev := mkRevision (current h) (-1) t (NewTransaction inv now) now) in *.
  pose proof (len_nonneg (revisions h)) as Hn.
  assert (Hnew : forall l, List.length l = List.length (revisions h) ->
            nth_error (l ++ [rev]) (Z.to_nat (len (revisions h))) = Some rev).
  { intros l Hl. unfold len. rewrite Nat2Z.id, nth_error_app2 by lia.
    now rewrite Hl, Nat.sub_diag. }
  destruct Hcur as [Hcur | [Hcur Hnil]].
  - (* current is a revision *)
    replace ((current h >=? 0) && (current h <? len (revisions h)))
      with true in Hh1 by lia.
    destruct (nth_error (revisions h) (Z.to_nat (current h))) as [old|] eqn:Eold.
    2:{ apply nth_error_None in Eold. unfold len in Hcur. lia. }
    assert (Hidx_new :
      nth_error (updateAt (revisions h ++ [rev]) (Z.to_nat (current h))
                          (setLastChild (len (revisions h))))
                (Z.to_nat (len (revisions h))) = Some rev).
    { rewrite nth_error_updateAt_other by lia. now apply Hnew. }
    assert (Hidx_old :
      nth_error (updateAt (revisions h ++ [rev]) (Z.to_nat (current h))
                          (setLastChild (len (revisions h))))
                (Z.to_nat (current h))
      = Some (setLastChild (len (revisions h)) old)).
    { apply nth_error_updateAt_same. rewrite nth_error_app1; [assumption|].
      unfold len in Hcur. lia. }
    subst h1. split; [reflexivity|].
    eexists inv, _. split; [assumption|].
    unfold Undo, Redo. simpl.
    replace (len (revisions h) <? 0) with false by lia.
    rewrite (index_Ok _ _ _ Hn Hidx_new). simpl.
    split; [reflexivity|]. split; [reflexivity|].
    cbn [current revisions maxSize].
    replace (current h =? -1) with false by lia.
    replace (current h >=? len (updateAt (revisions h ++ [rev])
                                  (Z.to_nat (current h))
                                  (setLastChild (len (revisions h)))))
      with false
      by (rewrite len_updateAt, len_snoc; lia).
    rewrite (index_Ok _ (current h) _ ltac:(lia) Hidx_old).
    cbn [bind lastChild setLastChild].
    replace (len (revisions h) <? 0) with false by lia.
    rewrite (index_Ok _ _ _ Hn Hidx_new). reflexivity.
  - (* the root of an empty history *)
    rewrite Hnil in *. rewrite Hcur in *. simpl in Hh1.
    subst h1. split; [reflexivity|].
    eexists inv, _. split; [assumption|].
    unfold Undo, Redo. simpl.
    split; [reflexivity|]. split; [exact Hcur|].
    cbn [current revisions maxSize]. rewrite Hcur. reflexivity.
Qed.

Lemma commit_undo_redo_witness :
  0 <= current branched_history < len (revisions branched_history) /\
  len (revisions branched_history) < maxSize branched_history /\
  exists h1,
    CommitRevision branched_history delete_second (rope.New (lit "ac")) 4
    = Ok h1 /\
    current h1 = len (revisions branched_history) /\
    exists inv h2,
      Invert (tx_changeset delete_second) (rope.New (lit "ac")) = Ok inv /\
      Undo h1 = Ok (h2, Some (NewTransaction inv 4)) /\
      current h2 = current branched_history /\
      Redo h2 = Ok (h1, Some delete_second).
Proof.
  assert (H1 : 0 <= current branched_history
               < len (revisions branched_history))
    by (vm_compute; split; [discriminate | reflexivity]).
  assert (H2 : len (revisions branched_history) < maxSize branched_history)
    by (vm_compute; reflexivity).
  split; [exact H1|]. split; [exact H2|].
  eexists. split; [vm_compute; reflexivity|].
  apply (commit_undo_redo branched_history delete_second
           (rope.New (lit "ac")) 4 _ (or_introl H1) (or_intror H2) eq_refl).
  vm_compute. reflexivity.
Defined.

Section HistorySound.

Lemma rebase_children (n : Z) (revs : list Revision) :
  1 <= n ->
  Forall (fun rev => lastChild rev < n + 1) revs ->
  Forall (fun rev => lastChild rev < n) (map (rebase 1) revs).
Proof.
  intros Hn H. induction H as [|x revs Hx _ IH]; simpl; constructor; auto.
  unfold rebase. simpl. destruct (lastChild x >=? 0) eqn:E; lia.
Qed.

Lemma len_cons (rev : Revision) (revs : list Revision) :
  len (rev :: revs) = len revs + 1.
Proof. unfold len. rewrite length_cons. lia. Qed.

Lemma Forall_nth_error {A} (P : A -> Prop) (l : list A) (i : nat) (x : A) :
  Forall P l -> nth_error l i = Some x -> P x.
Proof.
  intros H E. rewrite Forall_forall in H. apply H. now apply nth_error_In in E.
Qed.

End HistorySound.

(** X9. A history within its cap stays sound under commits.  If
    [current] is -1 or a revision, every parent is -1 or an earlier
    revision, every last child is below the number of revisions, and the
    history does not exceed its cap (or has none), then the same holds
    after [CommitRevision], whether or not the commit prunes the oldest
    revision. *)
Theorem commit_keeps_history_sound (h : History) (t : Transaction)
    (r : Rope) (now : Z) (h' : History) :
  wf_history h ->
  maxSize h <= 0 \/ len (revisions h) <= maxSize h ->
  CommitRevision h t r now = Ok h' ->
  wf_history h' /\
  maxSize h' = maxSize h /\
  (maxSize h' <= 0 \/ len (revisions h') <= maxSize h').
Proof.
  intros [Hcur [Hpar Hchild]] Hcap Hcommit.
  destruct (Transaction_IsEmpty t) eqn:Hne.
  { unfold CommitRevision in Hcommit. rewrite Hne in Hcommit.
    injection Hcommit as <-. repeat split; try assumption; lia. }
  destruct (CommitRevision_Ok h t r now h' Hne Hcommit) as [inv [_ Hh']].
  cbv zeta in Hh'. rewrite len_snoc in Hh'.
  replace (len (revisions h) + 1 - 1) with (len (revisions h)) in Hh' by lia.
  set (n := len (revisions h)) in *.
  set (rev := mkRevision (current h) (-1) t (NewTransaction inv now) now) in *.
  set (revs2 := if (current h >=? 0) && (current h <? n)
                then updateAt (revisions h ++ [rev]) (Z.to_nat (current h))
                              (setLastChild n)
                else revisions h ++ [rev]) in *.
  pose proof (len_nonneg (revisions h)) as Hn. fold n in Hn.
  assert (Hlen2 : len revs2 = n + 1).
  { unfold revs2. destruct ((current h >=? 0) && (current h <? n));
      rewrite ?len_updateAt, len_snoc; reflexivity. }
  assert (Hpar2 : parents_ok_from 0 revs2 = true).
  { unfold revs2. destruct ((current h >=? 0) && (current h <? n));
      rewrite ?parents_ok_from_updateAt, parents_ok_from_snoc;
      unfold no_dangling_parent in Hpar; rewrite Hpar; simpl;
      unfold parent_ok; simpl; fold n; lia. }
  assert (Hchild2 : Forall (fun x => lastChild x < n + 1) revs2).
  { assert (Hbase : Forall (fun x => lastChild x < n + 1) (revisions h ++ [rev])).
    { apply Forall_app. split.
      - unfold children_in_range in Hchild. fold n in Hchild.
        eapply Forall_impl; [|exact Hchild]. simpl. intros; lia.
      - constructor; [simpl; lia | constructor]. }
    unfold revs2. destruct ((current h >=? 0) && (current h <? n));
      [|assumption].
    apply Forall_updateAt; [assumption|]. intros x _. simpl. lia. }
  destruct (Z_le_gt_dec (maxSize h) 0) as [Hmax | Hmax];
    [|destruct (Z_le_gt_dec (n + 1) (maxSize h)) as [Hfit | Hover]].
  - rewrite prune_within_cap in Hh' by (simpl; lia). subst h'. simpl.
    repeat split; simpl; try lia; try assumption.
    unfold children_in_range. simpl. now rewrite Hlen2.
  - rewrite prune_within_cap in Hh' by (simpl; lia). subst h'. simpl.
    repeat split; simpl; try lia; try assumption.
    unfold children_in_range. simpl. now rewrite Hlen2.
  - assert (Hn1 : n = maxSize h) by lia.
    rewrite prune_rebases in Hh' by (simpl; lia). simpl in Hh'.
    rewrite Hlen2 in Hh'.
    replace (n + 1 - maxSize h) with 1 in Hh' by lia.
    destruct revs2 as [|x tl] eqn:Erevs2.
    { unfold len in Hlen2. simpl in Hlen2. lia. }
    simpl in Hh'. simpl in Hpar2. apply andb_true_iff in Hpar2.
    destruct Hpar2 as [_ Hpar2].
    assert (Hlentl : len tl = n).
    { unfold len in *. simpl in Hlen2. lia. }
    assert (Hlenmap : len (map (rebase 1) tl) = n).
    { unfold len in *. now rewrite length_map. }
    subst h'. repeat split; simpl; try lia.
    + unfold no_dangling_parent. simpl.
      apply parents_ok_from_rebase_1; [lia | assumption].
    + unfold children_in_range. simpl. rewrite Hlenmap.
      apply rebase_children; [lia|]. now inversion Hchild2.
Qed.

Lemma commit_keeps_history_sound_witness :
  (wf_history branched_history /\
   len (revisions branched_history) <= maxSize branched_history /\
   exists h',
     CommitRevision branched_history delete_second (rope.New (lit "ac")) 4
     = Ok h' /\
     wf_history h' /\
     maxSize h' = maxSize branched_history /\
     (maxSize h' <= 0 \/ len (revisions h') <= maxSize h')) /\
  (wf_history capped_history /\
   len (revisions capped_history) = maxSize capped_history /\
   exists h',
     CommitRevision capped_history delete_second (rope.New (lit "ab")) 4
     = Ok h' /\
     len (revisions h') = len (revisions capped_history) /\
     wf_history h' /\
     maxSize h' = maxSize capped_history /\
     (maxSize h' <= 0 \/ len (revisions h') <= maxSize h')).
Proof.
  assert (Hb : wf_history branched_history).
  { split; [|split].
    - vm_compute. split; [discriminate | reflexivity].
    - vm_compute. reflexivity.
    - vm_compute. repeat constructor. }
  assert (Hbcap : len (revisions branched_history)
                  <= maxSize branched_history)
    by (vm_compute; discriminate).
  assert (Hc : wf_history capped_history).
  { split; [|split].
    - vm_compute. split; [discriminate | reflexivity].
    - vm_compute. reflexivity.
    - vm_compute. repeat constructor. }
  assert (Hccap : len (revisions capped_history) = maxSize capped_history)
    by reflexivity.
  split.
  - split; [exact Hb|]. split; [exact Hbcap|].
    eexists. split; [vm_compute; reflexivity|].
    apply (commit_keeps_history_sound branched_history delete_second
             (rope.New (lit "ac")) 4 _ Hb (or_intror Hbcap)).
    vm_compute. reflexivity.
  - split; [exact Hc|]. split; [exact Hccap|].
    eexists. split; [vm_compute; reflexivity|].
    split; [reflexivity|].
    apply (commit_keeps_history_sound capped_history delete_second
             (rope.New (lit "ab")) 4 _ Hc
             (or_intror (Z.eq_le_incl _ _ Hccap))).
    vm_compute. reflexivity.
Defined.

(** X10. The queries agree with the moves.  On a sound history,
    [CanRedo] and [AtTip] return without a panic and are each other's
    negation, [Redo] returns a transaction exactly when [CanRedo] says so
    and then lands on a revision, and [Undo] returns a transaction
    exactly when [CanUndo] says so. *)
Theorem queries_agree_with_moves (h : History) :
  wf_history h ->
  exists b,
    CanRedo h = Ok b /\
    AtTip h = Ok (negb b) /\
    (b = true <->
     exists h' t, Redo h = Ok (h', Some t) /\
                  0 <= current h' < len (revisions h')) /\
    (b = false -> Redo h = Ok (h, None)) /\
    (CanUndo h = true <-> exists h' t, Undo h = Ok (h', Some t)) /\
    (CanUndo h = false -> Undo h = Ok (h, None)).
Proof.
  intros [Hcur [Hpar Hchild]].
  pose proof (len_nonneg (revisions h)) as Hn.
  assert (Hundo : (CanUndo h = true <-> exists h' t, Undo h = Ok (h', Some t)) /\
                  (CanUndo h = false -> Undo h = Ok (h, None))).
  { unfold CanUndo, Undo. destruct (current h <? 0) eqn:E.
    - split; [split|].
      + intros H. lia.
      + intros [h' [t H]]. discriminate.
      + reflexivity.
    - destruct (nth_error (revisions h) (Z.to_nat (current h))) as [rev|] eqn:Er.
      2:{ apply nth_error_None in Er. unfold len in Hcur. lia. }
      rewrite (index_Ok _ (current h) _ ltac:(lia) Er). simpl.
      split; [split|].
      + intros _. eexists _, _. reflexivity.
      + intros _. lia.
      + intros H. lia. }
  unfold CanRedo, AtTip, Redo.
  destruct (current h =? -1) eqn:Eroot.
  - exists (len (revisions h) >? 0). split; [reflexivity|].
    split; [f_equal; lia|].
    destruct (revisions h) as [|first rest] eqn:Erevs.
    + split; [|split; [reflexivity | exact Hundo]]. split.
      * intros H. unfold len in H. simpl in H. discriminate.
      * intros [h' [t [H _]]]. discriminate.
    + split; [|split; [|exact Hundo]].
      * split.
        -- intros _. eexists _, _. split; [reflexivity|].
           simpl. rewrite len_cons. pose proof (len_nonneg rest). lia.
        -- intros _. rewrite len_cons. pose proof (len_nonneg rest). lia.
      * rewrite len_cons. pose proof (len_nonneg rest). lia.
  - replace (current h >=? len (revisions h)) with false by lia.
    destruct (nth_error (revisions h) (Z.to_nat (current h))) as [rev|] eqn:Er.
    2:{ apply nth_error_None in Er. unfold len in Hcur. lia. }
    rewrite (index_Ok _ (current h) _ ltac:(lia) Er). simpl.
    exists (lastChild rev >=? 0). split; [reflexivity|].
    split; [f_equal; lia|].
    destruct (lastChild rev <? 0) eqn:Elc.
    + split; [|split; [reflexivity | exact Hundo]]. split.
      * lia.
      * intros [h' [t [H _]]]. discriminate.
    + pose proof (Forall_nth_error _ _ _ _ Hchild Er) as Hlt. simpl in Hlt.
      destruct (nth_error (revisions h) (Z.to_nat (lastChild rev)))
        as [next|] eqn:En.
      2:{ apply nth_error_None in En. unfold len in Hlt. lia. }
      rewrite (index_Ok _ (lastChild rev) _ ltac:(lia) En). simpl.
      split; [|split; [|exact Hundo]].
      * split.
        -- intros _. eexists _, _. split; [reflexivity|]. simpl. lia.
        -- intros _. lia.
      * lia.
Qed.

Lemma queries_agree_with_moves_witness :
  (wf_history branched_history /\
   CanUndo branched_history = true /\
   CanRedo branched_history = Ok false /\
   exists b,
     CanRedo branched_history = Ok b /\
     AtTip branched_history = Ok (negb b) /\
     (b = true <->
      exists h' t, Redo branched_history = Ok (h', Some t) /\
                   0 <= current h' < len (revisions h')) /\
     (b = false -> Redo branched_history = Ok (branched_history, None)) /\
     (CanUndo branched_history = true <->
      exists h' t, Undo branched_history = Ok (h', Some t)) /\
     (CanUndo branched_history = false ->
      Undo branched_history = Ok (branched_history, None))) /\
  (wf_history rewound_history /\
   CanUndo rewound_history = true /\
   CanRedo rewound_history = Ok true /\
   exists b,
     CanRedo rewound_history = Ok b /\
     AtTip rewound_history = Ok (negb b) /\
     (b = true <->
      exists h' t, Redo rewound_history = Ok (h', Some t) /\
                   0 <= current h' < len (revisions h')) /\
     (b = false -> Redo rewound_history = Ok (rewound_history, None)) /\
     (CanUndo rewound_history = true <->
      exists h' t, Undo rewound_history = Ok (h', Some t)) /\
     (CanUndo rewound_history = false ->
      Undo rewound_history = Ok (rewound_history, None))) /\
  (wf_history undone_once /\
   CanUndo undone_once = false /\
   CanRedo undone_once = Ok true /\
   exists b,
     CanRedo undone_once = Ok b /\
     AtTip undone_once = Ok (negb b) /\
     (b = true <->
      exists h' t, Redo undone_once = Ok (h', Some t) /\
                   0 <= current h' < len (revisions h')) /\
     (b = false -> Redo undone_once = Ok (undone_once, None)) /\
     (CanUndo undone_once = true <->
      exists h' t, Undo undone_once = Ok (h', Some t)) /\
     (CanUndo undone_once = false ->
      Undo undone_once = Ok (undone_once, None))).
Proof.
  assert (Hb : wf_history branched_history).
  { split; [|split].
    - vm_compute. split; [discriminate | reflexivity].
    - vm_compute. reflexivity.
    - vm_compute. repeat constructor. }
  assert (Hr : wf_history rewound_history).
  { split; [|split].
    - vm_compute. split; [discriminate | reflexivity].
    - vm_compute. reflexivity.
    - vm_compute. repeat constructor. }
  assert (Hu : wf_history undone_once).
  { split; [|split].
    - vm_compute. split; [discriminate | reflexivity].
    - vm_compute. reflexivity.
    - vm_compute. repeat constructor. }
  split; [|split].
  - split; [exact Hb|]. split; [reflexivity|]. split; [reflexivity|].
    apply (queries_agree_with_moves branched_history Hb).
  - split; [exact Hr|]. split; [reflexivity|]. split; [reflexivity|].
    apply (queries_agree_with_moves rewound_history Hr).
  - split; [exact Hu|]. split; [reflexivity|]. split; [reflexivity|].
    apply (queries_agree_with_moves undone_once Hu).
Defined.

(** X11. Redo from the root goes to revision 0.  When a transaction is
    committed at the root of a history that already has revisions
    (and has room under its cap), the Undo that follows returns to the
    root, and the Redo after it returns the transaction of revision 0
    and makes revision 0 current, not the revision just committed. *)
Theorem redo_from_root_goes_to_revision_0 (h : History) (t : Transaction)
    (r : Rope) (now : Z) (h1 : History) (first : Revision)
    (rest : list Revision) :
  current h = -1 ->
  revisions h = first :: rest ->
  maxSize h <= 0 \/ len (revisions h) < maxSize h ->
  Transaction_IsEmpty t = false ->
  CommitRevision h t r now = Ok h1 ->
  current h1 = len (revisions h) /\
  0 < current h1 /\
  exists u h2 h3,
    Undo h1 = Ok (h2, Some u) /\
    current h2 = -1 /\
    Redo h2 = Ok (h3, Some (transaction first)) /\
    current h3 = 0.
Proof.
  intros Hcur Hrevs Hroom Hne Hcommit.
  destruct (CommitRevision_Ok h t r now h1 Hne Hcommit) as [inv [_ Hh1]].
  cbv zeta in Hh1. rewrite len_snoc in Hh1.
  replace (len (revisions h) + 1 - 1) with (len (revisions h)) in Hh1 by lia.
  replace ((current h >=? 0) && (current h <? len (revisions h)))
    with false in Hh1 by lia.
  rewrite prune_within_cap in Hh1 by (simpl; rewrite len_snoc; lia).
  set (rev := mkRevision (current h) (-1) t (NewTransaction inv now) now) in *.
  pose proof (len_nonneg rest) as Hn.
  assert (Hlen : len (revisions h) = len rest + 1).
  { rewrite Hrevs. unfold len. simpl. lia. }
  subst h1. simpl. split; [reflexivity|]. split; [lia|].
  assert (Hidx : nth_error (revisions h ++ [rev]) (Z.to_nat (len (revisions h)))
                 = Some rev).
  { unfold len. rewrite Nat2Z.id, nth_error_app2 by lia.
    now rewrite Nat.sub_diag. }
  unfold Undo. simpl.
  replace (len (revisions h) <? 0) with false by lia.
  rewrite (index_Ok _ (len (revisions h)) _ ltac:(lia) Hidx). simpl.
  eexists _, _, _. split; [reflexivity|]. split; [exact Hcur|].
  unfold Redo. cbn [current revisions maxSize]. rewrite Hcur. simpl.
  rewrite Hrevs. simpl. split; reflexivity.
Qed.

Lemma redo_from_root_goes_to_revision_0_witness :
  exists first rest h1,
    current undone_once = -1 /\
    revisions undone_once = first :: rest /\
    (maxSize undone_once <= 0 \/
     len (revisions undone_once) < maxSize undone_once) /\
    Transaction_IsEmpty seeds.T1 = false /\
    CommitRevision undone_once seeds.T1 Empty 2 = Ok h1 /\
    current h1 = len (revisions undone_once) /\
    0 < current h1 /\
    exists u h2 h3,
      Undo h1 = Ok (h2, Some u) /\
      current h2 = -1 /\
      Redo h2 = Ok (h3, Some (transaction first)) /\
      current h3 = 0.
Proof.
  assert (Hroom : maxSize undone_once <= 0 \/
                  len (revisions undone_once) < maxSize undone_once).
  { right. vm_compute. reflexivity. }
  eexists _, _, _.
  split; [reflexivity|]. split; [vm_compute; reflexivity|].
  split; [exact Hroom|]. split; [reflexivity|].
  split; [vm_compute; reflexivity|].
  apply (redo_from_root_goes_to_revision_0 undone_once seeds.T1 Empty 2 _ _ _
           eq_refl eq_refl Hroom eq_refl eq_refl).
Defined.

Section PathShape.

Lemma getPathLoop_links (revs : list Revision) :
  parents_ok_from 0 revs = true ->
  forall fuel cur path,
    -1 <= cur < len revs ->
    (Z.to_nat (cur + 1) <= fuel)%nat ->
    linked revs cur path ->
    exists path',
      getPathLoop fuel revs cur path = Some (Ok path') /\
      linked revs (-1) path' /\
      (exists pre, path' = pre ++ path) /\
      (0 <= cur -> exists pre, path' = pre ++ cur :: path) /\
      len_path path' <= cur + 1 + len_path path.
Proof.
  intros Hpar. induction fuel as [|fuel IH]; intros cur path Hcur Hfuel Hlink.
  - assert (cur = -1) by lia. subst cur. simpl.
    exists path. split; [reflexivity|]. split; [assumption|].
    split; [now exists []|]. split; [lia|]. lia.
  - destruct (Z_lt_ge_dec cur 0) as [Hneg | Hpos].
    + assert (cur = -1) by lia. subst cur. simpl.
      exists path. split; [reflexivity|]. split; [assumption|].
      split; [now exists []|]. split; [lia|]. lia.
    + cbn [getPathLoop]. replace (cur >=? 0) with true by lia.
      destruct (nth_error revs (Z.to_nat cur)) as [rev|] eqn:Er.
      2:{ apply nth_error_None in Er. unfold len in Hcur. lia. }
      rewrite (index_Ok _ cur _ ltac:(lia) Er).
      pose proof (parents_ok_from_nth revs 0 _ _ Hpar Er) as Hp.
      unfold parent_ok in Hp. rewrite Z2Nat.id in Hp by lia.
      destruct (IH (parent rev) (cur :: path)) as [path' [Hrun [Hl [Hpre [_ Hlen]]]]].
      * lia.
      * lia.
      * simpl. split; [lia|]. split; [|assumption]. now exists rev.
      * exists path'. split; [exact Hrun|]. split; [exact Hl|].
        destruct Hpre as [pre Hpre]. split; [|split].
        -- exists (pre ++ [cur]). now rewrite <- app_assoc.
        -- intros _. now exists pre.
        -- unfold len_path in *. rewrite length_cons in Hlen. lia.
Qed.

End PathShape.

(** X12. The path is the chain of parents.  On a sound history
    [GetPath] ends within [current + 1] turns of its loop without a
    panic, and its result starts at a revision without parent, goes from
    each revision to one whose parent it is, ends at the current
    revision, and has at most [current + 1] entries; at the root it is
    empty. *)
Theorem GetPath_is_the_parent_chain (h : History) (fuel : nat) :
  wf_history h ->
  (Z.to_nat (current h + 1) <= fuel)%nat ->
  exists path,
    GetPath fuel h = Some (Ok path) /\
    linked (revisions h) (-1) path /\
    (0 <= current h -> exists pre, path = pre ++ [current h]) /\
    (current h < 0 -> path = []) /\
    len_path path <= current h + 1.
Proof.
  intros [Hcur [Hpar _]] Hfuel. unfold GetPath.
  destruct (current h <? 0) eqn:E.
  - exists []. split; [reflexivity|]. split; [exact I|].
    split; [lia|]. split; [reflexivity|]. unfold len_path. simpl. lia.
  - destruct (getPathLoop_links (revisions h) Hpar fuel (current h) []
                Hcur Hfuel I) as [path [Hrun [Hl [_ [Hlast Hlen]]]]].
    exists path. split; [exact Hrun|]. split; [exact Hl|].
    split; [exact Hlast|]. split; [lia|].
    unfold len_path in *. simpl in Hlen. lia.
Qed.

Lemma GetPath_is_the_parent_chain_witness :
  exists h,
    seeds.branched = Ok h /\
    wf_history h /\
    exists path,
      GetPath 3 h = Some (Ok path) /\
      linked (revisions h) (-1) path /\
      (0 <= current h -> exists pre, path = pre ++ [current h]) /\
      (current h < 0 -> path = []) /\
      len_path path <= current h + 1.
Proof.
  eexists. split; [vm_compute; reflexivity|].
  match goal with |- wf_history ?h /\ _ =>
    assert (Hwf : wf_history h)
  end.
  { split; [|split].
    - vm_compute. split; [discriminate | reflexivity].
    - vm_compute. reflexivity.
    - repeat constructor. }
  split; [exact Hwf|].
  apply (GetPath_is_the_parent_chain _ 3%nat Hwf).
  vm_compute. lia.
Defined.

(* ------------------------------------------------------------------ *)
(** ** The position mapper *)

Import position_mapper mapper_measures.

Section MapperLoops.

Lemma AddPosition_fold (ps : list Z) (assoc : Assoc) :
  forall pm,
    fold_left (fun m p => AddPosition m p assoc) ps pm
    = mkPositionMapper (pm_changeset pm)
                       (positions pm ++ positions_of ps assoc)
                       (wordBoundary pm).
Proof.
  induction ps as [|p ps IH]; intros [cs qs wb]; simpl.
  - now rewrite app_nil_r.
  - rewrite IH. simpl. now rewrite <- app_assoc.
Qed.

Lemma applyAssociation_plain (pm : PositionMapper) (p : Z) (assoc : Assoc)
    (oldPos newPos currentPos : Z) :
  wordBoundary pm = None ->
  applyAssociation pm (mkPosition p assoc 0) oldPos newPos currentPos = newPos.
Proof.
  intros Hwb. unfold applyAssociation, applyAfterAssociation. simpl.
  rewrite Hwb. destruct assoc; try reflexivity; lia.
Qed.

Lemma advanceWhile_changeset (pm1 pm2 : PositionMapper) :
  pm_changeset pm1 = pm_changeset pm2 ->
  forall fuel oldPos pos newPos,
    advanceWhile fuel pm1 oldPos pos newPos
    = advanceWhile fuel pm2 oldPos pos newPos.
Proof.
  intros Hcs. induction fuel as [|fuel IH]; intros oldPos pos newPos; simpl;
    rewrite Hcs; [reflexivity|].
  destruct ((pos <? oldPos) && (pos <? lenBefore (pm_changeset pm2)));
    [|reflexivity].
  destruct (operations (pm_changeset pm2)) eqn:Eops; [reflexivity|].
  unfold advanceTo. rewrite Hcs, Eops.
  destruct (advanceToLoop _ _ _ _). apply IH.
Qed.

Lemma mapSortedLoop_assoc (pm1 pm2 : PositionMapper) (a1 a2 : Assoc) :
  pm_changeset pm1 = pm_changeset pm2 ->
  wordBoundary pm1 = None -> wordBoundary pm2 = None ->
  forall fuel ps pos newPos,
    mapSortedLoop fuel pm1 (positions_of ps a1) pos newPos
    = mapSortedLoop fuel pm2 (positions_of ps a2) pos newPos.
Proof.
  intros Hcs Hw1 Hw2 fuel. induction ps as [|p ps IH]; intros pos newPos;
    [reflexivity|].
  cbn [positions_of map mapSortedLoop Pos]. fold (positions_of ps a1).
  fold (positions_of ps a2).
  rewrite (advanceWhile_changeset pm1 pm2 Hcs).
  destruct (advanceWhile fuel pm2 p pos newPos) as [[pos' newPos']|];
    [|reflexivity].
  rewrite IH, !applyAssociation_plain by assumption. reflexivity.
Qed.

Lemma mapSinglePositionLoop_assoc (pm1 pm2 : PositionMapper) (a1 a2 : Assoc)
    (p : Z) :
  wordBoundary pm1 = None -> wordBoundary pm2 = None ->
  forall ops pos newPos,
    mapSinglePositionLoop pm1 ops (mkPosition p a1 0) pos newPos
    = mapSinglePositionLoop pm2 ops (mkPosition p a2 0) pos newPos.
Proof.
  intros Hw1 Hw2. induction ops as [|op ops IH]; intros pos newPos;
    [reflexivity|].
  cbn [mapSinglePositionLoop Pos].
  rewrite !applyAssociation_plain by assumption.
  destruct (opType op).
  - destruct (pos + Length op >=? p); [reflexivity | apply IH].
  - destruct (pos + Length op >=? p); [reflexivity | apply IH].
  - destruct (pos >=? p); [reflexivity | apply IH].
Qed.

Lemma isSortedFrom_assoc (a1 a2 : Assoc) (ps : list Z) :
  forall prev,
    isSortedFrom prev (positions_of ps a1)
    = isSortedFrom prev (positions_of ps a2).
Proof.
  induction ps as [|p ps IH]; intros prev; simpl; [reflexivity|].
  now rewrite IH.
Qed.

Lemma advanceToLoop_stays (ops : list Operation) (target : Z) :
  Forall stays ops ->
  forall pos newPos,
    pos < target -> fst (advanceToLoop ops target pos newPos) = pos.
Proof.
  induction 1 as [|op ops Hop _ IH]; intros pos newPos Hlt; [reflexivity|].
  cbn [advanceToLoop]. destruct Hop as [Hins | Hzero].
  - rewrite Hins. replace (pos >=? target) with false by lia. now apply IH.
  - rewrite Hzero, Z.add_0_r. replace (pos >=? target) with false by lia.
    destruct (opType op); now apply IH.
Qed.

Lemma advanceWhile_stays (pm : PositionMapper) (oldPos pos : Z) :
  Forall stays (operations (pm_changeset pm)) ->
  operations (pm_changeset pm) <> [] ->
  pos < oldPos -> pos < lenBefore (pm_changeset pm) ->
  forall fuel newPos, advanceWhile fuel pm oldPos pos newPos = None.
Proof.
  intros Hstay Hne H1 H2. induction fuel as [|fuel IH]; intros newPos; simpl;
    replace ((pos <? oldPos) && (pos <? lenBefore (pm_changeset pm)))
      with true by lia; [reflexivity|].
  destruct (operations (pm_changeset pm)) as [|op ops] eqn:Eops;
    [congruence|].
  unfold advanceTo. rewrite Eops.
  pose proof (advanceToLoop_stays (op :: ops) oldPos Hstay pos newPos H1) as Hfst.
  destruct (advanceToLoop (op :: ops) oldPos pos newPos) as [pos' newPos'].
  simpl in Hfst. subst pos'. apply IH.
Qed.





End MapperLoops.

(** X13. The association has no effect.  The package-level
    [MapPositions] returns the same positions whatever [Assoc] it is
    given: the mapper it builds has no word boundary and no offsets, and
    [applyAfterAssociation] returns the position it is handed. *)
Theorem MapPositions_ignores_assoc (fuel : nat) (cs : ChangeSet)
    (ps : list Z) (a1 a2 : Assoc) :
  position_mapper.MapPositions fuel cs ps a1
  = position_mapper.MapPositions fuel cs ps a2.
Proof.
  unfold position_mapper.MapPositions. rewrite !AddPosition_fold.
  unfold NewPositionMapper, Map. cbn [positions pm_changeset wordBoundary app].
  destruct ps as [|p ps]; [reflexivity|].
  cbn [positions_of map]. fold (positions_of ps a1). fold (positions_of ps a2).
  unfold isSorted. cbn [positions Pos].
  rewrite (isSortedFrom_assoc a1 a2).
  destruct (isSortedFrom p (positions_of ps a2)).
  - unfold mapSorted. cbn [positions].
    change (mkPosition p a1 0 :: positions_of ps a1)
      with (positions_of (p :: ps) a1).
    change (mkPosition p a2 0 :: positions_of ps a2)
      with (positions_of (p :: ps) a2).
    apply mapSortedLoop_assoc; reflexivity.
  - f_equal. unfold mapUnsorted. cbn [positions].
    change (mkPosition p a1 0 :: positions_of ps a1)
      with (positions_of (p :: ps) a1).
    change (mkPosition p a2 0 :: positions_of ps a2)
      with (positions_of (p :: ps) a2).
    unfold positions_of. rewrite !map_map. apply map_ext. intros q.
    unfold mapSinglePosition. cbn [pm_changeset].
    now apply mapSinglePositionLoop_assoc.
Qed.

(** X14. A changeset that only inserts hangs the sorted mapper.  When
    the changeset has operations but none of them moves the cursor
    (Inserts, or Retains and Deletes of length 0), its base length is
    positive and the first of the sorted positions is positive, the
    inner loop of [mapSorted] makes no progress: [Map] does not return,
    however many turns it is given. *)
Theorem Map_hangs_when_no_operation_moves (pm : PositionMapper)
    (position : Position) (rest : list Position) :
  positions pm = position :: rest ->
  isSorted pm = true ->
  operations (pm_changeset pm) <> [] ->
  Forall stays (operations (pm_changeset pm)) ->
  0 < lenBefore (pm_changeset pm) ->
  0 < Pos position ->
  forall fuel, Map fuel pm = None.
Proof.
  intros Hps Hsorted Hne Hstay Hlen Hpos fuel.
  unfold Map. rewrite Hps, Hsorted. unfold mapSorted. rewrite Hps.
  cbn [mapSortedLoop].
  now rewrite (advanceWhile_stays pm (Pos position) 0 Hstay Hne Hpos Hlen).
Qed.

Lemma Map_hangs_when_no_operation_moves_witness :
  Forall stays (operations seeds.insert_world_after) /\
  0 < lenBefore seeds.insert_world_after /\
  forall fuel,
    Map fuel (AddPosition (NewPositionMapper seeds.insert_world_after) 3
                          AssocBefore) = None.
Proof.
  assert (Hstay : Forall stays (operations seeds.insert_world_after)).
  { simpl. apply Forall_cons; [now left | apply Forall_nil]. }
  split; [exact Hstay|]. split; [reflexivity|].
  apply (Map_hangs_when_no_operation_moves
           (AddPosition (NewPositionMapper seeds.insert_world_after) 3
                        AssocBefore)
           (mkPosition 3 AssocBefore 0) []).
  - reflexivity.
  - reflexivity.
  - discriminate.
  - exact Hstay.
  - reflexivity.
  - reflexivity.
Defined.



(* ------------------------------------------------------------------ *)
(** ** Positions inside a Retain *)

Section InsideRetain.

Lemma weight_nonneg (ops : list Operation) :
  Forall op_nonneg ops -> 0 <= weight ops.
Proof.
  unfold weight. induction 1 as [|x l Hx _ IH]; simpl; [lia|].
  unfold op_nonneg in Hx. unfold len_runes. destruct (opType x); lia.
Qed.

Lemma mapPositionLoop_prefix (p : Z) (assoc : Assoc) (rest : list Operation) :
  forall pre currentPos newPos,
    Forall op_nonneg pre ->
    currentPos + consumed pre < p ->
    mapPositionLoop (pre ++ rest) p assoc currentPos newPos
    = mapPositionLoop rest p assoc (currentPos + consumed pre)
                      (newPos + weight pre).
Proof.
  induction pre as [|x pre IH]; intros currentPos newPos Hnn Hlt.
  - unfold weight. simpl. now rewrite !Z.add_0_r.
  - inversion Hnn as [|? ? Hx Hpre]; subst.
    pose proof (consumed_nonneg pre Hpre) as Hc.
    unfold op_nonneg in Hx. unfold weight in *. simpl in Hlt |- *.
    destruct (opType x).
    + replace (currentPos + Length x >? p) with false by lia.
      replace (currentPos + Length x >=? p) with false by lia.
      rewrite IH by (assumption || lia). f_equal; lia.
    + replace (currentPos + Length x >? p) with false by lia.
      replace (currentPos + Length x >=? p) with false by lia.
      rewrite IH by (assumption || lia). f_equal; lia.
    + replace (currentPos >=? p) with false by lia.
      rewrite IH by (assumption || lia). f_equal; lia.
Qed.

Lemma denote_prefix (pre : list Operation) :
  forall text,
    Forall op_nonneg pre -> consumed pre <= len_runes text ->
    exists D,
      len_runes D = weight pre /\
      forall rest,
        denote (pre ++ rest) text
        = D ++ denote rest (drop (consumed pre) text).
Proof.
  induction pre as [|x pre IH]; intros text Hnn Hlen.
  - exists []. split; [reflexivity|]. intros rest. now rewrite drop_0.
  - inversion Hnn as [|? ? Hx Hpre]; subst.
    pose proof (consumed_nonneg pre Hpre) as Hc.
    unfold op_nonneg in Hx. unfold weight in *. simpl in Hlen |- *.
    destruct (opType x).
    + destruct (IH (drop (Length x) text) Hpre) as [D [HD Hrest]].
      { rewrite len_drop by lia. lia. }
      exists (take (Length x) text ++ D). split.
      * rewrite len_runes_app, len_take by lia. lia.
      * intros rest. rewrite Hrest, <- app_assoc, drop_add by lia.
        reflexivity.
    + destruct (IH (drop (Length x) text) Hpre) as [D [HD Hrest]].
      { rewrite len_drop by lia. lia. }
      exists D. split; [lia|].
      intros rest. rewrite Hrest, drop_add by lia. reflexivity.
    + destruct (IH text Hpre Hlen) as [D [HD Hrest]].
      exists (Text x ++ D). split.
      * rewrite len_runes_app. lia.
      * intros rest. now rewrite Hrest, <- app_assoc.
Qed.

Lemma nth_error_sub (text : gostring) (c n i : Z) :
  0 <= c -> 0 <= i < n ->
  nth_error (take n (drop c text)) (Z.to_nat i)
  = nth_error text (Z.to_nat (c + i)).
Proof.
  intros Hc Hi. unfold take, drop.
  rewrite nth_error_firstn.
  replace (Z.to_nat i <? Z.to_nat n)%nat with true
    by (symmetry; apply Nat.ltb_lt; lia).
  rewrite nth_error_skipn. f_equal. lia.
Qed.

End InsideRetain.

(** X16. A position inside a Retain follows its char.  For a position
    strictly inside the part of the document a Retain keeps, with the
    operations before that Retain well formed, [MapPosition] with
    [AssocBefore] returns the position plus what those operations insert
    minus what they delete, and the char at the new position of the
    edited text is the char at the old position of the original.  With
    [AssocAfter] the same call returns that position plus the whole
    length of the Retain. *)
Theorem MapPosition_inside_a_retain (cs : ChangeSet)
    (pre : list Operation) (op : Operation) (post : list Operation)
    (text : gostring) (p : Z) :
  operations cs = pre ++ op :: post ->
  opType op = OpRetain ->
  Forall op_nonneg pre ->
  lenBefore cs = len_runes text ->
  consumed pre + Length op <= len_runes text ->
  consumed pre < p < consumed pre + Length op ->
  MapPosition cs p AssocBefore = weight pre + (p - consumed pre) /\
  nth_error (denote (operations cs) text)
            (Z.to_nat (MapPosition cs p AssocBefore))
  = nth_error text (Z.to_nat p) /\
  MapPosition cs p AssocAfter = MapPosition cs p AssocBefore + Length op.
Proof.
  intros Hops Hkind Hnn Hbase Hfit Hin.
  pose proof (consumed_nonneg pre Hnn) as Hc.
  pose proof (weight_nonneg pre Hnn) as Hw.
  assert (Hmap : forall assoc,
             MapPosition cs p assoc
             = composition.applyAssociation (weight pre + (p - consumed pre))
                 assoc (consumed pre) (Length op) p).
  { intros assoc. unfold MapPosition.
    replace ((p <? 0) || (p >? lenBefore cs)) with false by lia.
    rewrite Hops, mapPositionLoop_prefix by (assumption || lia).
    cbn [mapPositionLoop]. rewrite Hkind.
    replace (0 + consumed pre + Length op >? p) with true by lia.
    f_equal; lia. }
  rewrite !Hmap. cbn [composition.applyAssociation].
  split; [reflexivity|]. split; [|reflexivity].
  destruct (denote_prefix pre text Hnn ltac:(lia)) as [D [HD Hrest]].
  rewrite Hops, Hrest. cbn [denote]. rewrite Hkind.
  unfold len_runes in HD.
  rewrite nth_error_app2 by lia.
  replace (Z.to_nat (weight pre + (p - consumed pre)) - List.length D)%nat
    with (Z.to_nat (p - consumed pre)) by lia.
  rewrite nth_error_app1.
  - rewrite nth_error_sub by lia. f_equal. lia.
  - pose proof (len_take (Length op) (drop (consumed pre) text)) as Hlt.
    rewrite len_drop in Hlt by lia. unfold len_runes in Hlt at 2. lia.
Qed.

Lemma MapPosition_inside_a_retain_witness :
  MapPosition seeds.to_gophers 3 AssocBefore = 3 /\
  nth_error (denote (operations seeds.to_gophers)
                    (rope.String seeds.hello_world))
            (Z.to_nat (MapPosition seeds.to_gophers 3 AssocBefore))
  = nth_error (rope.String seeds.hello_world) (Z.to_nat 3) /\
  MapPosition seeds.to_gophers 3 AssocAfter
  = MapPosition seeds.to_gophers 3 AssocBefore + 6.
Proof.
  apply (MapPosition_inside_a_retain seeds.to_gophers []
           (mkOp OpRetain 6 []) (tl (operations seeds.to_gophers))
           (rope.String seeds.hello_world) 3).
  - reflexivity.
  - reflexivity.
  - apply Forall_nil.
  - reflexivity.
  - vm_compute. discriminate.
  - vm_compute. split; reflexivity.
Defined.

(* ------------------------------------------------------------------ *)
(** ** Lines *)

Import line_info.

Section Newlines.

Lemma count_newlines_from (s : gostring) :
  forall a,
    fold_left (fun n c => if c =? NEWLINE then n + 1 else n) s a
    = a + count_newlines s.
Proof.
  unfold count_newlines. induction s as [|c s IH]; intros a; simpl; [lia|].
  destruct (c =? NEWLINE).
  - rewrite (IH (a + 1)), (IH 1). lia.
  - rewrite (IH a), (IH 0). lia.
Qed.

Lemma count_newlines_cons (c : rune) (s : gostring) :
  count_newlines (c :: s)
  = (if c =? NEWLINE then 1 else 0) + count_newlines s.
Proof.
  unfold count_newlines at 1. simpl. rewrite count_newlines_from.
  destruct (c =? NEWLINE); lia.
Qed.

Lemma count_newlines_app (a b : gostring) :
  count_newlines (a ++ b) = count_newlines a + count_newlines b.
Proof.
  induction a as [|c a IH]; [reflexivity|].
  simpl app. rewrite !count_newlines_cons, IH. lia.
Qed.

Lemma count_newlines_nonneg (s : gostring) : 0 <= count_newlines s.
Proof.
  induction s as [|c s IH]; [unfold count_newlines; simpl; lia|].
  rewrite count_newlines_cons. destruct (c =? NEWLINE); lia.
Qed.

Lemma ends_with_newline_snoc (a : gostring) (c : rune) :
  ends_with_newline (a ++ [c]) = (c =? NEWLINE).
Proof. unfold ends_with_newline. now rewrite rev_app_distr. Qed.

Lemma ends_with_newline_app (a b : gostring) :
  b <> [] -> ends_with_newline (a ++ b) = ends_with_newline b.
Proof.
  destruct b as [|x b _] using rev_ind; [congruence|]. intros _.
  now rewrite app_assoc, !ends_with_newline_snoc.
Qed.

Lemma ends_with_newline_inv (s : gostring) :
  ends_with_newline s = true -> exists s0, s = s0 ++ [NEWLINE].
Proof.
  destruct s as [|x s _] using rev_ind; [discriminate|].
  rewrite ends_with_newline_snoc. intros H. apply Z.eqb_eq in H. subst x.
  now exists s.
Qed.

Lemma no_newline_no_trailing (l : gostring) :
  count_newlines l = 0 -> ends_with_newline l = false.
Proof.
  destruct l as [|x l _] using rev_ind; [reflexivity|].
  rewrite count_newlines_app, count_newlines_cons, ends_with_newline_snoc.
  pose proof (count_newlines_nonneg l).
  destruct (x =? NEWLINE); [|reflexivity].
  unfold count_newlines at 2. simpl. lia.
Qed.

Lemma len_runes_nil : len_runes [] = 0.
Proof. reflexivity. Qed.

Lemma count_newlines_nil : count_newlines [] = 0.
Proof. reflexivity. Qed.

Lemma len_runes_cons (c : rune) (s : gostring) :
  len_runes (c :: s) = len_runes s + 1.
Proof. unfold len_runes. rewrite length_cons. lia. Qed.

Lemma take_cons (n : Z) (c : rune) (s : gostring) :
  0 < n -> take n (c :: s) = c :: take (n - 1) s.
Proof.
  intros H. unfold take.
  replace (Z.to_nat n) with (S (Z.to_nat (n - 1))) by lia. reflexivity.
Qed.

Lemma nth_after (a : gostring) (c : rune) (b : gostring) :
  nth (Z.to_nat (len_runes a)) (a ++ c :: b) 0 = c.
Proof. unfold len_runes. rewrite Nat2Z.id. apply nth_middle. Qed.

End Newlines.

Section LineLoops.

Lemma LineCount_text (r : Rope) :
  LineCount r = LineCount (rope.New (rope.String r)).
Proof. reflexivity. Qed.

Lemma LineCount_unfold (r : Rope) :
  rope.String r <> [] ->
  LineCount r
  = count_newlines (rope.String r)
    + (if ends_with_newline (rope.String r) then 0 else 1).
Proof.
  intros Hne. unfold LineCount, rope.Length.
  destruct (rope.String r) as [|c s] eqn:E; [congruence|].
  rewrite len_runes_cons. pose proof (len_runes_nonneg s).
  replace (len_runes s + 1 =? 0) with false by lia.
  destruct (ends_with_newline (c :: s)); simpl; lia.
Qed.

Lemma LineCount_empty (r : Rope) : rope.String r = [] -> LineCount r = 0.
Proof. intros E. unfold LineCount, rope.Length. now rewrite E. Qed.

Lemma is_line_in_range (r : Rope) (n : Z) (pre l post : gostring) :
  is_line (rope.String r) n pre l post -> 0 <= n < LineCount r.
Proof.
  intros [Hs [Hn [_ [Hl [Hpost Hex]]]]].
  pose proof (count_newlines_nonneg pre).
  assert (Hne : rope.String r <> []).
  { rewrite Hs. destruct Hex as [Hex | Hex].
    - destruct l; [congruence|]. destruct pre; discriminate.
    - destruct post; [congruence|]. destruct pre; destruct l; discriminate. }
  rewrite (LineCount_unfold r Hne), Hs, !count_newlines_app, Hl.
  destruct Hpost as [-> | [post' ->]].
  - destruct Hex as [Hex | Hex]; [|congruence].
    rewrite app_nil_r, ends_with_newline_app by assumption.
    rewrite (no_newline_no_trailing l Hl).
    unfold count_newlines at 2. simpl. lia.
  - rewrite count_newlines_cons. pose proof (count_newlines_nonneg post').
    replace (NEWLINE =? NEWLINE) with true by reflexivity.
    destruct (ends_with_newline _); lia.
Qed.

Lemma lineStartLoop_found (post : gostring) :
  forall pre i currentLine lineNum,
    count_newlines pre = lineNum - currentLine - 1 ->
    lineStartLoop (pre ++ NEWLINE :: post) i currentLine lineNum
    = Some (i + len_runes pre + 1).
Proof.
  induction pre as [|c pre IH]; intros i cl ln Hcount.
  - simpl. unfold count_newlines in Hcount. simpl in Hcount.
    replace (cl + 1 =? ln) with true by lia.
    unfold len_runes. simpl. f_equal. lia.
  - rewrite count_newlines_cons in Hcount.
    pose proof (count_newlines_nonneg pre).
    simpl app. cbn [lineStartLoop]. rewrite len_runes_cons.
    destruct (c =? NEWLINE).
    + replace (cl + 1 =? ln) with false by lia.
      rewrite IH by lia. f_equal. lia.
    + rewrite IH by lia. f_equal. lia.
Qed.

Lemma CharAt_nth (r : Rope) (i : Z) :
  0 <= i < rope.Length r ->
  rope.CharAt r i = Ok (nth (Z.to_nat i) (rope.String r) 0).
Proof.
  intros H. unfold rope.CharAt, errCharOutOfBounds.
  now replace ((i <? 0) || (i >=? rope.Length r)) with false by lia.
Qed.

Lemma lineEndLoop_found (r : Rope) (post : gostring) :
  post = [] \/ (exists post', post = NEWLINE :: post') ->
  forall l a k,
    rope.String r = a ++ l ++ post ->
    count_newlines l = 0 ->
    k = (List.length l + List.length post)%nat ->
    lineEndLoop k r (len_runes a) = Ok (len_runes a + len_runes l).
Proof.
  intros Hpost. induction l as [|c l IH]; intros a k Hs Hl Hk.
  - simpl in Hs, Hk. destruct Hpost as [-> | [post' ->]].
    + subst k. simpl. unfold rope.Length. rewrite Hs, app_nil_r.
      f_equal. rewrite ?len_runes_cons, ?len_runes_nil. lia.
    + subst k. cbn [List.length lineEndLoop].
      rewrite CharAt_nth.
      2:{ unfold rope.Length. rewrite Hs, len_runes_app, len_runes_cons.
          pose proof (len_runes_nonneg a). pose proof (len_runes_nonneg post').
          lia. }
      rewrite Hs, nth_after. cbn [bind].
      replace (NEWLINE =? NEWLINE) with true by reflexivity.
      f_equal. rewrite ?len_runes_cons, ?len_runes_nil. lia.
  - rewrite count_newlines_cons in Hl. pose proof (count_newlines_nonneg l).
    subst k. cbn [List.length Nat.add lineEndLoop].
    rewrite CharAt_nth.
    2:{ unfold rope.Length. rewrite Hs, len_runes_app. simpl app.
        rewrite len_runes_cons.
        pose proof (len_runes_nonneg a).
        pose proof (len_runes_nonneg (l ++ post)). lia. }
    rewrite Hs. simpl app. rewrite nth_after. cbn [bind].
    destruct (c =? NEWLINE); [lia|].
    replace (len_runes a + 1) with (len_runes (a ++ [c]))
      by (rewrite len_runes_app; reflexivity).
    rewrite (IH (a ++ [c]) _).
    + f_equal. rewrite len_runes_app, len_runes_cons.
      rewrite ?len_runes_cons, ?len_runes_nil. lia.
    + rewrite Hs. simpl. now rewrite <- app_assoc.
    + lia.
    + reflexivity.
Qed.

Lemma LineStart_is_line (r : Rope) (n : Z) (pre l post : gostring) :
  is_line (rope.String r) n pre l post ->
  LineStart r n = Ok (len_runes pre).
Proof.
  intros Hline. pose proof (is_line_in_range r n pre l post Hline) as Hrange.
  destruct Hline as [Hs [Hn [Hpre _]]].
  unfold LineStart.
  replace ((n <? 0) || (n >=? LineCount r)) with false by lia.
  destruct Hpre as [-> | Hpre].
  - rewrite count_newlines_nil in Hn. subst n. reflexivity.
  - destruct (ends_with_newline_inv pre Hpre) as [pre0 ->].
    rewrite count_newlines_app, count_newlines_cons in Hn.
    replace (NEWLINE =? NEWLINE) with true in Hn by reflexivity.
    rewrite count_newlines_nil in Hn.
    pose proof (count_newlines_nonneg pre0).
    replace (n =? 0) with false by lia.
    rewrite Hs, <- app_assoc. simpl app.
    rewrite lineStartLoop_found by lia.
    f_equal. rewrite len_runes_app. rewrite ?len_runes_cons, ?len_runes_nil. lia.
Qed.

Lemma LineEnd_is_line (r : Rope) (n : Z) (pre l post : gostring) :
  is_line (rope.String r) n pre l post ->
  LineEnd r n = Ok (len_runes pre + len_runes l).
Proof.
  intros Hline. pose proof (is_line_in_range r n pre l post Hline) as Hrange.
  pose proof (LineStart_is_line r n pre l post Hline) as Hstart.
  destruct Hline as [Hs [_ [_ [Hl [Hpost _]]]]].
  unfold LineEnd.
  replace ((n <? 0) || (n >=? LineCount r)) with false by lia.
  rewrite Hstart. cbn [bind].
  apply (lineEndLoop_found r post Hpost l pre); try assumption.
  unfold rope.Length. rewrite Hs, !len_runes_app. unfold len_runes. lia.
Qed.

Lemma Line_is_line (r : Rope) (n : Z) (pre l post : gostring) :
  is_line (rope.String r) n pre l post -> Line r n = Ok l.
Proof.
  intros Hline. pose proof (is_line_in_range r n pre l post Hline) as Hrange.
  pose proof (LineStart_is_line r n pre l post Hline) as Hstart.
  pose proof (LineEnd_is_line r n pre l post Hline) as Hend.
  destruct Hline as [Hs _].
  unfold Line.
  replace ((n <? 0) || (n >=? LineCount r)) with false by lia.
  rewrite Hstart, Hend. cbn [bind].
  pose proof (len_runes_nonneg pre). pose proof (len_runes_nonneg l).
  pose proof (len_runes_nonneg post).
  rewrite Slice_String; try lia.
  2:{ unfold rope.Length. rewrite Hs, !len_runes_app. lia. }
  f_equal. unfold sub. rewrite Hs, drop_app_exact by reflexivity.
  apply take_app_exact. lia.
Qed.

Lemma first_line (s : gostring) :
  exists l post,
    s = l ++ post /\ count_newlines l = 0 /\
    (post = [] \/ exists post', post = NEWLINE :: post').
Proof.
  induction s as [|c s [l [post [Hs [Hl Hpost]]]]].
  - exists [], []. repeat split. now left.
  - destruct (c =? NEWLINE) eqn:E.
    + apply Z.eqb_eq in E. subst c. exists [], (NEWLINE :: s).
      repeat split. right. now exists s.
    + exists (c :: l), post. split; [simpl; now rewrite <- Hs|].
      split; [|assumption]. rewrite count_newlines_cons, E. lia.
Qed.

Lemma LineCount_after_newline (l0 s' : gostring) :
  count_newlines l0 = 0 ->
  LineCount (rope.New (l0 ++ NEWLINE :: s'))
  = 1 + LineCount (rope.New s').
Proof.
  intros Hl0. rewrite LineCount_unfold.
  2:{ simpl. destruct l0; discriminate. }
  cbn [rope.String rope.New].
  rewrite count_newlines_app, count_newlines_cons, Hl0.
  replace (NEWLINE =? NEWLINE) with true by reflexivity.
  destruct s' as [|c s'].
  - rewrite ends_with_newline_snoc. rewrite LineCount_empty by reflexivity.
    replace (NEWLINE =? NEWLINE) with true by reflexivity.
    rewrite count_newlines_nil. lia.
  - rewrite (LineCount_unfold (rope.New (c :: s'))) by discriminate.
    cbn [rope.String rope.New].
    replace (l0 ++ NEWLINE :: c :: s') with ((l0 ++ [NEWLINE]) ++ c :: s')
      by (now rewrite <- app_assoc).
    rewrite ends_with_newline_app by discriminate. lia.
Qed.

Lemma LineCount_one_line (l : gostring) :
  count_newlines l = 0 -> LineCount (rope.New l) <= 1.
Proof.
  intros Hl. destruct l as [|c l].
  - rewrite LineCount_empty by reflexivity. lia.
  - rewrite LineCount_unfold by discriminate. cbn [rope.String rope.New].
    rewrite Hl. destruct (ends_with_newline _); lia.
Qed.

Lemma nth_line_exists (n : nat) :
  forall s,
    Z.of_nat n < LineCount (rope.New s) ->
    exists pre l post, is_line s (Z.of_nat n) pre l post.
Proof.
  induction n as [|n IH]; intros s Hn;
    destruct (first_line s) as [l0 [post0 [Hs [Hl0 Hpost0]]]].
  - exists [], l0, post0. repeat split; try assumption; [now left|].
    destruct l0; [|left; discriminate]. destruct post0; [|right; discriminate].
    subst s. rewrite LineCount_empty in Hn by reflexivity. lia.
  - destruct Hpost0 as [-> | [s' ->]].
    + rewrite app_nil_r in Hs. subst s.
      pose proof (LineCount_one_line l0 Hl0). lia.
    + subst s. rewrite LineCount_after_newline in Hn by assumption.
      destruct (IH s' ltac:(lia)) as [pre [l [post Hline]]].
      destruct Hline as [Hs' [Hcount [Hpre [Hl [Hpost Hex]]]]].
      exists (l0 ++ NEWLINE :: pre), l, post. repeat split; try assumption.
      * rewrite Hs', <- app_assoc. reflexivity.
      * rewrite count_newlines_app, count_newlines_cons, Hl0, Hcount.
        replace (NEWLINE =? NEWLINE) with true by reflexivity. lia.
      * right. destruct Hpre as [-> | Hpre].
        -- apply ends_with_newline_snoc.
        -- replace (l0 ++ NEWLINE :: pre) with ((l0 ++ [NEWLINE]) ++ pre)
             by (now rewrite <- app_assoc).
           destruct pre; [discriminate|].
           now rewrite ends_with_newline_app by discriminate.
Qed.

Lemma line_exists (r : Rope) (n : Z) :
  0 <= n < LineCount r ->
  exists pre l post, is_line (rope.String r) n pre l post.
Proof.
  intros Hn. rewrite LineCount_text in Hn.
  destruct (nth_line_exists (Z.to_nat n) (rope.String r) ltac:(lia))
    as [pre [l [post H]]].
  rewrite Z2Nat.id in H by lia. now exists pre, l, post.
Qed.

End LineLoops.

(** X17. [Line], [LineStart] and [LineEnd] find the line.  For every
    line number in range the text splits into the lines before it with
    their newlines, the line itself, which holds no newline, and a rest
    that is empty or starts with the newline ending the line;
    [LineStart] returns the length of the first part, [LineEnd] that
    plus the length of the line, and [Line] the line, without error. *)
Theorem Line_is_the_nth_line (r : Rope) (n : Z) :
  0 <= n < LineCount r ->
  exists pre l post,
    is_line (rope.String r) n pre l post /\
    LineStart r n = Ok (len_runes pre) /\
    LineEnd r n = Ok (len_runes pre + len_runes l) /\
    Line r n = Ok l.
Proof.
  intros Hn. destruct (line_exists r n Hn) as [pre [l [post Hline]]].
  exists pre, l, post. split; [exact Hline|].
  split; [now apply (LineStart_is_line r n pre l post)|].
  split; [now apply (LineEnd_is_line r n pre l post)|].
  now apply (Line_is_line r n pre l post).
Qed.

Lemma Line_is_the_nth_line_witness :
  0 <= 1 < LineCount seeds.three_lines /\
  exists pre l post,
    is_line (rope.String seeds.three_lines) 1 pre l post /\
    LineStart seeds.three_lines 1 = Ok (len_runes pre) /\
    LineEnd seeds.three_lines 1 = Ok (len_runes pre + len_runes l) /\
    Line seeds.three_lines 1 = Ok l.
Proof.
  assert (H : 0 <= 1 < LineCount seeds.three_lines)
    by (vm_compute; split; [discriminate | reflexivity]).
  split; [exact H|].
  apply (Line_is_the_nth_line seeds.three_lines 1 H).
Defined.

Section Columns.

Lemma lineAtCharLoop_count (pos : Z) :
  forall s i lineNum,
    i <= pos + 1 ->
    lineAtCharLoop s i pos lineNum
    = lineNum + count_newlines (take (pos + 1 - i) s).
Proof.
  induction s as [|c s IH]; intros i k Hi.
  - simpl. unfold take. rewrite firstn_nil, count_newlines_nil. lia.
  - cbn [lineAtCharLoop]. destruct (i <=? pos) eqn:E.
    + rewrite IH by lia. rewrite (take_cons (pos + 1 - i)) by lia.
      rewrite count_newlines_cons.
      replace (pos + 1 - i - 1) with (pos + 1 - (i + 1)) by lia.
      destruct (c =? NEWLINE); lia.
    + replace (pos + 1 - i) with 0 by lia.
      rewrite take_0, count_newlines_nil. lia.
Qed.

Lemma LineAtChar_count (r : Rope) (pos : Z) :
  0 < pos <= rope.Length r ->
  LineAtChar r pos = Ok (count_newlines (take (pos + 1) (rope.String r))).
Proof.
  intros H. unfold LineAtChar.
  replace ((pos <? 0) || (pos >? rope.Length r)) with false by lia.
  replace (pos =? 0) with false by lia.
  rewrite lineAtCharLoop_count by lia. f_equal.
  replace (pos + 1 - 0) with (pos + 1) by lia. lia.
Qed.

Lemma split_at (s : gostring) (pos : Z) :
  0 <= pos < len_runes s ->
  exists a b,
    s = a ++ nth (Z.to_nat pos) s 0 :: b /\ len_runes a = pos.
Proof.
  intros H. unfold len_runes in *.
  destruct (nth_split s 0 (n := Z.to_nat pos) ltac:(lia)) as [a [b [Hs Ha]]].
  exists a, b. split; [exact Hs | lia].
Qed.

Lemma last_line_split (a : gostring) :
  exists pre l1,
    a = pre ++ l1 /\ count_newlines l1 = 0 /\
    (pre = [] \/ ends_with_newline pre = true).
Proof.
  induction a as [|x a [pre [l1 [Ha [Hl1 Hpre]]]]] using rev_ind.
  - exists [], []. repeat split. now left.
  - destruct (x =? NEWLINE) eqn:E.
    + exists (a ++ [x]), []. split; [now rewrite app_nil_r|].
      split; [reflexivity|]. right. now rewrite ends_with_newline_snoc.
    + exists pre, (l1 ++ [x]). split; [now rewrite Ha, <- app_assoc|].
      split; [|assumption].
      rewrite count_newlines_app, count_newlines_cons, E, count_newlines_nil.
      lia.
Qed.

Lemma trailing_newline_counts (b : gostring) :
  ends_with_newline b = true -> 1 <= count_newlines b.
Proof.
  intros H. pose proof (count_newlines_nonneg b).
  destruct (Z.eq_dec (count_newlines b) 0) as [E | E]; [|lia].
  rewrite (no_newline_no_trailing b E) in H. discriminate.
Qed.

Lemma LineCount_terminated (r : Rope) :
  ends_with_newline (rope.String r) = true ->
  LineCount r = count_newlines (rope.String r).
Proof.
  intros H. rewrite LineCount_unfold.
  - rewrite H. lia.
  - intros E. rewrite E in H. discriminate.
Qed.

Lemma LineStart_out_of_range (r : Rope) (n : Z) :
  LineCount r <= n -> LineStart r n = Panic "line number out of bounds".
Proof.
  intros H. unfold LineStart.
  now replace ((n <? 0) || (n >=? LineCount r)) with true by lia.
Qed.

End Columns.

(** X18. A newline belongs to the line after it.  [LineAtChar] counts
    the newline at the position itself, so at a newline it returns the
    number of the following line; [ColumnAtChar] there returns -1 when
    text follows the newline and panics when the newline is the last
    char.  [ColumnAtChar] at the end of a text that ends with a newline
    panics as well. *)
Theorem ColumnAtChar_at_a_newline (r : Rope) :
  (forall pos,
      0 < pos < rope.Length r ->
      nth (Z.to_nat pos) (rope.String r) 0 = NEWLINE ->
      LineAtChar r pos
      = Ok (count_newlines (take pos (rope.String r)) + 1) /\
      (pos + 1 < rope.Length r -> ColumnAtChar r pos = Ok (-1)) /\
      (pos + 1 = rope.Length r ->
       ColumnAtChar r pos = Panic "line number out of bounds")) /\
  (ends_with_newline (rope.String r) = true ->
   ColumnAtChar r (rope.Length r) = Panic "line number out of bounds").
Proof.
  split.
  - intros pos Hpos Hnl.
    destruct (split_at (rope.String r) pos ltac:(unfold rope.Length in Hpos; lia))
      as [a [b [Hs Ha]]].
    rewrite Hnl in Hs.
    assert (Htake : take pos (rope.String r) = a).
    { rewrite Hs. now apply take_app_exact. }
    assert (Htake1 : take (pos + 1) (rope.String r) = a ++ [NEWLINE]).
    { rewrite Hs.
      replace (a ++ NEWLINE :: b) with ((a ++ [NEWLINE]) ++ b)
        by (now rewrite <- app_assoc).
      apply take_app_exact. rewrite len_runes_app, len_runes_cons,
        len_runes_nil. lia. }
    assert (Hline : LineAtChar r pos = Ok (count_newlines a + 1)).
    { rewrite LineAtChar_count by lia. rewrite Htake1.
      rewrite count_newlines_app, count_newlines_cons, count_newlines_nil.
      replace (NEWLINE =? NEWLINE) with true by reflexivity.
      f_equal; lia. }
    assert (Hlen : rope.Length r = pos + 1 + len_runes b).
    { unfold rope.Length. rewrite Hs, len_runes_app, len_runes_cons. lia. }
    rewrite Htake. split; [exact Hline|].
    unfold ColumnAtChar.
    replace ((pos <? 0) || (pos >? rope.Length r)) with false by lia.
    rewrite Hline. cbn [bind]. split.
    + intros Hmore.
      destruct (first_line b) as [l [post [Hb [Hl Hpost]]]].
      assert (His : is_line (rope.String r) (count_newlines a + 1)
                            (a ++ [NEWLINE]) l post).
      { repeat split; try assumption.
        - rewrite Hs, Hb, <- app_assoc. reflexivity.
        - rewrite count_newlines_app, count_newlines_cons,
            count_newlines_nil.
          replace (NEWLINE =? NEWLINE) with true by reflexivity. lia.
        - right. apply ends_with_newline_snoc.
        - destruct l; [|left; discriminate].
          destruct post; [|right; discriminate].
          subst b. simpl app in Hlen. rewrite len_runes_nil in Hlen. lia. }
      rewrite (LineStart_is_line r _ _ _ _ His). cbn [bind].
      rewrite len_runes_app, len_runes_cons, len_runes_nil. f_equal; lia.
    + intros Hlast.
      assert (b = []) by (apply len_runes_nil_inv; lia). subst b.
      rewrite LineStart_out_of_range; [reflexivity|].
      rewrite LineCount_terminated; rewrite Hs.
      * rewrite count_newlines_app, count_newlines_cons, count_newlines_nil.
        replace (NEWLINE =? NEWLINE) with true by reflexivity. lia.
      * apply ends_with_newline_snoc.
  - intros Hends.
    destruct (ends_with_newline_inv _ Hends) as [s0 Hs].
    assert (Hlen : rope.Length r = len_runes s0 + 1).
    { unfold rope.Length. rewrite Hs, len_runes_app, len_runes_cons,
        len_runes_nil. lia. }
    pose proof (len_runes_nonneg s0).
    unfold ColumnAtChar.
    replace ((rope.Length r <? 0) || (rope.Length r >? rope.Length r))
      with false by lia.
    rewrite LineAtChar_count by lia.
    rewrite take_all by (unfold rope.Length; lia). cbn [bind].
    rewrite LineStart_out_of_range; [reflexivity|].
    rewrite LineCount_terminated by assumption. lia.
Qed.

Lemma ColumnAtChar_at_a_newline_witness :
  0 < 6 < rope.Length seeds.three_lines /\
  nth (Z.to_nat 6) (rope.String seeds.three_lines) 0 = NEWLINE /\
  LineAtChar seeds.three_lines 6 = Ok 1 /\
  ColumnAtChar seeds.three_lines 6 = Ok (-1).
Proof.
  assert (H1 : 0 < 6 < rope.Length seeds.three_lines)
    by (vm_compute; split; reflexivity).
  assert (H2 : nth (Z.to_nat 6) (rope.String seeds.three_lines) 0 = NEWLINE)
    by reflexivity.
  split; [exact H1|]. split; [exact H2|].
  destruct (ColumnAtChar_at_a_newline seeds.three_lines) as [H _].
  destruct (H 6 H1 H2) as [Hline [Hcol _]].
  split; [exact Hline|]. apply Hcol. vm_compute. reflexivity.
Defined.

(** X19. Line and column round trip.  For a position on a char that is
    not a newline, [LineAtChar] returns the number of the line that
    holds it, [ColumnAtChar] its distance from the start of that line,
    which is below the line's length, and [PositionAtLineCol] of the two
    returns the position. *)
Theorem line_col_round_trip (r : Rope) (p : Z) :
  0 <= p < rope.Length r ->
  nth (Z.to_nat p) (rope.String r) 0 <> NEWLINE ->
  exists line col pre l post,
    is_line (rope.String r) line pre l post /\
    LineAtChar r p = Ok line /\
    ColumnAtChar r p = Ok col /\
    0 <= col < len_runes l /\
    p = len_runes pre + col /\
    PositionAtLineCol r line col = Ok p.
Proof.
  intros Hp Hc.
  destruct (split_at (rope.String r) p ltac:(unfold rope.Length in Hp; lia))
    as [a [b [Hs Ha]]].
  set (c := nth (Z.to_nat p) (rope.String r) 0) in *.
  destruct (last_line_split a) as [pre [l1 [Hsplit [Hl1 Hpre]]]].
  destruct (first_line b) as [l2 [post [Hb [Hl2 Hpost]]]].
  assert (Hcne : (c =? NEWLINE) = false) by (apply Z.eqb_neq; exact Hc).
  assert (His : is_line (rope.String r) (count_newlines pre) pre
                        (l1 ++ c :: l2) post).
  { repeat split; try assumption.
    - rewrite Hs, Hsplit, Hb, <- !app_assoc. reflexivity.
    - rewrite count_newlines_app, count_newlines_cons, Hcne, Hl1, Hl2. lia.
    - left. destruct l1; discriminate. }
  pose proof (is_line_in_range r _ _ _ _ His) as Hrange.
  pose proof (LineStart_is_line r _ _ _ _ His) as Hstart.
  pose proof (LineEnd_is_line r _ _ _ _ His) as Hend.
  pose proof (len_runes_nonneg pre). pose proof (len_runes_nonneg l1).
  pose proof (len_runes_nonneg l2).
  assert (Hpa : p = len_runes pre + len_runes l1).
  { rewrite <- Ha, Hsplit, len_runes_app. reflexivity. }
  assert (Hline : LineAtChar r p = Ok (count_newlines pre)).
  { destruct (Z.eq_dec p 0) as [Hp0 | Hp0].
    - unfold LineAtChar.
      replace ((p <? 0) || (p >? rope.Length r)) with false by lia.
      replace (p =? 0) with true by lia.
      assert (pre = []) by (apply len_runes_nil_inv; lia). subst pre.
      reflexivity.
    - rewrite LineAtChar_count by lia. f_equal.
      replace (take (p + 1) (rope.String r)) with (a ++ [c]).
      + rewrite Hsplit, !count_newlines_app, count_newlines_cons, Hcne,
          Hl1, count_newlines_nil. lia.
      + symmetry. rewrite Hs.
        replace (a ++ c :: b) with ((a ++ [c]) ++ b)
          by (now rewrite <- app_assoc).
        apply take_app_exact.
        rewrite len_runes_app, len_runes_cons, len_runes_nil. lia. }
  exists (count_newlines pre), (len_runes l1), pre, (l1 ++ c :: l2), post.
  split; [exact His|]. split; [exact Hline|]. split; [|split; [|split]].
  - unfold ColumnAtChar.
    replace ((p <? 0) || (p >? rope.Length r)) with false by lia.
    rewrite Hline. cbn [bind]. rewrite Hstart. cbn [bind]. f_equal; lia.
  - rewrite len_runes_app, len_runes_cons. lia.
  - exact Hpa.
  - unfold PositionAtLineCol, lineEndOrZero. rewrite Hstart, Hend.
    cbn [bind]. rewrite len_runes_app, len_runes_cons.
    replace ((len_runes l1 <? 0)
             || (len_runes l1 >?
                 len_runes pre + (len_runes l1 + (len_runes l2 + 1))
                 - len_runes pre)) with false by lia.
    f_equal; lia.
Qed.

Lemma line_col_round_trip_witness :
  exists line col,
    LineAtChar seeds.three_lines 9 = Ok line /\
    ColumnAtChar seeds.three_lines 9 = Ok col /\
    PositionAtLineCol seeds.three_lines line col = Ok 9.
Proof.
  assert (H1 : 0 <= 9 < rope.Length seeds.three_lines)
    by (vm_compute; split; [discriminate | reflexivity]).
  assert (H2 : nth (Z.to_nat 9) (rope.String seeds.three_lines) 0 <> NEWLINE)
    by (vm_compute; discriminate).
  destruct (line_col_round_trip seeds.three_lines 9 H1 H2)
    as [line [col [pre [l [post [_ [Hl [Hc [_ [_ Hp]]]]]]]]]].
  exists line, col. split; [exact Hl|]. split; [exact Hc | exact Hp].
Defined.

Section AllLines.

Lemma is_line_shift (l0 s' : gostring) (i : Z) (pre l post : gostring) :
  count_newlines l0 = 0 ->
  is_line s' i pre l post ->
  is_line (l0 ++ NEWLINE :: s') (i + 1) (l0 ++ NEWLINE :: pre) l post.
Proof.
  intros Hl0 [Hs' [Hcount [Hpre [Hl [Hpost Hex]]]]].
  repeat split; try assumption.
  - rewrite Hs', <- app_assoc. reflexivity.
  - rewrite count_newlines_app, count_newlines_cons, Hl0, Hcount.
    replace (NEWLINE =? NEWLINE) with true by reflexivity. lia.
  - right. destruct Hpre as [-> | Hpre].
    + apply ends_with_newline_snoc.
    + replace (l0 ++ NEWLINE :: pre) with ((l0 ++ [NEWLINE]) ++ pre)
        by (now rewrite <- app_assoc).
      destruct pre; [discriminate|].
      now rewrite ends_with_newline_app by discriminate.
Qed.

Lemma Line_shift (r : Rope) (l0 s' : gostring) (i : Z) :
  rope.String r = l0 ++ NEWLINE :: s' ->
  count_newlines l0 = 0 ->
  0 <= i < LineCount (rope.New s') ->
  Line r (i + 1) = Line (rope.New s') i.
Proof.
  intros Hs Hl0 Hi.
  destruct (line_exists (rope.New s') i Hi) as [pre [l [post His]]].
  rewrite (Line_is_line (rope.New s') i pre l post His).
  apply (Line_is_line r (i + 1) (l0 ++ NEWLINE :: pre) l post).
  rewrite Hs. now apply is_line_shift.
Qed.

Lemma line_numbers_succ (L : nat) :
  line_numbers 0 (Z.of_nat (S L))
  = 0 :: map (fun i => i + 1) (line_numbers 0 (Z.of_nat L)).
Proof.
  rewrite line_numbers_cons by lia. f_equal.
  unfold line_numbers. rewrite map_map.
  replace (Z.to_nat (Z.of_nat (S L) - (0 + 1))) with L by lia.
  replace (Z.to_nat (Z.of_nat L - 0)) with L by lia.
  apply map_ext. intros k. lia.
Qed.

Lemma terminated_after_newline (l0 s' : gostring) :
  terminated (l0 ++ NEWLINE :: s') = l0 ++ NEWLINE :: terminated s'.
Proof.
  unfold terminated at 1.
  destruct (l0 ++ NEWLINE :: s') as [|x xs] eqn:E.
  { destruct l0; discriminate. }
  rewrite <- E. clear E x xs. destruct s' as [|c s'].
  - now rewrite ends_with_newline_snoc.
  - replace (l0 ++ NEWLINE :: c :: s') with ((l0 ++ [NEWLINE]) ++ c :: s')
      by (now rewrite <- app_assoc).
    rewrite ends_with_newline_app by discriminate.
    unfold terminated. destruct (ends_with_newline (c :: s')).
    + now rewrite <- app_assoc.
    + now rewrite <- !app_assoc.
Qed.

Lemma all_lines (L : nat) :
  forall r,
    LineCount r = Z.of_nat L ->
    exists lines,
      map (Line r) (line_numbers 0 (Z.of_nat L)) = map Ok lines /\
      List.length lines = L /\
      Forall (fun l => count_newlines l = 0) lines /\
      unlines lines = terminated (rope.String r).
Proof.
  induction L as [|L IH]; intros r HL.
  - exists []. repeat split; [constructor|].
    destruct (rope.String r) as [|c s] eqn:E; [reflexivity|].
    rewrite LineCount_unfold in HL by (rewrite E; discriminate).
    rewrite E in HL.
    destruct (ends_with_newline (c :: s)) eqn:Eends.
    + pose proof (trailing_newline_counts _ Eends). lia.
    + pose proof (count_newlines_nonneg (c :: s)). lia.
  - destruct (first_line (rope.String r)) as [l0 [post0 [Hs [Hl0 Hpost0]]]].
    rewrite line_numbers_succ. cbn [map]. rewrite map_map.
    destruct Hpost0 as [-> | [s' ->]].
    + rewrite app_nil_r in Hs.
      assert (HL1 : LineCount r <= 1).
      { rewrite LineCount_text, Hs. now apply LineCount_one_line. }
      assert (L = 0%nat) by lia. subst L.
      assert (Hne : l0 <> []).
      { intros ->. rewrite LineCount_empty in HL by assumption. lia. }
      assert (His : is_line (rope.String r) 0 [] l0 []).
      { repeat split; try assumption; try (now left).
        now rewrite app_nil_r. }
      exists [l0]. split; [|split; [|split]].
      * simpl. now rewrite (Line_is_line r 0 [] l0 [] His).
      * reflexivity.
      * now constructor.
      * unfold unlines. simpl. rewrite app_nil_r, Hs. unfold terminated.
        destruct l0 as [|c l0]; [congruence|].
        now rewrite (no_newline_no_trailing (c :: l0) Hl0).
    + assert (HL' : LineCount (rope.New s') = Z.of_nat L).
      { rewrite LineCount_text, Hs, LineCount_after_newline in HL
          by assumption. lia. }
      destruct (IH (rope.New s') HL') as [lines [Hmap [Hlen [Hall Hun]]]].
      assert (His : is_line (rope.String r) 0 [] l0 (NEWLINE :: s')).
      { repeat split; try assumption.
        - now left.
        - right. now exists s'.
        - right. discriminate. }
      exists (l0 :: lines). split; [|split; [|split]].
      * cbn [map]. rewrite (Line_is_line r 0 [] l0 _ His). f_equal.
        rewrite <- Hmap. apply map_ext_in. intros i Hi.
        apply line_numbers_In in Hi.
        apply (Line_shift r l0 s'); [assumption | assumption | lia].
      * simpl. now rewrite Hlen.
      * now constructor.
      * unfold unlines in *. cbn [map List.concat]. rewrite Hun, Hs.
        rewrite terminated_after_newline, <- app_assoc. reflexivity.
Qed.

Lemma collect_Ok (f : Z -> result gostring) :
  forall nums lines,
    map f nums = map Ok lines ->
    collect (map (fun i => (i, f i)) nums) = Ok lines.
Proof.
  induction nums as [|i nums IH]; intros [|l lines] H; try discriminate.
  - reflexivity.
  - simpl in H. injection H as Hi Hrest.
    simpl. rewrite Hi. cbn [bind]. now rewrite (IH lines Hrest).
Qed.

Lemma LineCount_before (pre : gostring) :
  pre = [] \/ ends_with_newline pre = true ->
  LineCount (rope.New pre) = count_newlines pre.
Proof.
  intros [-> | H].
  - reflexivity.
  - now apply LineCount_terminated.
Qed.

Lemma LineCount_without_line (n : Z) (pre l post : gostring) :
  is_line (pre ++ l ++ post) n pre l post ->
  LineCount (rope.New (pre ++ tl post))
  = LineCount (rope.New (pre ++ l ++ post)) - 1.
Proof.
  intros [_ [Hn [Hpre [Hl [Hpost Hex]]]]].
  destruct Hpost as [-> | [post' ->]].
  - destruct Hex as [Hex | Hex]; [|congruence].
    simpl tl. rewrite !app_nil_r, LineCount_before by assumption.
    rewrite LineCount_unfold.
    2:{ simpl. destruct pre; destruct l; try discriminate. congruence. }
    cbn [rope.String rope.New].
    rewrite ends_with_newline_app, (no_newline_no_trailing l Hl)
      by assumption.
    rewrite count_newlines_app. lia.
  - simpl tl. destruct post' as [|c post'].
    + rewrite app_nil_r, LineCount_before by assumption.
      rewrite LineCount_terminated.
      * cbn [rope.String rope.New].
        rewrite !count_newlines_app, count_newlines_cons, count_newlines_nil.
        replace (NEWLINE =? NEWLINE) with true by reflexivity. lia.
      * cbn [rope.String rope.New].
        rewrite app_assoc. apply ends_with_newline_snoc.
    + rewrite !LineCount_unfold.
      2:{ simpl. destruct pre; destruct l; discriminate. }
      2:{ simpl. destruct pre; discriminate. }
      cbn [rope.String rope.New].
      replace (pre ++ l ++ NEWLINE :: c :: post')
        with ((pre ++ l ++ [NEWLINE]) ++ c :: post')
        by (now rewrite <- !app_assoc).
      rewrite !ends_with_newline_app by discriminate.
      rewrite !count_newlines_app, (count_newlines_cons NEWLINE),
        count_newlines_nil.
      replace (NEWLINE =? NEWLINE) with true by reflexivity. lia.
Qed.

End AllLines.

(** X20. [SplitLines] returns the lines, and they give the text back.
    The call ends within [LineCount + 1] calls of [Next] without error;
    it returns [LineCount] lines, none of which holds a newline, and the
    lines, each followed by a newline, are the text, with a newline
    added at its end when it is not empty and has none there. *)
Theorem SplitLines_gives_the_text_back (r : Rope) (fuel : nat) :
  (Z.to_nat (LineCount r) < fuel)%nat ->
  exists lines,
    SplitLines fuel r = Some (Ok lines) /\
    Z.of_nat (List.length lines) = LineCount r /\
    Forall (fun l => count_newlines l = 0) lines /\
    unlines lines = terminated (rope.String r).
Proof.
  intros Hfuel.
  assert (Hcount : 0 <= LineCount r).
  { destruct (rope.String r) as [|c s] eqn:E.
    - rewrite LineCount_empty by assumption. lia.
    - rewrite LineCount_unfold by (rewrite E; discriminate).
      pose proof (count_newlines_nonneg (rope.String r)).
      destruct (ends_with_newline _); lia. }
  destruct (all_lines (Z.to_nat (LineCount r)) r ltac:(lia))
    as [lines [Hmap [Hlen [Hall Hun]]]].
  rewrite Z2Nat.id in Hmap by lia.
  exists lines. split; [|split; [lia | split; assumption]].
  unfold SplitLines, ToSlice. rewrite drain_yields by (simpl; lia).
  cbn [option_map Reset LinesIterator it_rope lineNum totalLines].
  f_equal. replace (-1 + 1) with 0 by lia.
  rewrite <- (collect_Ok (Line r) _ lines Hmap). f_equal.
  apply map_ext_in. intros i Hi. apply line_numbers_In in Hi.
  unfold Current. cbn [lineNum totalLines it_rope].
  now replace ((i <? 0) || (i >=? LineCount r)) with false by lia.
Qed.

Lemma SplitLines_gives_the_text_back_witness :
  exists lines,
    SplitLines 4 seeds.three_lines = Some (Ok lines) /\
    Z.of_nat (List.length lines) = LineCount seeds.three_lines /\
    Forall (fun l => count_newlines l = 0) lines /\
    unlines lines = terminated (rope.String seeds.three_lines).
Proof.
  apply (SplitLines_gives_the_text_back seeds.three_lines 4).
  vm_compute. lia.
Defined.

(** X21. [DeleteLine] removes the line and its newline.  For a line
    number in range the call returns a rope whose text is the lines
    before the line followed by what comes after the newline that ends
    it (for the last line of a text without final newline: the lines
    before it), and the rope has one line less. *)
Theorem DeleteLine_removes_the_line (r : Rope) (n : Z) :
  0 <= n < LineCount r ->
  exists pre l post r',
    is_line (rope.String r) n pre l post /\
    DeleteLine r n = Ok r' /\
    rope.String r' = pre ++ tl post /\
    LineCount r' = LineCount r - 1.
Proof.
  intros Hn. destruct (line_exists r n Hn) as [pre [l [post His]]].
  pose proof (LineStart_is_line r n pre l post His) as Hstart.
  pose proof (LineEnd_is_line r n pre l post His) as Hend.
  pose proof (len_runes_nonneg pre). pose proof (len_runes_nonneg l).
  pose proof (len_runes_nonneg post).
  assert (Hs : rope.String r = pre ++ l ++ post) by apply His.
  assert (Hlen : rope.Length r = len_runes pre + len_runes l + len_runes post).
  { unfold rope.Length. rewrite Hs, !len_runes_app. lia. }
  assert (Hdel : exists r', DeleteLine r n = Ok r' /\
                            rope.String r' = pre ++ tl post).
  { unfold DeleteLine.
    replace ((n <? 0) || (n >=? LineCount r)) with false by lia.
    rewrite Hstart, Hend. cbn [bind].
    destruct His as [_ [_ [_ [_ [Hpost _]]]]].
    destruct Hpost as [-> | [post' ->]].
    - rewrite len_runes_nil in Hlen.
      replace (len_runes pre + len_runes l <? rope.Length r) with false
        by lia.
      cbn [bind].
      destruct (Delete_String r (len_runes pre) (len_runes pre + len_runes l))
        as [r' [Hr' Htext]]; try lia.
      exists r'. split; [exact Hr'|]. rewrite Htext, Hs.
      rewrite take_app_exact by reflexivity.
      rewrite app_nil_r, drop_all by (rewrite len_runes_app; lia).
      reflexivity.
    - rewrite len_runes_cons in Hlen. pose proof (len_runes_nonneg post').
      replace (len_runes pre + len_runes l <? rope.Length r) with true
        by lia.
      rewrite CharAt_nth by lia.
      replace (nth (Z.to_nat (len_runes pre + len_runes l)) (rope.String r) 0)
        with NEWLINE.
      2:{ rewrite Hs, app_assoc, <- len_runes_app. symmetry. apply nth_after. }
      cbn [bind]. replace (NEWLINE =? NEWLINE) with true by reflexivity.
      destruct (Delete_String r (len_runes pre)
                  (len_runes pre + len_runes l + 1))
        as [r' [Hr' Htext]]; try lia.
      exists r'. split; [exact Hr'|]. rewrite Htext, Hs.
      rewrite take_app_exact by reflexivity. f_equal. simpl tl.
      replace (pre ++ l ++ NEWLINE :: post')
        with ((pre ++ l ++ [NEWLINE]) ++ post')
        by (now rewrite <- !app_assoc).
      apply drop_app_exact.
      rewrite !len_runes_app, len_runes_cons, len_runes_nil. lia. }
  destruct Hdel as [r' [Hr' Htext]].
  exists pre, l, post, r'. split; [exact His|]. split; [exact Hr'|].
  split; [exact Htext|].
  rewrite (LineCount_text r'), Htext, (LineCount_text r), Hs.
  apply (LineCount_without_line n). now rewrite <- Hs.
Qed.

Lemma DeleteLine_removes_the_line_witness :
  exists pre l post r',
    is_line (rope.String seeds.three_lines) 1 pre l post /\
    DeleteLine seeds.three_lines 1 = Ok r' /\
    rope.String r' = pre ++ tl post /\
    LineCount r' = LineCount seeds.three_lines - 1.
Proof.
  apply (DeleteLine_removes_the_line seeds.three_lines 1).
  vm_compute. split; [discriminate | reflexivity].
Defined.

(** X22. [LineWithEnding] returns the line without its ending.  For a
    line number in range, [LineLength] is the length of the line without
    its newline, and [LineWithEnding], which slices that many chars from
    the start of the line, returns what [Line] returns; only
    [LineWithEndingLength] counts the newline, when there is one. *)
Theorem LineWithEnding_has_no_ending (r : Rope) (n : Z) :
  0 <= n < LineCount r ->
  exists pre l post,
    is_line (rope.String r) n pre l post /\
    LineLength r n = Ok (len_runes l) /\
    LineWithEnding r n = Ok l /\
    Line r n = Ok l /\
    LineWithEndingLength r n
    = Ok (len_runes l + (match post with [] => 0 | _ :: _ => 1 end)).
Proof.
  intros Hn. destruct (line_exists r n Hn) as [pre [l [post His]]].
  pose proof (LineStart_is_line r n pre l post His) as Hstart.
  pose proof (LineEnd_is_line r n pre l post His) as Hend.
  pose proof (Line_is_line r n pre l post His) as Hline.
  pose proof (len_runes_nonneg pre). pose proof (len_runes_nonneg l).
  pose proof (len_runes_nonneg post).
  assert (Hs : rope.String r = pre ++ l ++ post) by apply His.
  assert (Hlen : rope.Length r = len_runes pre + len_runes l + len_runes post).
  { unfold rope.Length. rewrite Hs, !len_runes_app. lia. }
  assert (Hll : LineLength r n = Ok (len_runes l)).
  { unfold LineLength, lineEndOrZero. rewrite Hstart, Hend. cbn [bind].
    f_equal. lia. }
  exists pre, l, post. split; [exact His|]. split; [exact Hll|].
  split; [|split; [exact Hline|]].
  - unfold LineWithEnding.
    replace ((n <? 0) || (n >=? LineCount r)) with false by lia.
    rewrite Hstart, Hll. cbn [bind].
    rewrite Slice_String by lia. f_equal. unfold sub.
    rewrite Hs, drop_app_exact by reflexivity.
    apply take_app_exact. lia.
  - unfold LineWithEndingLength.
    replace ((n <? 0) || (n >=? LineCount r)) with false by lia.
    rewrite Hstart, Hll. cbn [bind].
    destruct His as [_ [_ [_ [_ [Hpost _]]]]].
    destruct Hpost as [-> | [post' ->]].
    + rewrite len_runes_nil in Hlen.
      replace (len_runes pre + len_runes l <? rope.Length r) with false
        by lia.
      f_equal. lia.
    + rewrite len_runes_cons in Hlen. pose proof (len_runes_nonneg post').
      replace (len_runes pre + len_runes l <? rope.Length r) with true
        by lia.
      rewrite CharAt_nth by lia.
      replace (nth (Z.to_nat (len_runes pre + len_runes l)) (rope.String r) 0)
        with NEWLINE.
      2:{ rewrite Hs, app_assoc, <- len_runes_app. symmetry. apply nth_after. }
      cbn [bind]. replace (NEWLINE =? NEWLINE) with true by reflexivity.
      f_equal. lia.
Qed.

Lemma LineWithEnding_has_no_ending_witness :
  0 <= 0 < LineCount seeds.three_lines /\
  exists l,
    LineWithEnding seeds.three_lines 0 = Ok l /\
    Line seeds.three_lines 0 = Ok l.
Proof.
  assert (H : 0 <= 0 < LineCount seeds.three_lines)
    by (vm_compute; split; [discriminate | reflexivity]).
  split; [exact H|].
  destruct (LineWithEnding_has_no_ending seeds.three_lines 0 H)
    as [pre [l [post [_ [_ [Hwe [Hline _]]]]]]].
  exists l. split; [exact Hwe | exact Hline].
Defined.

(** X23. [AppendLine] and [PrependLine].  On a rope that is not empty,
    and for a text that is not empty and holds no newline, [AppendLine]
    returns the text of the rope, a newline and the new text: the new
    text is the last line, and there are two lines more when the rope
    ended with a newline (an empty line comes between) and one more
    otherwise.  [PrependLine] returns the new text, a newline and the
    text of the rope: the new text is line 0 and there is one line
    more.  [HasTrailingNewline] tells the two cases apart without
    error. *)
Theorem AppendLine_after_a_newline (r : Rope) (t : gostring) :
  rope.String r <> [] ->
  t <> [] ->
  count_newlines t = 0 ->
  HasTrailingNewline r = Ok (ends_with_newline (rope.String r)) /\
  (exists r',
      AppendLine r t = Ok r' /\
      rope.String r' = rope.String r ++ NEWLINE :: t /\
      LineCount r'
      = LineCount r + (if ends_with_newline (rope.String r) then 2 else 1) /\
      Line r' (LineCount r' - 1) = Ok t) /\
  (exists r',
      PrependLine r t = Ok r' /\
      rope.String r' = t ++ NEWLINE :: rope.String r /\
      LineCount r' = LineCount r + 1 /\
      Line r' 0 = Ok t).
Proof.
  intros Hne Ht Hcount.
  remember (rope.String r) as s eqn:Es.
  assert (HL : rope.Length r = len_runes s)
    by (unfold rope.Length; now rewrite Es).
  assert (Hlen : 0 < len_runes s).
  { destruct s as [|c s']; [congruence|].
    rewrite len_runes_cons. pose proof (len_runes_nonneg s'). lia. }
  assert (Hcnt0 : LineCount r
                  = count_newlines s + (if ends_with_newline s then 0 else 1)).
  { rewrite LineCount_unfold by (rewrite <- Es; assumption).
    now rewrite <- Es. }
  pose proof (count_newlines_nonneg s) as Hcs.
  split; [|split].
  - unfold HasTrailingNewline. rewrite HL.
    replace (len_runes s =? 0) with false by lia.
    rewrite CharAt_nth by lia. cbn [bind]. f_equal. rewrite <- Es.
    destruct (exists_last Hne) as [s0 [x Hs0]]. rewrite Hs0.
    rewrite len_runes_app, len_runes_cons, len_runes_nil.
    replace (len_runes s0 + (0 + 1) - 1) with (len_runes s0) by lia.
    now rewrite nth_after, ends_with_newline_snoc.
  - unfold AppendLine. rewrite HL.
    replace (len_runes s =? 0) with false by lia.
    destruct (Insert_String r (len_runes s) (NEWLINE :: t) ltac:(lia))
      as [r' [Hins Htext]].
    rewrite <- Es in Htext.
    rewrite take_all, drop_all, app_nil_r in Htext by lia.
    exists r'. split; [exact Hins|]. split; [exact Htext|].
    assert (Hcnt : LineCount r'
                   = LineCount r + (if ends_with_newline s then 2 else 1)).
    { rewrite (LineCount_unfold r')
        by (rewrite Htext; destruct s; discriminate).
      rewrite Hcnt0, Htext.
      replace (s ++ NEWLINE :: t) with ((s ++ [NEWLINE]) ++ t)
        by (now rewrite <- app_assoc).
      rewrite ends_with_newline_app by assumption.
      rewrite (no_newline_no_trailing t Hcount).
      rewrite !count_newlines_app, count_newlines_cons, count_newlines_nil,
        Hcount.
      replace (NEWLINE =? NEWLINE) with true by reflexivity.
      destruct (ends_with_newline s); lia. }
    split; [exact Hcnt|].
    apply (Line_is_line r' _ (s ++ [NEWLINE]) t []).
    repeat split.
    + rewrite Htext, app_nil_r, <- app_assoc. reflexivity.
    + rewrite Hcnt, Hcnt0.
      rewrite count_newlines_app, count_newlines_cons, count_newlines_nil.
      replace (NEWLINE =? NEWLINE) with true by reflexivity.
      destruct (ends_with_newline s); lia.
    + right. apply ends_with_newline_snoc.
    + exact Hcount.
    + now left.
    + now left.
  - unfold PrependLine. rewrite HL.
    replace (len_runes s =? 0) with false by lia.
    destruct (Insert_String r 0 (t ++ [NEWLINE]) ltac:(lia))
      as [r' [Hins Htext]].
    rewrite <- Es, take_0, drop_0 in Htext. simpl in Htext.
    rewrite <- app_assoc in Htext. simpl in Htext.
    exists r'. split; [exact Hins|]. split; [exact Htext|]. split.
    + rewrite (LineCount_text r'), Htext.
      rewrite LineCount_after_newline by assumption.
      rewrite (LineCount_text r), <- Es. lia.
    + apply (Line_is_line r' 0 [] t (NEWLINE :: s)).
      repeat split.
      * exact Htext.
      * now left.
      * exact Hcount.
      * right. now exists s.
      * now left.
Qed.

Lemma AppendLine_after_a_newline_witness :
  exists r',
    AppendLine (rope.New (lit "a" ++ [NEWLINE])) (lit "b") = Ok r' /\
    LineCount r' = LineCount (rope.New (lit "a" ++ [NEWLINE])) + 2.
Proof.
  destruct (AppendLine_after_a_newline (rope.New (lit "a" ++ [NEWLINE]))
              (lit "b")) as [_ [[r' [Hrun [_ [Hcount _]]]] _]].
  - discriminate.
  - discriminate.
  - reflexivity.
  - exists r'. split; [exact Hrun | exact Hcount].
Defined.

(* ------------------------------------------------------------------ *)
(** ** The optimized readers *)

Import string_optimized.

Section ChunkLoops.






End ChunkLoops.





(** X26. [SplitOff] clamps and never fails.  For every position, also
    one below 0 or beyond the end, the call returns two ropes without
    error: the first holds the chars before the position, the second the
    chars from it on, and together they are the text of the rope. *)
Theorem SplitOff_clamps (r : Rope) (pos : Z) :
  exists l rr,
    SplitOff r pos = Ok (l, rr) /\
    rope.String l = take pos (rope.String r) /\
    rope.String rr = drop pos (rope.String r) /\
    rope.String l ++ rope.String rr = rope.String r.
Proof.
  assert (H : exists l rr,
             SplitOff r pos = Ok (l, rr) /\
             rope.String l = take pos (rope.String r) /\
             rope.String rr = drop pos (rope.String r)).
  { unfold SplitOff. destruct (pos <=? 0) eqn:E0.
    - exists Empty, r. split; [reflexivity|].
      now rewrite take_nonpos, drop_nonpos by lia.
    - destruct (pos >=? rope.Length r) eqn:E1.
      + exists r, Empty. split; [reflexivity|].
        now rewrite take_all, drop_all by (unfold rope.Length in E1; lia).
      + unfold rope.Split, errSplitOutOfBounds.
        replace ((pos <? 0) || (pos >? rope.Length r)) with false by lia.
        destruct (splitNode_String r pos ltac:(lia)) as [Hl Hr].
        destruct (splitNode r pos) as [l rr]. now exists l, rr. }
  destruct H as [l [rr [Hrun [Hl Hr]]]].
  exists l, rr. repeat split; try assumption.
  rewrite Hl, Hr. apply take_drop.
Qed.

(* ------------------------------------------------------------------ *)
(** ** The zero-allocation operations *)

Import zero_alloc.

Section ZeroAllocNodes.

Lemma len_bytes_app (a b : gostring) :
  len_bytes (a ++ b) = len_bytes a + len_bytes b.
Proof.
  unfold len_bytes, utf8_bytes. rewrite flat_map_app, length_app. lia.
Qed.

Lemma Size_String (n : RopeNode) : rope.Size n = len_bytes (rope.String n).
Proof. unfold rope.Size, len_bytes. now rewrite IterBytes_String. Qed.

Lemma consistent_text (n : RopeNode) (len sz : Z) :
  len = len_runes (rope.String n) -> sz = len_bytes (rope.String n) ->
  consistent (mkRope n len sz).
Proof.
  intros -> ->. split; simpl; [reflexivity | now rewrite Size_String].
Qed.

Lemma consistent_inv (r : zero_alloc.Rope) :
  consistent r ->
  length r = len_runes (rope.String (root r)) /\
  size r = len_bytes (rope.String (root r)).
Proof. intros [Hl Hs]. rewrite Size_String in Hs. now split. Qed.

Lemma cut_in_three (s : gostring) (start end_ : Z) :
  0 <= start -> start <= end_ ->
  s = take start s ++ sub s start end_ ++ drop end_ s.
Proof.
  intros H0 H1. unfold sub.
  rewrite <- (take_drop start s) at 1. f_equal.
  rewrite <- (take_drop (end_ - start) (drop start s)) at 1. f_equal.
  rewrite <- drop_add by lia. f_equal. lia.
Qed.

Lemma len_sub (s : gostring) (start end_ : Z) :
  0 <= start -> start <= end_ -> end_ <= len_runes s ->
  len_runes (sub s start end_) = end_ - start.
Proof.
  intros H0 H1 H2. unfold sub. rewrite len_take; [lia|].
  rewrite len_drop by lia. lia.
Qed.

Lemma insertNodeZeroAlloc_String (t : gostring) (node : RopeNode) :
  forall pos,
    0 <= pos <= rope.Length node ->
    rope.String (insertNodeZeroAlloc node pos t)
    = take pos (rope.String node) ++ t ++ drop pos (rope.String node).
Proof.
  induction node as [old | l IHl rr IHr]; intros pos Hpos; simpl.
  - reflexivity.
  - unfold rope.Length in *. simpl in Hpos. rewrite len_runes_app in Hpos.
    pose proof (len_runes_nonneg (rope.String l)).
    destruct (pos <=? len_runes (rope.String l)) eqn:E; simpl.
    + rewrite IHl by lia. rewrite take_app_le, drop_app_le by lia.
      now rewrite <- !app_assoc.
    + rewrite IHr by lia. rewrite take_app_ge, drop_app_ge by lia.
      now rewrite <- !app_assoc.
Qed.

Lemma extractSuffixZeroAlloc_String (node : RopeNode) :
  forall start,
    0 <= start ->
    match extractSuffixZeroAlloc node start with
    | Some n => rope.String n = drop start (rope.String node)
    | None => drop start (rope.String node) = []
    end.
Proof.
  induction node as [old | l IHl rr IHr]; intros start Hstart; simpl.
  - destruct (start =? 0) eqn:E0.
    + apply Z.eqb_eq in E0. subst start. now rewrite drop_0.
    + destruct (start >=? len_runes old) eqn:E1; [|reflexivity].
      apply drop_all. lia.
  - unfold rope.Length.
    destruct (start <? len_runes (rope.String l)) eqn:E.
    + specialize (IHl start Hstart).
      rewrite drop_app_le by lia.
      destruct (extractSuffixZeroAlloc l start); simpl; now rewrite IHl.
    + specialize (IHr (start - len_runes (rope.String l)) ltac:(lia)).
      now rewrite drop_app_ge by lia.
Qed.

Lemma extractPrefixZeroAlloc_String (node : RopeNode) :
  forall end_,
    0 <= end_ ->
    match extractPrefixZeroAlloc node end_ with
    | Some n => rope.String n = take end_ (rope.String node)
    | None => take end_ (rope.String node) = []
    end.
Proof.
  induction node as [old | l IHl rr IHr]; intros end_ Hend; simpl.
  - destruct (end_ >=? len_runes old) eqn:E0.
    + now rewrite take_all by lia.
    + destruct (end_ =? 0) eqn:E1; [|reflexivity].
      apply take_nonpos. lia.
  - unfold rope.Length.
    destruct (end_ <=? len_runes (rope.String l)) eqn:E.
    + specialize (IHl end_ Hend). now rewrite take_app_le by lia.
    + specialize (IHr (end_ - len_runes (rope.String l)) ltac:(lia)).
      rewrite take_app_ge by lia.
      destruct (extractPrefixZeroAlloc rr _); simpl; rewrite IHr;
        [reflexivity | now rewrite app_nil_r].
Qed.

Lemma deleteMergeZeroAlloc_String (l rr : RopeNode) (start e : Z) :
  0 <= start < rope.Length l -> 0 <= e ->
  exists n,
    deleteMergeZeroAlloc l start rr e = Some n /\
    rope.String n
    = drop start (rope.String l) ++ take e (rope.String rr).
Proof.
  intros Hstart He. unfold deleteMergeZeroAlloc.
  pose proof (extractSuffixZeroAlloc_String l start ltac:(lia)) as Hl.
  pose proof (extractPrefixZeroAlloc_String rr e He) as Hr.
  assert (Hlen : len_runes (drop start (rope.String l))
                 = rope.Length l - start).
  { apply len_drop. unfold rope.Length in Hstart. lia. }
  destruct (extractSuffixZeroAlloc l start) as [lp|].
  2:{ rewrite Hl, len_runes_nil in Hlen. lia. }
  unfold rope.Length at 1. rewrite Hl, Hlen.
  replace (rope.Length l - start =? 0) with false by lia.
  destruct (extractPrefixZeroAlloc rr e) as [rp|].
  - destruct (rope.Length rp =? 0) eqn:E.
    + exists lp. split; [reflexivity|].
      apply Z.eqb_eq, len_runes_nil_inv in E.
      now rewrite <- Hr, E, app_nil_r.
    + exists (InternalNode lp rp). split; [reflexivity|].
      simpl. now rewrite Hl, Hr.
  - exists lp. split; [reflexivity|]. now rewrite Hr, app_nil_r.
Qed.

Lemma deleteNodeZeroAlloc_inside (node : RopeNode) :
  forall start end_,
    inside_one_leaf node start end_ ->
    0 <= start -> start < end_ -> end_ <= rope.Length node ->
    exists n,
      deleteNodeZeroAlloc node start end_ = Ok (Some n) /\
      rope.String n
      = take start (rope.String node) ++ drop end_ (rope.String node).
Proof.
  induction node as [old | l IHl rr IHr]; intros start end_ Hin H0 H1 H2.
  - eexists. split; [reflexivity|]. simpl.
    replace (Z.max 0 start) with start by lia.
    now replace (start + Z.max 0 (end_ - start)) with end_ by lia.
  - cbn [deleteNodeZeroAlloc]. unfold rope.Length in *. simpl in H2.
    rewrite len_runes_app in H2.
    pose proof (len_runes_nonneg (rope.String l)).
    simpl in Hin. unfold rope.Length in Hin.
    destruct Hin as [[Hle Hin] | [Hge Hin]].
    + replace (end_ <=? len_runes (rope.String l)) with true by lia.
      destruct (IHl start end_ Hin H0 H1 Hle) as [nl [Hrun Htext]].
      rewrite Hrun. cbn [bind].
      assert (Hgoal : rope.String nl ++ rope.String rr
                      = take start (rope.String l ++ rope.String rr)
                        ++ drop end_ (rope.String l ++ rope.String rr)).
      { rewrite Htext, take_app_le, drop_app_le by lia.
        now rewrite <- app_assoc. }
      destruct (len_runes (rope.String nl) =? 0) eqn:E.
      * exists rr. split; [reflexivity|].
        apply Z.eqb_eq, len_runes_nil_inv in E. simpl.
        now rewrite <- Hgoal, E.
      * exists (InternalNode nl rr). split; [reflexivity | exact Hgoal].
    + replace (end_ <=? len_runes (rope.String l)) with false by lia.
      replace (start >=? len_runes (rope.String l)) with true by lia.
      destruct (IHr (start - len_runes (rope.String l))
                    (end_ - len_runes (rope.String l)) Hin
                    ltac:(lia) ltac:(lia) ltac:(lia)) as [nr [Hrun Htext]].
      rewrite Hrun. cbn [bind].
      assert (Hgoal : rope.String l ++ rope.String nr
                      = take start (rope.String l ++ rope.String rr)
                        ++ drop end_ (rope.String l ++ rope.String rr)).
      { rewrite Htext, take_app_ge, drop_app_ge by lia.
        now rewrite <- app_assoc. }
      destruct (len_runes (rope.String nr) =? 0) eqn:E.
      * exists l. split; [reflexivity|].
        apply Z.eqb_eq, len_runes_nil_inv in E. simpl.
        now rewrite <- Hgoal, E, app_nil_r.
      * exists (InternalNode l nr). split; [reflexivity | exact Hgoal].
Qed.

Lemma deleted_fields (r : zero_alloc.Rope) (start end_ : Z) :
  consistent r -> 0 <= start -> start < end_ -> end_ <= length r ->
  must (rope.Slice (root r) start end_)
  = Ok (sub (rope.String (root r)) start end_) /\
  len_runes (sub (rope.String (root r)) start end_) = end_ - start.
Proof.
  intros Hcons H0 H1 H2. destruct (consistent_inv r Hcons) as [Hlen _].
  split.
  - rewrite Slice_String by (unfold rope.Length; lia). reflexivity.
  - apply len_sub; lia.
Qed.

End ZeroAllocNodes.

(** X27. [InsertZeroAlloc] inserts the text.  On a rope whose cached
    length and size agree with its tree, and for a position from 0 to
    the length, the call returns a rope whose text is the text before
    the position, the inserted text and the text from the position on;
    the cached fields of the result agree with its tree, and the text is
    the one [Insert] produces. *)
Theorem InsertZeroAlloc_inserts (r : zero_alloc.Rope) (pos : Z)
    (t : gostring) :
  consistent r ->
  0 <= pos <= length r ->
  exists r',
    InsertZeroAlloc r pos t = Ok r' /\
    rope.String (root r')
    = take pos (rope.String (root r)) ++ t ++ drop pos (rope.String (root r)) /\
    consistent r' /\
    text_of (rope.Insert (root r) pos t) = Ok (rope.String (root r')).
Proof.
  intros Hcons Hpos. destruct (consistent_inv r Hcons) as [Hlen Hsize].
  set (s := rope.String (root r)) in *.
  assert (Hmain : exists r',
             InsertZeroAlloc r pos t = Ok r' /\
             rope.String (root r') = take pos s ++ t ++ drop pos s /\
             consistent r').
  { unfold InsertZeroAlloc.
    replace ((pos <? 0) || (pos >? length r)) with false by lia.
    destruct t as [|c t'].
    - exists r. split; [reflexivity|]. split; [|exact Hcons].
      fold s. simpl. now rewrite take_drop.
    - set (t := c :: t') in *.
      assert (Hfields : forall n,
                 rope.String n = take pos s ++ t ++ drop pos s ->
                 consistent (mkRope n (length r + len_runes t)
                                    (size r + len_bytes t))).
      { intros n Hn. apply consistent_text; rewrite Hn.
        - rewrite !len_runes_app, Hlen.
          rewrite <- (take_drop pos s) at 1. rewrite len_runes_app. lia.
        - rewrite !len_bytes_app, Hsize.
          rewrite <- (take_drop pos s) at 1. rewrite len_bytes_app. lia. }
      destruct (pos =? 0) eqn:E0.
      + apply Z.eqb_eq in E0. subst pos. eexists. split; [reflexivity|].
        unfold PrependZeroAlloc. fold t. rewrite take_0, drop_0.
        destruct (length r =? 0) eqn:El.
        * apply Z.eqb_eq in El.
          assert (Hs : s = []) by (apply len_runes_nil_inv; lia).
          split; [simpl; now rewrite Hs, app_nil_r|].
          now apply consistent_text.
        * split; [reflexivity|]. apply Hfields.
          now rewrite take_0, drop_0.
      + destruct (pos =? length r) eqn:E1.
        * apply Z.eqb_eq in E1. eexists. split; [reflexivity|].
          unfold AppendZeroAlloc. fold t.
          rewrite take_all, drop_all by lia.
          destruct (length r =? 0) eqn:El; [lia|].
          split; [simpl; fold s; now rewrite app_nil_r|].
          apply Hfields. rewrite take_all, drop_all by lia.
          simpl. fold s. now rewrite app_nil_r.
        * eexists. split; [reflexivity|].
          assert (Hn : rope.String (insertNodeZeroAlloc (root r) pos t)
                       = take pos s ++ t ++ drop pos s).
          { apply insertNodeZeroAlloc_String. unfold rope.Length. fold s.
            lia. }
          split; [exact Hn | now apply Hfields]. }
  destruct Hmain as [r' [Hrun [Htext Hcons']]].
  exists r'. split; [exact Hrun|]. split; [exact Htext|].
  split; [exact Hcons'|].
  destruct (Insert_String (root r) pos t) as [r'' [Hins Hins_text]].
  { unfold rope.Length. fold s. lia. }
  unfold text_of. rewrite Hins. cbn [bind]. now rewrite Hins_text, Htext.
Qed.

Lemma InsertZeroAlloc_inserts_witness :
  exists r',
    InsertZeroAlloc (zero_alloc.New (lit "hello world")) 5 (lit ",") = Ok r' /\
    rope.String (root r')
    = take 5 (lit "hello world") ++ lit "," ++ drop 5 (lit "hello world") /\
    consistent r' /\
    text_of (rope.Insert (rope.New (lit "hello world")) 5 (lit ","))
    = Ok (rope.String (root r')).
Proof.
  apply (InsertZeroAlloc_inserts (zero_alloc.New (lit "hello world")) 5
           (lit ",")).
  - now apply consistent_text.
  - vm_compute. split; discriminate.
Defined.

(** X28. [DeleteZeroAlloc] inside one leaf removes the range.  When the
    range lies within one leaf (at every node on the way down it is on
    one side), the call returns a root whose text is the text without
    the range, the cached length and size it sets agree with that root,
    and the text is the one [Delete] produces. *)
Theorem DeleteZeroAlloc_inside_one_leaf (r : zero_alloc.Rope)
    (start end_ : Z) :
  consistent r ->
  0 <= start -> start < end_ -> end_ <= length r ->
  inside_one_leaf (root r) start end_ ->
  exists n d,
    DeleteZeroAlloc r start end_ = Ok d /\
    newRoot d = Some n /\
    rope.String n
    = take start (rope.String (root r)) ++ drop end_ (rope.String (root r)) /\
    consistent (mkRope n (newLength d) (newSize d)) /\
    text_of (rope.Delete (root r) start end_) = Ok (rope.String n).
Proof.
  intros Hcons H0 H1 H2 Hin.
  destruct (consistent_inv r Hcons) as [Hlen Hsize].
  destruct (deleted_fields r start end_ Hcons H0 H1 H2) as [Hslice Hdel].
  destruct (deleteNodeZeroAlloc_inside (root r) start end_ Hin H0 H1)
    as [n [Hrun Htext]]; [unfold rope.Length; lia|].
  eexists n, _. split.
  { unfold DeleteZeroAlloc.
    replace ((start <? 0) || (end_ >? length r) || (start >? end_))
      with false by lia.
    replace (start =? end_) with false by lia.
    rewrite Hslice. cbn [bind]. rewrite Hrun. cbn [bind]. reflexivity. }
  cbn [newRoot newLength newSize].
  split; [reflexivity|]. split; [exact Htext|]. split.
  - pose proof (cut_in_three (rope.String (root r)) start end_ H0
                  ltac:(lia)) as Hcut.
    apply consistent_text; rewrite Htext.
    + rewrite Hdel, Hlen. rewrite Hcut at 1.
      rewrite !len_runes_app, Hdel. lia.
    + rewrite Hsize. rewrite Hcut at 1. rewrite !len_bytes_app. lia.
  - destruct (Delete_String (root r) start end_) as [r' [Hd Hd_text]];
      try (unfold rope.Length; lia).
    unfold text_of. rewrite Hd. cbn [bind]. now rewrite Hd_text, Htext.
Qed.

Lemma DeleteZeroAlloc_inside_one_leaf_witness :
  exists n d,
    DeleteZeroAlloc (zero_alloc.New (lit "hello world")) 5 11 = Ok d /\
    newRoot d = Some n /\
    rope.String n
    = take 5 (lit "hello world") ++ drop 11 (lit "hello world") /\
    consistent (mkRope n (newLength d) (newSize d)) /\
    text_of (rope.Delete (rope.New (lit "hello world")) 5 11)
    = Ok (rope.String n).
Proof.
  apply (DeleteZeroAlloc_inside_one_leaf (zero_alloc.New (lit "hello world"))
           5 11).
  - now apply consistent_text.
  - lia.
  - lia.
  - vm_compute. discriminate.
  - exact I.
Defined.

(** X29. [DeleteZeroAlloc] across the two subtrees keeps what it should
    delete.  When the range starts in the left subtree of the root and
    ends in the right one, [deleteMergeZeroAlloc] joins the suffix of
    the left subtree from [start] and the prefix of the right one up to
    [end]: the new root holds exactly the chars of the range, while the
    length the call records is that of the text without them. *)
Theorem DeleteZeroAlloc_across_subtrees (r : zero_alloc.Rope)
    (l rr : RopeNode) (start end_ : Z) :
  root r = InternalNode l rr ->
  consistent r ->
  0 <= start < rope.Length l ->
  rope.Length l < end_ <= length r ->
  exists n d,
    DeleteZeroAlloc r start end_ = Ok d /\
    newRoot d = Some n /\
    rope.String n = sub (rope.String (root r)) start end_ /\
    rope.Length n = end_ - start /\
    newLength d = length r - (end_ - start).
Proof.
  intros Hroot Hcons Hstart Hend.
  destruct (consistent_inv r Hcons) as [Hlen _].
  destruct (deleted_fields r start end_ Hcons ltac:(lia) ltac:(lia)
              ltac:(lia)) as [Hslice Hdel].
  destruct (deleteMergeZeroAlloc_String l rr start (end_ - rope.Length l)
              Hstart ltac:(lia)) as [n [Hrun Htext]].
  assert (Hsub : rope.String n = sub (rope.String (root r)) start end_).
  { rewrite Htext, Hroot. simpl. unfold sub. unfold rope.Length in *.
    rewrite drop_app_le by lia.
    rewrite take_app_ge by (rewrite len_drop by lia; lia).
    rewrite len_drop by lia. f_equal. f_equal. lia. }
  eexists n, _. split.
  { unfold DeleteZeroAlloc.
    replace ((start <? 0) || (end_ >? length r) || (start >? end_))
      with false by lia.
    replace (start =? end_) with false by lia.
    rewrite Hslice. cbn [bind]. rewrite Hroot. cbn [deleteNodeZeroAlloc].
    replace (end_ <=? rope.Length l) with false by lia.
    replace (start >=? rope.Length l) with false by lia.
    rewrite Hrun. cbn [bind]. reflexivity. }
  cbn [newRoot newLength]. split; [reflexivity|]. split; [exact Hsub|].
  split; [|rewrite <- Hroot; now rewrite Hdel].
  unfold rope.Length at 1. now rewrite Hsub, Hdel.
Qed.

Lemma DeleteZeroAlloc_across_subtrees_witness :
  exists n d,
    DeleteZeroAlloc (AppendZeroAlloc (zero_alloc.New (lit "Hello w"))
                                     (lit "orld")) 5 9 = Ok d /\
    newRoot d = Some n /\
    rope.String n = lit " wor" /\
    rope.Length n = 4 /\
    newLength d = 7.
Proof.
  destruct (DeleteZeroAlloc_across_subtrees
              (AppendZeroAlloc (zero_alloc.New (lit "Hello w")) (lit "orld"))
              (LeafNode (lit "Hello w")) (LeafNode (lit "orld")) 5 9
              eq_refl)
    as [n [d [Hrun [Hroot [Htext [Hlen Hrec]]]]]].
  - apply consistent_text; reflexivity.
  - vm_compute. split; [discriminate | reflexivity].
  - vm_compute. split; [reflexivity | discriminate].
  - exists n, d. split; [exact Hrun|]. split; [exact Hroot|].
    split; [exact Htext|]. split; [exact Hlen | exact Hrec].
Defined.

(** X30. Appending and prepending.  On a rope whose cached fields agree
    with its tree, [AppendOptimized] and [AppendZeroAlloc] return a rope
    whose text is the text followed by the new text, [PrependOptimized]
    and [PrependZeroAlloc] one whose text is the new text followed by
    the text, and the cached fields of the results agree with their
    trees. *)
Theorem append_and_prepend (r : zero_alloc.Rope) (t : gostring) :
  consistent r ->
  AppendZeroAlloc r t = AppendOptimized r t /\
  PrependZeroAlloc r t = PrependOptimized r t /\
  rope.String (root (AppendOptimized r t)) = rope.String (root r) ++ t /\
  rope.String (root (PrependOptimized r t)) = t ++ rope.String (root r) /\
  consistent (AppendOptimized r t) /\
  consistent (PrependOptimized r t).
Proof.
  intros Hcons. destruct (consistent_inv r Hcons) as [Hlen Hsize].
  split; [reflexivity|]. split; [reflexivity|].
  unfold AppendOptimized, PrependOptimized.
  destruct t as [|c t'].
  { rewrite app_nil_r. repeat split; try reflexivity; apply Hcons. }
  set (t := c :: t').
  destruct (length r =? 0) eqn:E.
  - apply Z.eqb_eq in E.
    assert (Hs : rope.String (root r) = [])
      by (apply len_runes_nil_inv; lia).
    rewrite Hs, app_nil_r.
    repeat split; try reflexivity; now apply consistent_text.
  - split; [reflexivity|]. split; [reflexivity|].
    split; apply consistent_text;
      cbn [root zero_alloc.New rope.String];
      rewrite ?len_runes_app, ?len_bytes_app; lia.
Qed.

Lemma append_and_prepend_witness :
  rope.String (root (AppendOptimized (zero_alloc.New (lit "Hello"))
                                     (lit " World")))
  = lit "Hello World" /\
  rope.String (root (PrependOptimized (zero_alloc.New (lit "World"))
                                      (lit "Hello ")))
  = lit "Hello World".
Proof.
  destruct (append_and_prepend (zero_alloc.New (lit "Hello")) (lit " World"))
    as [_ [_ [Ha _]]]; [now apply consistent_text|].
  destruct (append_and_prepend (zero_alloc.New (lit "World")) (lit "Hello "))
    as [_ [_ [_ [Hp _]]]]; [now apply consistent_text|].
  split; [exact Ha | exact Hp].
Defined.
